(** * MedSeg-Viewer: the segmentation codec, matcher and hierarchy indexer

    A shallow embedding of [utils.ts] (the COCO RLE decoder, the mask
    rasterizer, the centroid calculator, [getBasename], [buildFileTree]),
    of the matcher and the annotation filter of [App.tsx] and of the sibling
    ordering of [FileTree.tsx], with the properties stated about them.

    Part I is the program, function by function. Part II holds the
    definitions that only the properties use, followed by further parts of
    the program (search, uploads, legend, counts) and the definitions of
    their properties. Parts III and IV state and prove the properties.

    Conventions of the embedding.
    - A JavaScript number that the code only uses as an integer is a [Z];
      the 32-bit wrap-around of the bit operators is written out
      ([toInt32]).  Additions such as [x += counts[m - 2]] are not wrapped,
      as in JavaScript (they stay exact integers below 2^53).
    - A JavaScript string is a [string]; [charCodeAt] past the end is NaN,
      written [None].
    - [null] is [None]; a call that may throw returns a [completion].
    - Functions of the host that the repository does not define and that
      cannot be computed here ([localeCompare], the value of numeric
      literals that are not decimal integers) are parameters. *)

From Stdlib Require Import ZArith QArith List Lia String Ascii Bool.
From Stdlib Require Import Sorted Permutation.
From stdpp Require Import base list.
From Equations Require Import Equations.
Import ListNotations.

Local Open Scope Z_scope.

(** * Part I: the program *)

(** ** JavaScript numbers and 32-bit operators *)

Module JS.

(** [ToInt32] on an integer. *)
Definition toInt32 (z : Z) : Z := (z + 2 ^ 31) mod 2 ^ 32 - 2 ^ 31.

(** A number that may be NaN: [None] is NaN.  [ToInt32(NaN) = 0]. *)
Definition num := option Z.

Definition toInt32_num (c : num) : Z :=
  match c with Some z => toInt32 z | None => 0 end.

(** [a & b] *)
Definition band (a : num) (b : Z) : Z := Z.land (toInt32_num a) (toInt32 b).

(** [a | b] *)
Definition bor (a b : Z) : Z := Z.lor (toInt32 a) (toInt32 b).

(** [a << n]: the shift count is taken modulo 32, the result wraps. *)
Definition shl (a n : Z) : Z := toInt32 (Z.shiftl (toInt32 a) (n mod 32)).

(** [s.charCodeAt(p)] *)
Definition charCodeAt (s : string) (p : nat) : num :=
  match String.get p s with
  | Some a => Some (Z.of_N (N_of_ascii a))
  | None => None
  end.

(** [c - 48] on a possibly-NaN number. *)
Definition sub (c : num) (d : Z) : num :=
  match c with Some z => Some (z - d) | None => None end.

(** The outcome of a call: a normal return or a thrown exception. *)
Inductive completion (A : Type) : Type :=
| Normal (a : A)
| Throw (msg : string).
Arguments Normal {A} a.
Arguments Throw {A} msg.

End JS.

Import JS.

(** ** JavaScript string operations *)

(** Strings are sequences of code units below 256 (Latin-1). *)

Module JSString.

Local Open Scope nat_scope.

(** The white space and line terminators that [trim] removes. *)
Definition isWhiteSpace (a : ascii) : bool :=
  let n := nat_of_ascii a in
  ((9 <=? n) && (n <=? 13)) || (n =? 32) || (n =? 160).

Fixpoint trimStart (s : string) : string :=
  match s with
  | EmptyString => EmptyString
  | String a s' => if isWhiteSpace a then trimStart s' else s
  end.

Fixpoint trimEnd (s : string) : string :=
  match s with
  | EmptyString => EmptyString
  | String a s' =>
      match trimEnd s' with
      | EmptyString => if isWhiteSpace a then EmptyString else String a EmptyString
      | t => String a t
      end
  end.

(** [s.trim()] *)
Definition trim (s : string) : string := trimEnd (trimStart s).

(** [a || b] on strings: the empty string is falsy. *)
Definition orElse (a b : string) : string :=
  match a with EmptyString => b | _ => a end.

(** The separators of the regular expression [/[/\\]/]. *)
Definition isSeparator (a : ascii) : bool :=
  (nat_of_ascii a =? 47) || (nat_of_ascii a =? 92).

(** [s.split(/[/\\]/)]: never empty, a separator ends a segment. *)
Fixpoint split (s : string) : list string :=
  match s with
  | EmptyString => [EmptyString]
  | String a s' =>
      if isSeparator a then EmptyString :: split s'
      else match split s' with
           | seg :: rest => String a seg :: rest
           | [] => [String a EmptyString]
           end
  end.

(** [s.lastIndexOf(c)]: -1 when [c] does not occur. *)
Fixpoint lastIndexOf (c : ascii) (s : string) : Z :=
  match s with
  | EmptyString => (-1)%Z
  | String a s' =>
      let i := lastIndexOf c s' in
      if (0 <=? i)%Z then (i + 1)%Z
      else if Ascii.eqb a c then 0%Z else (-1)%Z
  end.

(** [s.substring(a, b)]: both ends are clamped to [0, length] and swapped
    when out of order. *)
Definition substring (a b : Z) (s : string) : string :=
  let clampIdx (i : Z) := Nat.min (Z.to_nat i) (String.length s) in
  let lo := Nat.min (clampIdx a) (clampIdx b) in
  let hi := Nat.max (clampIdx a) (clampIdx b) in
  String.substring lo (hi - lo) s.

Definition lowerChar (a : ascii) : ascii :=
  let n := nat_of_ascii a in
  if ((65 <=? n) && (n <=? 90)) ||
     ((192 <=? n) && (n <=? 222) && negb (n =? 215))
  then ascii_of_nat (n + 32) else a.

(** [s.toLowerCase()] *)
Fixpoint toLowerCase (s : string) : string :=
  match s with
  | EmptyString => EmptyString
  | String a s' => String (lowerChar a) (toLowerCase s')
  end.

(** [parts.join(sep)] *)
Definition join (sep : string) (parts : list string) : string :=
  String.concat sep parts.

End JSString.

(** ** Varint decoder ([decodeCocoRleString]) *)

(** One pass of the body of the inner [while (more)] loop: from [p], [k] and
    [x] to the new [x], and [more]. *)
Definition unitStep (s : string) (p : nat) (k x : Z) : Z * Z :=
  let c := sub (charCodeAt s p) 48 in
  let x := bor x (shl (band c 0x1f) (5 * k)) in
  let more := band c 0x20 in
  let k := k + 1 in
  let x :=
    if (more =? 0) && negb (band c 0x10 =? 0) then bor x (shl (-1) (5 * k))
    else x in
  (x, more).

Arguments unitStep : simpl never.

Lemma more_in_range s p :
  band (sub (charCodeAt s p) 48) 0x20 <> 0 -> (p < String.length s)%nat.
Proof.
  unfold charCodeAt.
  destruct (String.get p s) eqn:E.
  - intros _. revert p E.
    induction s as [|a' s IH]; intros [|p]; simpl; intros E;
      try discriminate; try lia.
    apply IH in E; lia.
  - intros H; exfalso; apply H; reflexivity.
Qed.

(** The inner loop [while (more) { ... }], entered with [more = 1]: returns
    the decoded value [x] and the position after the last unit read. *)
Equations? readValue (s : string) (p : nat) (k x : Z) : Z * nat
  by wf (String.length s - p)%nat lt :=
readValue s p k x with Z.eq_dec (snd (unitStep s p k x)) 0 := {
  | left _ => (fst (unitStep s p k x), S p)
  | right _ => readValue s (S p) (k + 1) (fst (unitStep s p k x)) }.
Proof.
  match goal with H : band _ _ <> 0 |- _ => apply more_in_range in H end.
  lia.
Qed.

Lemma readValue_eq s p k x :
  readValue s p k x =
  if snd (unitStep s p k x) =? 0 then (fst (unitStep s p k x), S p)
  else readValue s (S p) (k + 1) (fst (unitStep s p k x)).
Proof.
  rewrite readValue_equation_1.
  destruct (Z.eq_dec (snd (unitStep s p k x)) 0) as [e|n];
    cbn [readValue_unfold_clause_1].
  - rewrite e. reflexivity.
  - apply Z.eqb_neq in n. rewrite n. reflexivity.
Qed.

Lemma readValue_advances s p k x : (p < snd (readValue s p k x))%nat.
Proof.
  remember (String.length s - p)%nat as d eqn:Hd.
  revert p k x Hd. induction d as [d IH] using lt_wf_ind. intros p k x Hd.
  rewrite readValue_eq.
  destruct (snd (unitStep s p k x) =? 0) eqn:E; [cbn [snd]; lia|].
  apply Z.eqb_neq, more_in_range in E.
  specialize (IH (String.length s - S p)%nat ltac:(lia) (S p) (k + 1)
                 (fst (unitStep s p k x)) eq_refl).
  lia.
Qed.

(** The outer loop [while (p < rleString.length)], with the array [counts]
    and its fill index [m]. The store [counts[m++] = x] appends, since
    [m = counts.length] throughout. *)
Equations? decodeLoop (s : string) (p m : nat) (counts : list Z) : list Z
  by wf (String.length s - p)%nat lt :=
decodeLoop s p m counts with lt_dec p (String.length s) := {
  | right _ => counts
  | left _ =>
      let x := fst (readValue s p 0 0) in
      let x := if (2 <? m)%nat then x + nth (m - 2) counts 0 else x in
      decodeLoop s (snd (readValue s p 0 0)) (S m) (counts ++ [x]) }.
Proof.
  pose proof (readValue_advances s p 0 0) as H. lia.
Qed.

Lemma decodeLoop_eq s p m counts :
  decodeLoop s p m counts =
  if lt_dec p (String.length s) then
    let x := fst (readValue s p 0 0) in
    let x := if (2 <? m)%nat then x + nth (m - 2) counts 0 else x in
    decodeLoop s (snd (readValue s p 0 0)) (S m) (counts ++ [x])
  else counts.
Proof.
  rewrite decodeLoop_equation_1.
  destruct (lt_dec p (String.length s)); reflexivity.
Qed.

Definition decodeCocoRleString (rleString : string) : completion (list Z) :=
  Normal (decodeLoop rleString 0 0 []).

(** ** Run-length data ([types.ts]) *)

(** [counts: number[] | string]; [CountsOther] stands for a value of neither
    type, which the decoders test for at run time. *)
Inductive Counts : Type :=
| CountsArray (l : list Z)
| CountsString (s : string)
| CountsOther.

Record COCORLE : Type := mkRLE {
  counts : Counts;
  size : nat * nat  (* [height, width] *)
}.

(** ** The run-state bookkeeping shared by the rasterizer and the centroid *)

(** The three loop variables [countsIndex], [runRemaining], [currentValue]. *)
Record RunState : Type := mkRun {
  countsIndex : nat;
  runRemaining : Z;
  currentValue : Z
}.

(** [while (runRemaining === 0) { countsIndex++; if (countsIndex <
    counts.length) { runRemaining = counts[countsIndex]; currentValue =
    countsIndex % 2; } else { break; } }] *)
Equations? skipRuns (cnts : list Z) (st : RunState) : RunState
  by wf (length cnts - countsIndex st)%nat lt :=
skipRuns cnts st with Z.eq_dec (runRemaining st) 0 := {
  | right _ => st
  | left _ with lt_dec (S (countsIndex st)) (length cnts) := {
    | left _ =>
        skipRuns cnts
          {| countsIndex := S (countsIndex st);
             runRemaining := nth (S (countsIndex st)) cnts 0;
             currentValue := Z.of_nat (S (countsIndex st)) mod 2 |}
    | right _ =>
        {| countsIndex := S (countsIndex st);
           runRemaining := runRemaining st;
           currentValue := currentValue st |} } }.
Proof. simpl. lia. Qed.

Lemma skipRuns_eq cnts st :
  skipRuns cnts st =
  if runRemaining st =? 0 then
    if lt_dec (S (countsIndex st)) (length cnts) then
      skipRuns cnts
        {| countsIndex := S (countsIndex st);
           runRemaining := nth (S (countsIndex st)) cnts 0;
           currentValue := Z.of_nat (S (countsIndex st)) mod 2 |}
    else
      {| countsIndex := S (countsIndex st);
         runRemaining := runRemaining st;
         currentValue := currentValue st |}
  else st.
Proof.
  rewrite skipRuns_equation_1.
  destruct (Z.eq_dec (runRemaining st) 0) as [e|n];
    cbn [skipRuns_unfold_clause_1].
  - pose proof e as e'. apply Z.eqb_eq in e'. rewrite e'.
    destruct (lt_dec _ _); reflexivity.
  - apply Z.eqb_neq in n. rewrite n. reflexivity.
Qed.

(** [if (runRemaining > 0) runRemaining--;] *)
Definition consume (st : RunState) : RunState :=
  if 0 <? runRemaining st then
    {| countsIndex := countsIndex st;
       runRemaining := runRemaining st - 1;
       currentValue := currentValue st |}
  else st.

(** [let countsIndex = 0; let runRemaining = counts[0]; let currentValue = 0] *)
Definition initialRun (cnts : list Z) : RunState :=
  {| countsIndex := 0; runRemaining := nth 0 cnts 0; currentValue := 0 |}.

(** ** Mask rasterizer ([decodeRleToCanvas]) *)

(** The canvas with its [ImageData]: [pixels] is the row-major RGBA byte
    array, [4 * width * height] bytes, all zero (transparent) when created. *)
Record Canvas : Type := mkCanvas {
  width : nat;
  height : nat;
  pixels : list Z
}.

(** A store into a [Uint8ClampedArray] clamps the value to 0..255. *)
Definition clamp8 (v : Z) : Z := Z.max 0 (Z.min 255 v).

(** The data of a new [ImageData]: transparent black, 4 bytes for each of
    the [w * h] pixels. *)
Definition transparentBlack (w h : nat) : list Z := replicate (4 * w * h) 0.

(** [ctx.createImageData(w, h).data]: the canvas API throws an
    [IndexSizeError] when the width or the height is zero. (Sizes too large
    for the host are outside the model.) *)
Definition createImageData (w h : nat) : completion (list Z) :=
  if ((w =? 0) || (h =? 0))%nat then Throw "IndexSizeError"
  else Normal (transparentBlack w h).

(** The body of the two [for] loops at pixel [(x, y)]. *)
Definition rasterPixel (cnts : list Z) (color : Z * Z * Z) (w : nat)
    (x y : nat) (acc : RunState * list Z) : RunState * list Z :=
  let '(st, data) := acc in
  let st := skipRuns cnts st in
  let data :=
    if currentValue st =? 1 then
      let idx := ((y * w + x) * 4)%nat in
      let '(r, g, b) := color in
      <[(idx + 3)%nat := clamp8 210]>
        (<[(idx + 2)%nat := clamp8 b]>
           (<[(idx + 1)%nat := clamp8 g]> (<[idx := clamp8 r]> data)))
    else data in
  (consume st, data).

(** [for (let x = 0; x < w; x++) for (let y = 0; y < h; y++) { ... }] *)
Definition rasterLoops (cnts : list Z) (color : Z * Z * Z) (w h : nat)
    (acc : RunState * list Z) : RunState * list Z :=
  foldl (fun acc x =>
           foldl (fun acc y => rasterPixel cnts color w x y acc) acc (seq 0 h))
        acc (seq 0 w).

(** The 2d context of a fresh canvas is taken to be available ([ctx] is not
    null). [createImageData] is called before the test of [counts.length]
    and outside the [try]: its exception leaves the function. *)
Definition decodeRleToCanvas (rle : COCORLE) (color : Z * Z * Z)
    : completion (option Canvas) :=
  let '(h, w) := size rle in
  let normalized : option (list Z) :=
    match counts rle with
    | CountsArray l => Some l
    | CountsString s =>
        match decodeCocoRleString s with
        | Normal l => Some l
        | Throw _ => None   (* catch (e) { ...; return null; } *)
        end
    | CountsOther => None
    end in
  match normalized with
  | None => Normal None
  | Some cnts =>
      match createImageData w h with
      | Throw e => Throw e
      | Normal data =>
          if (length cnts =? 0)%nat then Normal None
          else
            let '(_, data) :=
              rasterLoops cnts color w h (initialRun cnts, data) in
            Normal (Some {| width := w; height := h; pixels := data |})
      end
  end.

(** ** Centroid calculator ([calculateCentroid]) *)

(** [{ x: number; y: number }]; the quotient of two integers is kept as the
    exact rational. *)
Record Point : Type := mkPoint { px : Q; py : Q }.

Record Totals : Type := mkTotals {
  totalX : Z;
  totalY : Z;
  totalPixels : Z
}.

Definition centroidPixel (cnts : list Z) (x y : nat)
    (acc : RunState * Totals) : RunState * Totals :=
  let '(st, t) := acc in
  let st := skipRuns cnts st in
  let t :=
    if currentValue st =? 1 then
      {| totalX := totalX t + Z.of_nat x;
         totalY := totalY t + Z.of_nat y;
         totalPixels := totalPixels t + 1 |}
    else t in
  (consume st, t).

Definition centroidLoops (cnts : list Z) (w h : nat)
    (acc : RunState * Totals) : RunState * Totals :=
  foldl (fun acc x =>
           foldl (fun acc y => centroidPixel cnts x y acc) acc (seq 0 h))
        acc (seq 0 w).

(** [totalX / totalPixels] *)
Definition quotient (a b : Z) : Q := (inject_Z a / inject_Z b)%Q.

Definition calculateCentroid (rle : COCORLE) : completion (option Point) :=
  let '(h, w) := size rle in
  let normalized : completion (option (list Z)) :=
    match counts rle with
    | CountsArray l => Normal (Some l)
    | CountsString s =>
        match decodeCocoRleString s with   (* no try/catch here *)
        | Normal l => Normal (Some l)
        | Throw e => Throw e
        end
    | CountsOther => Normal None
    end in
  match normalized with
  | Throw e => Throw e
  | Normal None => Normal None
  | Normal (Some cnts) =>
      if (length cnts =? 0)%nat then Normal None
      else
        let '(_, t) :=
          centroidLoops cnts w h
            (initialRun cnts, {| totalX := 0; totalY := 0; totalPixels := 0 |}) in
        if totalPixels t =? 0 then Normal None
        else Normal (Some {| px := quotient (totalX t) (totalPixels t);
                             py := quotient (totalY t) (totalPixels t) |})
  end.

(** ** Documents ([types.ts]) *)

(** An id as it comes out of [JSON.parse]: a number or a string. *)
Inductive JsId : Type :=
| IdNum (n : Z)
| IdStr (s : string).

(** The records carry the fields that the modelled functions read. *)
Record COCOImage : Type := mkImage {
  id : JsId;
  file_name : string
}.

Record COCOAnnotation : Type := mkAnnotation {
  ann_id : JsId;
  image_id : JsId;
  category_id : JsId
}.

Record COCOJson : Type := mkJson {
  images : list COCOImage;
  annotations : list COCOAnnotation
}.

(** ** [getBasename] and the matcher of [handleImageUpload] *)

(** [(path.split(/[/\\]/).pop() || path).trim()] *)
Definition getBasename (path : string) : string :=
  JSString.trim
    (JSString.orElse (List.last (JSString.split path) EmptyString) path).

(** [name.substring(0, name.lastIndexOf('.')) || name] *)
Definition nameNoExt (name : string) : string :=
  JSString.orElse
    (JSString.substring 0 (JSString.lastIndexOf "."%char name) name) name.

Inductive Tab : Type := upload | structure.

(** The part of the state of [App] that the two handlers read and write. *)
Record AppState : Type := mkApp {
  cocoData : option COCOJson;
  currentImageFile : option string;   (* the uploaded file, by its name *)
  matchedImageId : option JsId;
  activeTab : Tab;
  selectedTreeImage : option COCOImage;
  error : option string
}.

Definition quote : string := String (ascii_of_nat 34) EmptyString.

(** The predicate passed to [cocoData.images.find]. *)
Definition matchesUpload (uploadedNameNoExt : string) (img : COCOImage) : bool :=
  let jsonBasename := getBasename (file_name img) in
  let jsonNameNoExt := nameNoExt jsonBasename in
  String.eqb (JSString.toLowerCase jsonNameNoExt)
             (JSString.toLowerCase uploadedNameNoExt).

Definition handleImageUpload (st : AppState) (fileName : string) : AppState :=
  match cocoData st with
  | None =>
      mkApp (cocoData st) (currentImageFile st) (matchedImageId st)
            (activeTab st) (selectedTreeImage st)
            (Some "Please upload annotations (JSON) first."%string)
  | Some doc =>
      let uploadedBasename := JSString.trim fileName in
      let uploadedNameNoExt := nameNoExt uploadedBasename in
      match List.find (matchesUpload uploadedNameNoExt) (images doc) with
      | Some matchedImage =>
          mkApp (cocoData st) (Some fileName) (Some (id matchedImage))
                upload (selectedTreeImage st) None
      | None =>
          let examples :=
            JSString.join ", "
              (List.map (fun i => getBasename (file_name i))
                        (firstn 3 (images doc))) in
          mkApp (cocoData st) None None (activeTab st) (selectedTreeImage st)
                (Some ("Image " ++ quote ++ uploadedBasename ++ quote ++
                       " not found. Expected: " ++ quote ++ examples ++
                       quote ++ "...")%string)
      end
  end.

(** ** Loose equality of ids and the annotation filter ([currentAnnotations]) *)

Module Ids.

Definition isDigit (a : ascii) : bool :=
  ((48 <=? nat_of_ascii a) && (nat_of_ascii a <=? 57))%nat.

Definition digitValue (a : ascii) : Z := Z.of_nat (nat_of_ascii a - 48).

(** The value of a run of decimal digits, read left to right from [acc]. *)
Fixpoint digitsValue (acc : Z) (s : string) : option Z :=
  match s with
  | EmptyString => Some acc
  | String a s' =>
      if isDigit a then digitsValue (10 * acc + digitValue a) s' else None
  end.

Definition unsignedValue (s : string) : option Z :=
  match s with
  | EmptyString => None
  | _ => digitsValue 0 s
  end.

(** A decimal integer literal with an optional sign. *)
Definition decimalIntegerValue (s : string) : option Z :=
  match s with
  | String "+"%char r => unsignedValue r
  | String "-"%char r => option_map Z.opp (unsignedValue r)
  | _ => unsignedValue s
  end.

Section LooseEquality.

(** The integer value, when there is one, of a numeric literal that is not a
    plain decimal integer (hexadecimal, with a fraction or an exponent);
    [None] also for a string that is no number at all (NaN). *)
Variable otherLiteralValue : string -> option Z.

(** [Number(s)]: white space is trimmed, the empty string is 0. *)
Definition toNumber (s : string) : option Z :=
  match JSString.trim s with
  | EmptyString => Some 0
  | t => match decimalIntegerValue t with
         | Some z => Some z
         | None => otherLiteralValue t
         end
  end.

(** [a == b] on ids: numbers and strings compare among themselves; a string
    against a number is converted with [Number]. *)
Definition looseEq (a b : JsId) : bool :=
  match a, b with
  | IdNum x, IdNum y => x =? y
  | IdStr s, IdStr t => String.eqb s t
  | IdNum x, IdStr s | IdStr s, IdNum x =>
      match toNumber s with Some y => x =? y | None => false end
  end.

(** [activeTab === 'upload' ? matchedImageId : selectedTreeImage?.id] *)
Definition targetId (st : AppState) : option JsId :=
  match activeTab st with
  | upload => matchedImageId st
  | structure => option_map id (selectedTreeImage st)
  end.

Definition currentAnnotations (st : AppState) : list COCOAnnotation :=
  match cocoData st with
  | None => []
  | Some doc =>
      match targetId st with
      | None => []
      | Some t => List.filter (fun ann => looseEq (image_id ann) t) (annotations doc)
      end
  end.

End LooseEquality.

End Ids.

Import Ids.

(** ** Hierarchy indexer ([buildFileTree]) *)

(** A plain object used as a map from names to values: its own properties,
    in insertion order. An assignment to an existing key keeps its place.
    [get] and [set] are [o[k]] and [o[k] = v] for a key that is an own key
    ([ownKey] below): for a name that the object inherits from
    [Object.prototype], [o[k]] finds the inherited member and
    [o["__proto__"] = v] sets no property, which this model does not
    follow; the properties that depend on it are stated for own keys. (The
    rule that [Object.entries] lists array-index keys first is not modelled
    either; the sort of [FileTree.tsx] evens it out.) *)
Module Obj.

Section Obj.

Context {V : Type}.

Fixpoint get (o : list (string * V)) (k : string) : option V :=
  match o with
  | [] => None
  | (k', v) :: o' => if String.eqb k' k then Some v else get o' k
  end.

Fixpoint set (o : list (string * V)) (k : string) (v : V) : list (string * V) :=
  match o with
  | [] => [(k, v)]
  | (k', v') :: o' =>
      if String.eqb k' k then (k', v) :: o' else (k', v') :: set o' k v
  end.

Lemma get_set_eq o k v : get (set o k v) k = Some v.
Proof.
  induction o as [|[k' v'] o IH]; simpl.
  - rewrite String.eqb_refl. reflexivity.
  - destruct (String.eqb k' k) eqn:E; simpl; rewrite E; [reflexivity|exact IH].
Qed.

Lemma get_set_ne o k v k' : k <> k' -> get (set o k v) k' = get o k'.
Proof.
  intros Hne. induction o as [|[k0 v0] o IH]; simpl.
  - apply String.eqb_neq in Hne. rewrite Hne. reflexivity.
  - destruct (String.eqb k0 k) eqn:E; simpl.
    + apply String.eqb_eq in E. subst k0.
      apply String.eqb_neq in Hne. rewrite Hne. reflexivity.
    + destruct (String.eqb k0 k'); [reflexivity|exact IH].
Qed.

End Obj.



End Obj.

Inductive NodeType : Type := folder | file.

(** [interface TreeNode]: [children] and [data] are optional. *)
#[warnings="-register-all"]
Inductive TreeNode : Type :=
  mkNode (name : string) (type : NodeType)
         (children : option (list (string * TreeNode)))
         (data : option COCOImage) (path : string).

Definition name (n : TreeNode) : string :=
  match n with mkNode x _ _ _ _ => x end.
Definition type (n : TreeNode) : NodeType :=
  match n with mkNode _ x _ _ _ => x end.
Definition children (n : TreeNode) : option (list (string * TreeNode)) :=
  match n with mkNode _ _ x _ _ => x end.
Definition data (n : TreeNode) : option COCOImage :=
  match n with mkNode _ _ _ x _ => x end.
Definition path (n : TreeNode) : string :=
  match n with mkNode _ _ _ _ x => x end.

(** [current.children = value] *)
Definition setChildren (n : TreeNode) (c : list (string * TreeNode)) : TreeNode :=
  mkNode (name n) (type n) (Some c) (data n) (path n).

(** [currentPath ? `${currentPath}/${part}` : part] *)
Definition extendPath (currentPath part : string) : string :=
  match currentPath with
  | EmptyString => part
  | _ => (currentPath ++ "/" ++ part)%string
  end.

(** The body of [parts.forEach((part, index) => ...)] from the node
    [current] on, for the parts that are left; the result is [current] after
    the updates below it. *)
Fixpoint insertParts (img : COCOImage) (parts : list string)
    (currentPath : string) (current : TreeNode) : TreeNode :=
  match parts with
  | [] => current
  | part :: rest =>
      let currentPath := extendPath currentPath part in
      (* if (!current.children) current.children = {} *)
      let kids := match children current with Some c => c | None => [] end in
      match rest with
      | [] =>
          (* index === parts.length - 1 *)
          setChildren current
            (Obj.set kids part (mkNode part file None (Some img) currentPath))
      | _ :: _ =>
          (* if (!current.children[part]) current.children[part] = {folder};
             current = current.children[part] *)
          let next :=
            match Obj.get kids part with
            | Some existing => existing
            | None => mkNode part folder (Some []) None currentPath
            end in
          setChildren current
            (Obj.set kids part (insertParts img rest currentPath next))
      end
  end.

Definition emptyRoot : TreeNode := mkNode "root" folder (Some []) None "".

(** [images.forEach(img => ...)] from a fresh root. *)
Definition buildFileTree (imgs : list COCOImage) : TreeNode :=
  foldl (fun root img => insertParts img (JSString.split (file_name img)) "" root)
        emptyRoot imgs.

(** ** Sibling order ([FileTree.tsx]) *)

(** [Array.prototype.sort(cmp)]: a stable sort. *)
Fixpoint sortInsert {A} (cmp : A -> A -> Z) (x : A) (l : list A) : list A :=
  match l with
  | [] => [x]
  | y :: l' => if cmp x y <=? 0 then x :: l else y :: sortInsert cmp x l'
  end.

Fixpoint sort {A} (cmp : A -> A -> Z) (l : list A) : list A :=
  match l with
  | [] => []
  | x :: l' => sortInsert cmp x (sort cmp l')
  end.

Section SiblingOrder.

(** [String.prototype.localeCompare] is the collation of the host, which
    the repository does not define and which depends on the locale: it is
    a parameter. *)
Variable localeCompare : string -> string -> Z.

(** The comparator passed to [sort]. *)
Definition compareEntries (a b : string * TreeNode) : Z :=
  match type (snd a), type (snd b) with
  | folder, file => -1
  | file, folder => 1
  | _, _ => localeCompare (fst a) (fst b)
  end.

(** The children of a folder node in the order in which they are shown:
    [Object.entries(node.children).sort(...)]. *)
Definition shownChildren (node : TreeNode) : list (string * TreeNode) :=
  match type node with
  | file => []   (* a file node is drawn as a leaf *)
  | folder =>
      match children node with
      | Some c => sort compareEntries c
      | None => []
      end
  end.

End SiblingOrder.

(** * Part II: the definitions of the properties *)

(** ** The decoder *)

(** The raw values read by the inner loop, before the delta rule: the
    sequence of [x] at the end of each inner loop. *)
Equations? rawValues (s : string) (p : nat) : list Z
  by wf (String.length s - p)%nat lt :=
rawValues s p with lt_dec p (String.length s) := {
  | right _ => []
  | left _ => fst (readValue s p 0 0) :: rawValues s (snd (readValue s p 0 0)) }.
Proof.
  pose proof (readValue_advances s p 0 0) as H. lia.
Qed.

Lemma rawValues_eq s p :
  rawValues s p =
  if lt_dec p (String.length s) then
    fst (readValue s p 0 0) :: rawValues s (snd (readValue s p 0 0))
  else [].
Proof.
  rewrite rawValues_equation_1.
  destruct (lt_dec p (String.length s)); reflexivity.
Qed.

(** The delta rule applied from output index [n] on: the value stored at
    index [i >= n] is the raw value plus the stored value two places back,
    and the raw value itself below [n]. *)
Definition deltaRuleFrom (n : nat) (s : string) (out : list Z) : Prop :=
  forall (i : nat) (r : Z),
    rawValues s 0 !! i = Some r ->
    out !! i = Some (if (n <=? i)%nat then r + nth (i - 2) out 0 else r).

(** The last unit of the string has its continuation bit [0x20] set, so no
    character remains when the inner loop asks for the next unit. *)
Definition endsMidUnit (s : string) : bool :=
  (0 <? String.length s)%nat &&
  negb (band (sub (charCodeAt s (String.length s - 1)) 48) 0x20 =? 0).

(** ** The bitmap read back from the output buffer *)

(** The second definition of the refinement: foreground pixels are read
    from the canvas (alpha byte 210 at the row-major index), row by row,
    and their coordinates averaged. *)

Fixpoint sumTo (n : nat) (f : nat -> Z) : Z :=
  match n with
  | O => 0
  | S n' => sumTo n' f + f n'
  end.

Definition isForeground (cv : Canvas) (x y : nat) : bool :=
  match pixels cv !! ((y * width cv + x) * 4 + 3)%nat with
  | Some a => a =? 210
  | None => false
  end.

(** The sum of [g x y] over the foreground pixels of the bitmap. *)
Definition bitmapSum (cv : Canvas) (g : nat -> nat -> Z) : Z :=
  sumTo (height cv) (fun y =>
    sumTo (width cv) (fun x => if isForeground cv x y then g x y else 0)).

Definition foregroundCount (cv : Canvas) : Z := bitmapSum cv (fun _ _ => 1).

Definition bitmapCentroid (cv : Canvas) : option Point :=
  let n := foregroundCount cv in
  if n =? 0 then None
  else Some {| px := quotient (bitmapSum cv (fun x _ => Z.of_nat x)) n;
               py := quotient (bitmapSum cv (fun _ y => Z.of_nat y)) n |}.

(** The sum of the run lengths at odd indices, [i] being the index of the
    head of the list. *)
Fixpoint sumOddFrom (i : nat) (l : list Z) : Z :=
  match l with
  | [] => 0
  | c :: l' => (if Nat.odd i then c else 0) + sumOddFrom (S i) l'
  end.

Definition sumOdd (l : list Z) : Z := sumOddFrom 0 l.

Fixpoint sumList (l : list Z) : Z :=
  match l with
  | [] => 0
  | c :: l' => c + sumList l'
  end.

(** ** The scan as a sequence of states *)

(** The run state on entry of the loop body at scan position [n] (the
    [n]-th pixel in column-major order), and whether that pixel is painted. *)
Fixpoint stateAt (cnts : list Z) (n : nat) : RunState :=
  match n with
  | O => initialRun cnts
  | S n' => consume (skipRuns cnts (stateAt cnts n'))
  end.

Definition fgAt (cnts : list Z) (n : nat) : bool :=
  currentValue (skipRuns cnts (stateAt cnts n)) =? 1.

(** The sum of [g x y] over the painted scan positions. *)
Definition maskSum (cnts : list Z) (w h : nat) (g : nat -> nat -> Z) : Z :=
  sumTo w (fun x =>
    sumTo h (fun y => if fgAt cnts (x * h + y) then g x y else 0)).

(** The accumulation of one pixel into a total, when it is painted. *)
Definition addFg (cnts : list Z) (n : nat) (v acc : Z) : Z :=
  acc + if fgAt cnts n then v else 0.

(** The buffer after [n] scan positions: the alpha byte of a pixel is 210
    when its scan position is below [n] and painted, and 0 otherwise. *)
Definition paintedUpTo (cnts : list Z) (w h n : nat) (data : list Z) : Prop :=
  length data = (4 * w * h)%nat /\
  forall x y, (x < w)%nat -> (y < h)%nat ->
    data !! ((y * w + x) * 4 + 3)%nat =
    Some (if (x * h + y <? n)%nat && fgAt cnts (x * h + y) then 210 else 0).

(** Painted pixels among the first [n] scan positions. *)
Definition paintedBefore (cnts : list Z) (n : nat) : Z :=
  sumTo n (fun i => if fgAt cnts i then 1 else 0).

(** The state at scan position [n] accounts for the pixels consumed so far
    and for those still to come. *)
Definition accounted (cnts : list Z) (n : nat) (st : RunState) : Prop :=
  currentValue st = Z.of_nat (countsIndex st) mod 2 /\
  0 <= runRemaining st /\
  Z.of_nat n + runRemaining st + sumList (skipn (S (countsIndex st)) cnts)
    = sumList cnts /\
  paintedBefore cnts n
    + (if Nat.odd (countsIndex st) then runRemaining st else 0)
    + sumOddFrom (S (countsIndex st)) (skipn (S (countsIndex st)) cnts)
    = sumOdd cnts.

(** The run lengths both entry points work on, when there are any. *)
Definition normalized (c : Counts) : option (list Z) :=
  match c with
  | CountsArray l => Some l
  | CountsString s => Some (decodeLoop s 0 0 [])
  | CountsOther => None
  end.

(** The mean position over the painted scan positions. *)
Definition scanCentroid (cnts : list Z) (w h : nat) : option Point :=
  let n := maskSum cnts w h (fun _ _ => 1) in
  if n =? 0 then None
  else Some {| px := quotient (maskSum cnts w h (fun x _ => Z.of_nat x)) n;
               py := quotient (maskSum cnts w h (fun _ y => Z.of_nat y)) n |}.

(** ** The matcher in the words of its description *)

Module MatcherSpec.

Import JSString.

Fixpoint occurs (c : ascii) (s : string) : bool :=
  match s with
  | EmptyString => false
  | String a s' => Ascii.eqb a c || occurs c s'
  end.

(** The substring before the last occurrence of [c]. *)
Fixpoint beforeLast (c : ascii) (s : string) : string :=
  match s with
  | EmptyString => EmptyString
  | String a s' => if occurs c s' then String a (beforeLast c s') else EmptyString
  end.

Fixpoint hasSeparator (s : string) : bool :=
  match s with
  | EmptyString => false
  | String a s' => isSeparator a || hasSeparator s'
  end.

(** The final path segment: what follows the last ['/'] or ['\']. *)
Fixpoint finalSegment (s : string) : string :=
  match s with
  | EmptyString => EmptyString
  | String a s' =>
      if hasSeparator s' then finalSegment s'
      else if isSeparator a then s' else s
  end.

(** As the description has it: the final path segment, trimmed. *)
Definition segmentStated (path : string) : string := trim (finalSegment path).

(** As the description has it: the substring before the last ['.'], the
    whole string if there is no ['.']. *)
Definition stripExtStated (s : string) : string :=
  if occurs "."%char s then beforeLast "."%char s else s.

Definition matchesStated (fileName : string) (img : COCOImage) : bool :=
  String.eqb (toLowerCase (stripExtStated (segmentStated (file_name img))))
             (toLowerCase (stripExtStated fileName)).

(** As the code has it: an empty final segment gives way to the whole path,
    an empty stem to the whole name, and the uploaded name is trimmed. *)
Definition segmentAmended (path : string) : string :=
  trim (if String.eqb (finalSegment path) EmptyString then path
        else finalSegment path).

Definition stripExtAmended (s : string) : string :=
  if occurs "."%char s && negb (String.eqb (beforeLast "."%char s) EmptyString)
  then beforeLast "."%char s else s.

Definition matchesAmended (fileName : string) (img : COCOImage) : bool :=
  String.eqb (toLowerCase (stripExtAmended (segmentAmended (file_name img))))
             (toLowerCase (stripExtAmended (trim fileName))).

Definition notFoundMessage (uploaded : string) (examples : list string) : string :=
  ("Image " ++ quote ++ uploaded ++ quote ++ " not found. Expected: " ++
   quote ++ join ", " examples ++ quote ++ "...")%string.

End MatcherSpec.

(** ** The decimal representation of an id *)

(** The decimal digits of a non-negative integer. *)
Definition digitChar (d : Z) : ascii := ascii_of_nat (48 + Z.to_nat d).

Equations? digitsOf (n : Z) : string by wf (Z.to_nat n) lt :=
digitsOf n with Z_lt_dec n 10 := {
  | left _ => String (digitChar n) EmptyString
  | right _ => (digitsOf (n / 10) ++ String (digitChar (n mod 10)) EmptyString)%string }.
Proof.
  apply Z2Nat.inj_lt; try lia.
  - apply Z.div_pos; lia.
  - apply Z.div_lt; lia.
Qed.

(** The decimal representation of an integer, as [String(n)] writes an
    integer below 10^21. *)
Definition decimalString (n : Z) : string :=
  if n <? 0 then String "-"%char (digitsOf (- n)) else digitsOf n.

(** ** Paths in the tree *)

(** The node reached from [n] by following the keys [q]. *)
Fixpoint lookupPath (n : TreeNode) (q : list string) : option TreeNode :=
  match q with
  | [] => Some n
  | k :: q' =>
      match children n with
      | Some c =>
          match Obj.get c k with
          | Some m => lookupPath m q'
          | None => None
          end
      | None => None
      end
  end.

(** The path string after walking the parts [q] from [currentPath]. *)
Definition pathFrom (currentPath : string) (q : list string) : string :=
  foldl extendPath currentPath q.


(** The fields of a node other than its children. *)
Definition header (n : TreeNode) : string * NodeType * option COCOImage * string :=
  (name n, type n, data n, path n).

Fixpoint isPrefix (p q : list string) : bool :=
  match p, q with
  | [], _ => true
  | _ :: _, [] => false
  | a :: p', b :: q' => String.eqb a b && isPrefix p' q'
  end.


Definition segments (img : COCOImage) : list string :=
  JSString.split (file_name img).


(** The node under which the rest of the parts is inserted. *)
Definition nextNode (part : string) (cp : string) (t : TreeNode) : TreeNode :=
  match Obj.get (match children t with Some c => c | None => [] end) part with
  | Some existing => existing
  | None => mkNode part folder (Some []) None (extendPath cp part)
  end.

(** Leading empty segments leave no trace in a path string. *)
Fixpoint dropEmpty (q : list string) : list string :=
  match q with
  | EmptyString :: q' => dropEmpty q'
  | _ => q
  end.

Fixpoint tailJoin (q : list string) : string :=
  match q with
  | [] => EmptyString
  | part :: q' => ("/" ++ part ++ tailJoin q')%string
  end.


(** What [sort] needs of the comparison of the host to sort: its "not
    after" is total and transitive. *)
Definition sortsConsistently (cmp : string -> string -> Z) : Prop :=
  (forall a b, cmp a b <= 0 \/ cmp b a <= 0) /\
  (forall a b c, cmp a b <= 0 -> cmp b c <= 0 -> cmp a c <= 0).

Definition comparisonResult (c : comparison) : Z :=
  match c with
  | Lt => -1
  | Eq => 0
  | Gt => 1
  end.

(** Two comparisons a host could have. The first is the case-sensitive
    comparison of the code units that the description states. The second,
    as the collations of the hosts do for letters, looks at the letters
    before it looks at their case, and puts the lower-case letter first:
    ["a"], ["b"], ["B"]. *)
Definition codeUnitCompare (a b : string) : Z :=
  comparisonResult (String.compare a b).

Definition foldedCompare (a b : string) : Z :=
  match String.compare (JSString.toLowerCase a) (JSString.toLowerCase b) with
  | Eq => comparisonResult (String.compare b a)
  | c => comparisonResult c
  end.

(** [a] may come before [b] in an array sorted with [cmp]. *)
Definition notAfter {A : Type} (cmp : A -> A -> Z) (a b : A) : Prop :=
  cmp a b <= 0.

#[warnings="-register-all"]
Inductive Keyed : TreeNode -> Prop :=
| Keyed_node (n : TreeNode) :
    (forall c k m, children n = Some c -> In (k, m) c -> name m = k /\ Keyed m) ->
    Keyed n.

(** ** Sample documents *)

Definition doc1 : COCOJson :=
  mkJson [mkImage (IdNum 7) "CT/brain/scan_001.png"] [].

Definition app1 : AppState := mkApp (Some doc1) None None structure None None.

Definition doc5 : COCOJson :=
  mkJson [mkImage (IdNum 5) "a.png"]
         [mkAnnotation (IdNum 1) (IdStr "5") (IdNum 1);
          mkAnnotation (IdNum 2) (IdNum 6) (IdNum 1);
          mkAnnotation (IdNum 3) (IdNum 5) (IdNum 2)].

Definition imgs3 : list COCOImage :=
  [mkImage (IdNum 1) "A/x.png"; mkImage (IdNum 2) "B/z.png";
   mkImage (IdNum 3) "A/y.png"].

Definition imgsABC : list COCOImage :=
  [mkImage (IdNum 1) "A/x.png"; mkImage (IdNum 2) "A/y.png";
   mkImage (IdNum 3) "B/z.png"].

(** * Further parts of the program *)

(** ** More string operations *)

Module JSStringMore.

(** [s.includes(sub)] *)
Fixpoint includes (s sub : string) : bool :=
  String.prefix sub s ||
  match s with
  | EmptyString => false
  | String _ s' => includes s' sub
  end.

(** [s.split(c)] for a one-character separator [c]. *)
Fixpoint splitOn (c : ascii) (s : string) : list string :=
  match s with
  | EmptyString => [EmptyString]
  | String a s' =>
      if Ascii.eqb a c then EmptyString :: splitOn c s'
      else match splitOn c s' with
           | seg :: rest => String a seg :: rest
           | [] => [String a EmptyString]
           end
  end.

End JSStringMore.

(** [String(id)], [id.toString()] and [`${id}`] on an id: the decimal digits
    of an integer, the string itself. *)
Definition idToString (i : JsId) : string :=
  match i with
  | IdNum n => decimalString n
  | IdStr s => s
  end.

(** [a === b] on ids. *)
Definition strictEq (a b : JsId) : bool :=
  match a, b with
  | IdNum x, IdNum y => x =? y
  | IdStr s, IdStr t => String.eqb s t
  | _, _ => false
  end.

(** ** The search filter of the tree ([fileTree] of [App.tsx]) *)

(** The predicate passed to [images.filter]. *)
Definition matchesSearch (lowerSearch : string) (img : COCOImage) : bool :=
  JSStringMore.includes (JSString.toLowerCase (file_name img)) lowerSearch ||
  JSStringMore.includes (idToString (id img)) lowerSearch.

Definition searchedImages (doc : COCOJson) (treeSearch : string) : list COCOImage :=
  match treeSearch with
  | EmptyString => images doc            (* if (treeSearch) is false *)
  | _ => List.filter (matchesSearch (JSString.toLowerCase treeSearch)) (images doc)
  end.

Definition fileTree (data : option COCOJson) (treeSearch : string) : option TreeNode :=
  match data with
  | None => None
  | Some doc => Some (buildFileTree (searchedImages doc treeSearch))
  end.

(** ** Loading a document ([handleJsonUpload]) *)

Record COCOCategory : Type := mkCategory {
  cat_id : JsId;
  cat_name : string;
  supercategory : string
}.

(** What [JSON.parse] gave, as [handleJsonUpload] looks at it: the three
    top-level arrays, [None] for one that is missing (or falsy). *)
Record ParsedJson : Type := mkParsed {
  parsedImages : option (list COCOImage);
  parsedAnnotations : option (list COCOAnnotation);
  parsedCategories : option (list COCOCategory)
}.

(** The state after the [onload] callback: [parsed] is the outcome of
    [JSON.parse], [Throw] with the message of the exception that it, or the
    reading of a field of its result, raises inside the [try]. *)
Definition handleJsonUpload (st : AppState) (parsed : completion ParsedJson)
    : AppState :=
  let failed (message : string) :=
    mkApp (cocoData st) (currentImageFile st) (matchedImageId st)
          (activeTab st) (selectedTreeImage st)
          (Some ("Failed to parse JSON: " ++ message)%string) in
  match parsed with
  | Throw message => failed message
  | Normal json =>
      match parsedImages json, parsedAnnotations json, parsedCategories json with
      | Some imgs, Some anns, Some _ =>
          mkApp (Some (mkJson imgs anns)) None None (activeTab st) None None
      | _, _, _ =>
          failed "Invalid COCO JSON format. Missing images, annotations, or categories."%string
      end
  end.

(** ** The file check of the drop zone ([validateAndAccept] of [Dropzone.tsx]) *)

Inductive Accept : Type := acceptJson | acceptImage.

(** [file.name.split('.').pop()?.toLowerCase()] *)
Definition fileExtension (fileName : string) : string :=
  JSString.toLowerCase
    (List.last (JSStringMore.splitOn "."%char fileName) EmptyString).

(** [true] when the file is handed to [onFileAccepted], [false] when the
    alert is shown. *)
Definition validateAndAccept (accept : Accept) (fileName : string) : bool :=
  let extension := fileExtension fileName in
  match accept with
  | acceptJson => String.eqb extension "json"
  | acceptImage =>
      existsb (String.eqb extension) ["jpg"; "jpeg"; "png"]%string
  end.

(** ** Categories: the legend of [Viewer.tsx], the counts of [MetadataPreview] *)

(** [categories.find(c => c.id === id)?.name || `Class ${id}`] *)
Definition getCategoryName (categories : list COCOCategory) (i : JsId) : string :=
  JSString.orElse
    (match List.find (fun c => strictEq (cat_id c) i) categories with
     | Some c => cat_name c
     | None => EmptyString     (* undefined is falsy as well *)
     end)
    ("Class " ++ idToString i)%string.

(** A [Map] keyed by ids: its entries in insertion order. *)
Fixpoint mapHas {V : Type} (m : list (JsId * V)) (k : JsId) : bool :=
  match m with
  | [] => false
  | (k', _) :: m' => strictEq k' k || mapHas m' k
  end.

Section Legend.

(** [getColorForId] works on floating-point numbers; its result is taken as
    given. *)
Variable getColorForId : JsId -> Z * Z * Z.

(** [`rgb(${color[0]}, ${color[1]}, ${color[2]})`] *)
Definition colorHex (color : Z * Z * Z) : string :=
  let '(r, g, b) := color in
  ("rgb(" ++ decimalString r ++ ", " ++ decimalString g ++ ", " ++
   decimalString b ++ ")")%string.

(** [legendItems]: a new key is only set when the map does not have it, so
    the entry goes to the end. *)
Definition legendItems (categories : list COCOCategory)
    (anns : list COCOAnnotation) : list (JsId * (string * string)) :=
  foldl (fun uniqueItems ann =>
           if mapHas uniqueItems (category_id ann) then uniqueItems
           else uniqueItems ++
                [(category_id ann,
                  (getCategoryName categories (category_id ann),
                   colorHex (getColorForId (ann_id ann))))])
        [] anns.

End Legend.


(** ** The tree rows ([FileTree.tsx]) *)


(** [selectedImageId !== undefined && node.data?.id === selectedImageId] *)
Definition isSelected (selectedImageId : option JsId) (node : TreeNode) : bool :=
  match selectedImageId, data node with
  | Some sel, Some img => strictEq (id img) sel
  | _, _ => false
  end.

(** ** The events of [App] *)

(** [useState(...)]: the state on the first render. *)
Definition initialState : AppState := mkApp None None None upload None None.

(** The tab buttons: [onClick={() => setActiveTab(tab)}]; the button of the
    tree tab is [disabled={!cocoData}]. *)
Definition clickTab (st : AppState) (tab : Tab) : AppState :=
  match tab, cocoData st with
  | structure, None => st
  | _, _ =>
      mkApp (cocoData st) (currentImageFile st) (matchedImageId st) tab
            (selectedTreeImage st) (error st)
  end.

(** A click on the row of the node under [keys] of the tree drawn for the
    search text [treeSearch]. The tree is drawn on the tree tab; the row of
    a file node runs [node.data && onSelect?.(node.data)], with
    [onSelect={(img) => setSelectedTreeImage(img)}]; the row of a folder
    only opens or closes it. *)
Definition clickRow (st : AppState) (treeSearch : string) (keys : list string)
    : AppState :=
  match activeTab st, fileTree (cocoData st) treeSearch with
  | structure, Some root =>
      match lookupPath root keys with
      | Some node =>
          match type node, data node with
          | file, Some img =>
              mkApp (cocoData st) (currentImageFile st) (matchedImageId st)
                    (activeTab st) (Some img) (error st)
          | _, _ => st
          end
      | None => st
      end
  | _, _ => st
  end.

Inductive Event : Type :=
| JsonRead (parsed : completion ParsedJson)
| ImageAccepted (fileName : string)
| TabClicked (tab : Tab)
| RowClicked (treeSearch : string) (keys : list string).

Definition step (st : AppState) (ev : Event) : AppState :=
  match ev with
  | JsonRead parsed => handleJsonUpload st parsed
  | ImageAccepted fileName => handleImageUpload st fileName
  | TabClicked tab => clickTab st tab
  | RowClicked treeSearch keys => clickRow st treeSearch keys
  end.

(** * Definitions of the further properties *)

(** ** The mask that the run lengths describe *)

(** The value of the pixel [n] places into the runs [l], whose head has the
    index [i]: the parity of the run it falls into; past the last run, the
    parity [last] of the run before. *)
Fixpoint valueAt (last : bool) (i : nat) (l : list Z) (n : Z) : bool :=
  match l with
  | [] => last
  | c :: l' =>
      if n <? c then Nat.odd i else valueAt (Nat.odd i) (S i) l' (n - c)
  end.

Definition pixelValue (cnts : list Z) (n : nat) : bool :=
  valueAt false 0 cnts (Z.of_nat n).




(** The state at scan position [n] knows the values of the pixels from [n]
    on. *)
Definition tracks (cnts : list Z) (n : nat) (st : RunState) : Prop :=
  0 <= runRemaining st /\
  forall m, 0 <= m ->
    valueAt false 0 cnts (Z.of_nat n + m) =
    if m <? runRemaining st then currentValue st =? 1
    else valueAt (currentValue st =? 1) (S (countsIndex st))
           (skipn (S (countsIndex st)) cnts) (m - runRemaining st).

(** The four bytes of a pixel. *)
Definition pixelBytes (color : Z * Z * Z) (painted : bool) : list Z :=
  let '(r, g, b) := color in
  if painted then [clamp8 r; clamp8 g; clamp8 b; 210] else [0; 0; 0; 0].

(** The buffer [data] of a [w] by [h] image shows the mask [fg] in
    [color]. *)
Definition shows (color : Z * Z * Z) (w h : nat) (fg : nat -> nat -> bool)
    (data : list Z) : Prop :=
  length data = (4 * w * h)%nat /\
  forall x y c, (x < w)%nat -> (y < h)%nat -> (c < 4)%nat ->
    data !! ((y * w + x) * 4 + c)%nat = pixelBytes color (fg x y) !! c.

(** The mask after [n] scan positions. *)
Definition paintedBelow (cnts : list Z) (h n : nat) (x y : nat) : bool :=
  (x * h + y <? n)%nat && fgAt cnts (x * h + y).

(** ** The nodes of a tree built from any list of images *)

(** The body of [images.forEach(img => ...)]. *)
Definition insertImage (root : TreeNode) (img : COCOImage) : TreeNode :=
  insertParts img (JSString.split (file_name img)) "" root.

(** What holds of the node [n] under the keys [q], whatever the images are:
    its name and path string follow from the keys; it carries an image just
    when it is a file node, and then an image of the list whose file name
    splits into the keys; and some image of the list lies at or below it. *)
Definition nodeOf (imgs : list COCOImage) (q : list string) (n : TreeNode) : Prop :=
  name n = List.last q EmptyString /\
  path n = pathFrom "" q /\
  match data n with
  | Some img => type n = file /\ In img imgs /\ segments img = q
  | None => type n = folder
  end /\
  exists img r, In img imgs /\ segments img = q ++ r.

(** ** The search and the states of the application *)

(** [sub] occurs in [s]. *)
Definition occursIn (sub s : string) : Prop :=
  exists a b, s = (a ++ sub ++ b)%string.

(** The states that the events lead to from the first render. *)
Inductive reachable : AppState -> Prop :=
| reach_init : reachable initialState
| reach_step st ev : reachable st -> reachable (step st ev).

(** The ids and images that the state holds belong to the loaded document. *)
Definition consistent (st : AppState) : Prop :=
  (currentImageFile st = None <-> matchedImageId st = None) /\
  (forall i, matchedImageId st = Some i ->
     exists doc img, cocoData st = Some doc /\ In img (images doc) /\ id img = i) /\
  (forall img, selectedTreeImage st = Some img ->
     exists doc, cocoData st = Some doc /\ In img (images doc)) /\
  (activeTab st = structure -> cocoData st <> None).

(** ** Counting annotations *)


(** The first annotation of the category [c]. *)
Definition firstOfCategory (c : JsId) (anns : list COCOAnnotation)
    : option COCOAnnotation :=
  List.find (fun ann => strictEq (category_id ann) c) anns.

(** ** The units of a compressed string *)

(** The unit [a] has its continuation bit set: the value goes on with the
    next unit. *)
Definition continues (a : ascii) : bool :=
  negb (band (sub (Some (Z.of_N (N_of_ascii a))) 48) 0x20 =? 0).

(** The number of units that end a value. *)
Definition terminators (s : string) : nat :=
  length (List.filter (fun a => negb (continues a)) (list_ascii_of_string s)).

(** The raw values read from the start of [s] when the inner loop is
    entered with [k] and [x]. *)
Definition valuesFrom (s : string) (k x : Z) : list Z :=
  fst (readValue s 0 k x) :: rawValues s (snd (readValue s 0 k x)).

(** The character of a unit with the payload [u] (5 bits), with or without
    the continuation bit. *)
Definition unitChar (more : bool) (u : Z) : ascii :=
  ascii_of_nat (Z.to_nat (48 + u + if more then 32 else 0)).

(** The units of one value: the payloads [us], least significant first,
    all but the last with the continuation bit. *)
Fixpoint unitChars (us : list Z) : string :=
  match us with
  | [] => EmptyString
  | u :: r =>
      String (unitChar (match r with [] => false | _ => true end) u) (unitChars r)
  end.

Fixpoint payloadSum (us : list Z) : Z :=
  match us with
  | [] => 0
  | u :: r => u + 32 * payloadSum r
  end.

(** The payloads as a number in two's complement on [5 * length us] bits:
    bit 4 of the last payload is the sign. *)
Definition signedValue (us : list Z) : Z :=
  payloadSum us -
  if 16 <=? List.last us 0 then 2 ^ (5 * Z.of_nat (length us)) else 0.

(** * Part III: the properties *)

(** ** The decoder on examples *)

Example decode_ex1 : decodeCocoRleString "111" = Normal [1; 1; 1].
Proof. reflexivity. Qed.

Example decode_ex2 : decodeCocoRleString "0123" = Normal [0; 1; 2; 4].
Proof. reflexivity. Qed.

(** ** Properties of the decoder *)

Section Decoder.

Local Open Scope nat_scope.

Lemma decodeLoop_spec (s : string) :
  forall (d p m : nat) (counts : list Z),
    d = String.length s - p -> m = length counts ->
    let out := decodeLoop s p m counts in
    length out = m + length (rawValues s p) /\
    (forall i, i < m -> out !! i = counts !! i) /\
    (forall i r, rawValues s p !! i = Some r ->
       out !! (m + i) =
       Some (if 2 <? m + i then (r + nth (m + i - 2) out 0)%Z else r)).
Proof.
  induction d as [d IH] using lt_wf_ind. intros p m counts Hd Hm.
  rewrite decodeLoop_eq, rawValues_eq.
  destruct (lt_dec p (String.length s)) as [Hp|Hp]; cbv zeta.
  - pose proof (readValue_advances s p 0 0) as Hadv.
    set (x := fst (readValue s p 0 0)) in *.
    set (p' := snd (readValue s p 0 0)) in *.
    set (x' := if 2 <? m then (x + nth (m - 2) counts 0)%Z else x).
    destruct (IH (String.length s - p') ltac:(lia) p' (S m) (counts ++ [x'])
                eq_refl) as (Hlen & Hpre & Htl).
    { rewrite length_app; simpl; lia. }
    set (out := decodeLoop s p' (S m) (counts ++ [x'])) in *.
    split; [simpl; lia|]. split.
    + intros i Hi. rewrite Hpre by lia. apply lookup_app_l. lia.
    + intros [|i] r Hr; simpl in Hr.
      * injection Hr as <-. rewrite Nat.add_0_r.
        rewrite Hpre by lia. rewrite lookup_app_r by lia.
        replace (m - length counts) with 0 by lia. simpl. f_equal.
        unfold x'. destruct (2 <? m) eqn:E; [|reflexivity].
        apply Nat.ltb_lt in E. f_equal.
        rewrite !nth_lookup. rewrite Hpre by lia.
        rewrite lookup_app_l by lia. reflexivity.
      * replace (m + S i) with (S m + i) by lia. apply Htl. exact Hr.
  - split; [simpl; lia|]. split; [reflexivity|].
    intros i r Hr. rewrite lookup_nil in Hr. discriminate.
Qed.

End Decoder.

(** C1, as stated: the delta rule from index 2 on. It fails on ["111"]: the
    three raw values are 1, 1, 1 and the third stored value is 1, not
    1 + 1. *)
Lemma delta_rule_from_2_fails :
  ~ (forall s out, decodeCocoRleString s = Normal out -> deltaRuleFrom 2 s out).
Proof.
  intros H.
  specialize (H "111"%string [1; 1; 1] eq_refl 2%nat 1 eq_refl).
  discriminate H.
Qed.

(** C1, amended: the decoder returns an array with one value per raw value
    read; the values at indices 0, 1 and 2 are the raw values, and from
    index 3 on the stored value is the raw value plus the stored value two
    places back. *)
Theorem delta_rule_from_3 (s : string) :
  exists out,
    decodeCocoRleString s = Normal out /\
    length out = length (rawValues s 0) /\
    deltaRuleFrom 3 s out.
Proof.
  exists (decodeLoop s 0 0 []). split; [reflexivity|].
  destruct (decodeLoop_spec s _ 0%nat 0%nat [] eq_refl eq_refl) as (Hl & _ & Ht).
  split; [exact Hl|].
  intros i r Hr. specialize (Ht i r Hr). simpl in Ht. rewrite Ht.
  reflexivity.
Qed.

(** ** The rasterizer and the centroid on examples *)

Example raster_ex1 :
  decodeRleToCanvas (mkRLE (CountsArray [1; 2; 1]) (2, 2)%nat) (10, 20, 300)
  = Normal (Some (mkCanvas 2 2 [0;0;0;0; 10;20;255;210; 10;20;255;210; 0;0;0;0])).
Proof. reflexivity. Qed.

Example centroid_ex1 :
  calculateCentroid (mkRLE (CountsArray [1; 2; 1]) (2, 2)%nat)
  = Normal (Some (mkPoint (quotient 1 2) (quotient 1 2))).
Proof. reflexivity. Qed.

Example raster_undershoot :
  decodeRleToCanvas (mkRLE (CountsArray [0; 2]) (2, 2)%nat) (1, 2, 3)
  = Normal (Some (mkCanvas 2 2 [1;2;3;210; 1;2;3;210; 1;2;3;210; 1;2;3;210])).
Proof. reflexivity. Qed.

(** ** Sums and loops *)

Section Sums.

Local Open Scope nat_scope.

Lemma sumTo_ext n (f g : nat -> Z) :
  (forall i, i < n -> f i = g i) -> sumTo n f = sumTo n g.
Proof.
  induction n as [|n IH]; intros H; simpl; [reflexivity|].
  rewrite IH by (intros; apply H; lia). rewrite H by lia. reflexivity.
Qed.

Lemma sumTo_plus n (f g : nat -> Z) :
  sumTo n (fun i => (f i + g i)%Z) = (sumTo n f + sumTo n g)%Z.
Proof. induction n as [|n IH]; simpl; [reflexivity|]. rewrite IH. lia. Qed.

Lemma sumTo_zero n : sumTo n (fun _ => 0%Z) = 0%Z.
Proof. induction n as [|n IH]; simpl; [reflexivity|]. rewrite IH. lia. Qed.

Lemma sumTo_add n m (f : nat -> Z) :
  sumTo (n + m) f = (sumTo n f + sumTo m (fun i => f (n + i)%nat))%Z.
Proof.
  induction m as [|m IH]; simpl.
  - rewrite Nat.add_0_r. lia.
  - rewrite Nat.add_succ_r. simpl. rewrite IH. lia.
Qed.

(** Rows and columns can be exchanged in a double sum. *)
Lemma sumTo_exchange n m (f : nat -> nat -> Z) :
  sumTo n (fun i => sumTo m (fun j => f i j)) =
  sumTo m (fun j => sumTo n (fun i => f i j)).
Proof.
  induction n as [|n IH]; simpl.
  - symmetry. apply sumTo_zero.
  - rewrite IH. symmetry. apply sumTo_plus.
Qed.

(** A double sum over columns and rows is a single sum over scan
    positions. *)
Lemma sumTo_flatten w h (f : nat -> Z) :
  sumTo w (fun x => sumTo h (fun y => f (x * h + y))) = sumTo (w * h) f.
Proof.
  induction w as [|w IH]; simpl; [reflexivity|].
  rewrite IH. replace (h + w * h) with (w * h + h) by lia.
  rewrite sumTo_add. reflexivity.
Qed.

Lemma foldl_seq_S {A} (f : A -> nat -> A) (a : A) (n : nat) :
  foldl f a (seq 0 (S n)) = f (foldl f a (seq 0 n)) n.
Proof. rewrite seq_S, foldl_app. reflexivity. Qed.

Lemma ltb_succ_ne a b : a <> b -> (a <? S b) = (a <? b).
Proof.
  intros H. destruct (Nat.ltb_spec a b); destruct (Nat.ltb_spec a (S b));
    try reflexivity; lia.
Qed.

Lemma pixel_index_inj w x y x' y' :
  x < w -> x' < w -> y * w + x = y' * w + x' -> x = x' /\ y = y'.
Proof.
  intros Hx Hx' E.
  assert (y = y') as ->.
  { destruct (Nat.lt_trichotomy y y') as [H|[H|H]]; [|exact H|]; nia. }
  split; [lia|reflexivity].
Qed.

End Sums.

(** ** Both pairs of loops follow the same scan *)

Section Scan.

Local Open Scope nat_scope.

Variable cnts : list Z.
Variables w h : nat.

Lemma centroidPixel_step x y n t :
  centroidPixel cnts x y (stateAt cnts n, t) =
  (stateAt cnts (S n),
   {| totalX := addFg cnts n (Z.of_nat x) (totalX t);
      totalY := addFg cnts n (Z.of_nat y) (totalY t);
      totalPixels := addFg cnts n 1%Z (totalPixels t) |}).
Proof.
  unfold centroidPixel, addFg, fgAt. simpl.
  destruct (currentValue (skipRuns cnts (stateAt cnts n)) =? 1)%Z.
  - reflexivity.
  - destruct t; simpl. f_equal. f_equal; lia.
Qed.

Lemma centroid_column x k n0 t :
  foldl (fun acc y => centroidPixel cnts x y acc) (stateAt cnts n0, t) (seq 0 k) =
  (stateAt cnts (n0 + k),
   {| totalX := (totalX t +
        sumTo k (fun y => if fgAt cnts (n0 + y)%nat then Z.of_nat x else 0))%Z;
      totalY := (totalY t +
        sumTo k (fun y => if fgAt cnts (n0 + y)%nat then Z.of_nat y else 0))%Z;
      totalPixels := (totalPixels t +
        sumTo k (fun y => if fgAt cnts (n0 + y)%nat then 1 else 0))%Z |}).
Proof.
  induction k as [|k IH].
  - simpl. rewrite Nat.add_0_r. destruct t; simpl. f_equal. f_equal; lia.
  - rewrite foldl_seq_S, IH, centroidPixel_step.
    rewrite Nat.add_succ_r. unfold addFg. simpl. f_equal. f_equal; lia.
Qed.

Lemma centroid_columns j t :
  foldl (fun acc x =>
           foldl (fun acc y => centroidPixel cnts x y acc) acc (seq 0 h))
        (stateAt cnts 0, t) (seq 0 j) =
  (stateAt cnts (j * h),
   {| totalX := (totalX t + maskSum cnts j h (fun x _ => Z.of_nat x))%Z;
      totalY := (totalY t + maskSum cnts j h (fun _ y => Z.of_nat y))%Z;
      totalPixels := (totalPixels t + maskSum cnts j h (fun _ _ => 1%Z))%Z |}).
Proof.
  induction j as [|j IH].
  - simpl. destruct t; unfold maskSum; simpl. f_equal. f_equal; lia.
  - rewrite foldl_seq_S, IH, centroid_column. unfold maskSum. simpl.
    replace (h + j * h) with (j * h + h) by lia. f_equal. f_equal; lia.
Qed.

(** The totals of [calculateCentroid] are sums over the painted scan
    positions. *)
Lemma centroidLoops_spec :
  centroidLoops cnts w h
    (initialRun cnts, {| totalX := 0%Z; totalY := 0%Z; totalPixels := 0%Z |}) =
  (stateAt cnts (w * h),
   {| totalX := maskSum cnts w h (fun x _ => Z.of_nat x);
      totalY := maskSum cnts w h (fun _ y => Z.of_nat y);
      totalPixels := maskSum cnts w h (fun _ _ => 1%Z) |}).
Proof.
  unfold centroidLoops. change (initialRun cnts) with (stateAt cnts 0).
  rewrite centroid_columns. reflexivity.
Qed.

Variable color : Z * Z * Z.

Lemma paintedUpTo_init : paintedUpTo cnts w h 0 (transparentBlack w h).
Proof.
  unfold paintedUpTo, transparentBlack. split.
  - apply length_replicate.
  - intros x y Hx Hy. simpl. apply lookup_replicate_2. nia.
Qed.

Lemma rasterPixel_step x y data :
  x < w -> y < h -> paintedUpTo cnts w h (x * h + y) data ->
  exists data',
    rasterPixel cnts color w x y (stateAt cnts (x * h + y), data) =
      (stateAt cnts (S (x * h + y)), data') /\
    paintedUpTo cnts w h (S (x * h + y)) data'.
Proof.
  intros Hx Hy [Hlen Hpx].
  unfold rasterPixel. destruct color as [[r g] b].
  assert (fgAt cnts (x * h + y) = fgAt cnts (x * h + y)) as Hfg by reflexivity.
  unfold fgAt at 1 in Hfg.
  destruct (currentValue (skipRuns cnts (stateAt cnts (x * h + y))) =? 1)%Z.
  - eexists. split; [reflexivity|]. split.
    + rewrite !length_insert. exact Hlen.
    + intros x' y' Hx' Hy'.
      destruct (Nat.eq_dec (y' * w + x') (y * w + x)) as [E|E].
      * apply pixel_index_inj in E as [-> ->]; try assumption.
        rewrite list_lookup_insert_eq by (rewrite !length_insert; nia).
        rewrite <- Hfg.
        replace (x * h + y <? S (x * h + y)) with true
          by (symmetry; apply Nat.ltb_lt; lia).
        reflexivity.
      * rewrite !list_lookup_insert_ne by lia.
        rewrite Hpx by assumption.
        destruct (Nat.eq_dec (x' * h + y') (x * h + y)) as [E'|E'].
        { exfalso. apply E.
          destruct (pixel_index_inj h y' x' y x Hy' Hy E') as [-> ->].
          reflexivity. }
        rewrite (ltb_succ_ne _ _ E'). reflexivity.
  - eexists. split; [reflexivity|]. split; [exact Hlen|].
    intros x' y' Hx' Hy'. rewrite Hpx by assumption.
    destruct (Nat.eq_dec (x' * h + y') (x * h + y)) as [E'|E'].
    + rewrite E', <- Hfg, !andb_false_r. reflexivity.
    + rewrite (ltb_succ_ne _ _ E'). reflexivity.
Qed.

Lemma raster_column x k data :
  x < w -> k <= h -> paintedUpTo cnts w h (x * h) data ->
  exists data',
    foldl (fun acc y => rasterPixel cnts color w x y acc)
          (stateAt cnts (x * h), data) (seq 0 k) =
      (stateAt cnts (x * h + k), data') /\
    paintedUpTo cnts w h (x * h + k) data'.
Proof.
  intros Hx. induction k as [|k IH]; intros Hk Hp.
  - exists data. rewrite Nat.add_0_r. split; [reflexivity|exact Hp].
  - destruct (IH ltac:(lia) Hp) as (d1 & E1 & P1).
    destruct (rasterPixel_step x k d1 Hx ltac:(lia) P1) as (d2 & E2 & P2).
    exists d2. rewrite foldl_seq_S, E1, E2, Nat.add_succ_r.
    split; [reflexivity|exact P2].
Qed.

Lemma raster_columns j :
  j <= w ->
  exists data',
    foldl (fun acc x =>
             foldl (fun acc y => rasterPixel cnts color w x y acc) acc (seq 0 h))
          (stateAt cnts 0, transparentBlack w h) (seq 0 j) =
      (stateAt cnts (j * h), data') /\
    paintedUpTo cnts w h (j * h) data'.
Proof.
  induction j as [|j IH]; intros Hj.
  - eexists. split; [reflexivity|]. apply paintedUpTo_init.
  - destruct (IH ltac:(lia)) as (d1 & E1 & P1).
    destruct (raster_column j h d1 ltac:(lia) (Nat.le_refl h) P1)
      as (d2 & E2 & P2).
    exists d2. rewrite foldl_seq_S, E1, E2.
    replace (S j * h) with (j * h + h) by lia.
    split; [reflexivity|exact P2].
Qed.

(** The loops of [decodeRleToCanvas] paint exactly the painted scan
    positions. *)
Lemma rasterLoops_spec :
  exists data,
    rasterLoops cnts color w h (initialRun cnts, transparentBlack w h) =
      (stateAt cnts (w * h), data) /\
    paintedUpTo cnts w h (w * h) data.
Proof.
  unfold rasterLoops. change (initialRun cnts) with (stateAt cnts 0).
  apply raster_columns. lia.
Qed.

Lemma bitmapSum_painted data (g : nat -> nat -> Z) :
  paintedUpTo cnts w h (w * h) data ->
  bitmapSum {| width := w; height := h; pixels := data |} g =
  maskSum cnts w h g.
Proof.
  intros [Hlen Hpx]. unfold bitmapSum, maskSum. simpl.
  rewrite sumTo_exchange.
  apply sumTo_ext. intros x Hx. apply sumTo_ext. intros y Hy.
  unfold isForeground. simpl. rewrite Hpx by assumption.
  replace (x * h + y <? w * h) with true
    by (symmetry; apply Nat.ltb_lt; nia).
  simpl. destruct (fgAt cnts (x * h + y)); reflexivity.
Qed.

End Scan.

(** ** Run lengths that are non-negative and fill the image *)

Section Runs.

Variable cnts : list Z.
Hypothesis nonneg : Forall (fun c => 0 <= c) cnts.

Lemma sumList_nonneg l : Forall (fun c => 0 <= c) l -> 0 <= sumList l.
Proof. induction 1; simpl; lia. Qed.

Lemma sumOddFrom_bounds i l :
  Forall (fun c => 0 <= c) l -> 0 <= sumOddFrom i l <= sumList l.
Proof.
  intros H. revert i. induction H as [|c l Hc Hl IH]; intros i; simpl; [lia|].
  specialize (IH (S i)). destruct (Nat.odd i); lia.
Qed.

Lemma skipn_nonneg n : Forall (fun c => 0 <= c) (skipn n cnts).
Proof. apply Forall_drop, nonneg. Qed.

Lemma skipn_cons_nth (l : list Z) (n : nat) :
  (n < length l)%nat -> skipn n l = nth n l 0 :: skipn (S n) l.
Proof.
  revert n. induction l as [|c l IH]; intros n Hn; simpl in Hn; [lia|].
  destruct n as [|n]; [reflexivity|].
  simpl. apply IH. lia.
Qed.

Lemma accounted_skipRuns n :
  Z.of_nat n < sumList cnts ->
  forall (d : nat) st,
    d = (length cnts - countsIndex st)%nat ->
    accounted cnts n st ->
    accounted cnts n (skipRuns cnts st) /\ 0 < runRemaining (skipRuns cnts st).
Proof.
  intros Hn. induction d as [d IH] using lt_wf_ind.
  intros st Hd (Hcv & Hrr & Hsum & Hodd).
  rewrite skipRuns_eq.
  destruct (runRemaining st =? 0) eqn:E.
  - apply Z.eqb_eq in E.
    destruct (lt_dec (S (countsIndex st)) (length cnts)) as [Hlt|Hge].
    + apply (IH (length cnts - S (countsIndex st))%nat); [lia|reflexivity|].
      rewrite (skipn_cons_nth _ _ Hlt) in Hsum, Hodd. simpl in Hsum, Hodd.
      pose proof (List.Forall_forall (fun c => 0 <= c) cnts) as [F _].
      specialize (F nonneg (nth (S (countsIndex st)) cnts 0)
                    (nth_In _ _ Hlt)).
      unfold accounted; simpl. repeat split; try lia.
      rewrite Nat.odd_succ in *. rewrite <- Nat.negb_odd in *.
      destruct (Nat.odd (countsIndex st)); simpl in *; lia.
    + rewrite skipn_all2 in Hsum by lia. simpl in Hsum. lia.
  - apply Z.eqb_neq in E. split; [repeat split; assumption|lia].
Qed.

Lemma mod2_odd (i : nat) : (Z.of_nat i mod 2 =? 1) = Nat.odd i.
Proof.
  destruct (Nat.Even_or_Odd i) as [[k ->]|[k ->]].
  - rewrite Nat.odd_even.
    assert (Z.of_nat (2 * k) mod 2 = 0) as ->
      by (rewrite Nat2Z.inj_mul, Z.mul_comm; apply Z_mod_mult).
    reflexivity.
  - rewrite Nat.odd_odd.
    assert (Z.of_nat (2 * k + 1) mod 2 = 1) as ->
      by (rewrite Nat2Z.inj_add, Nat2Z.inj_mul, Z.add_comm, Z.mul_comm;
          apply Z_mod_plus_full).
    reflexivity.
Qed.

Lemma fgAt_odd n st :
  st = skipRuns cnts (stateAt cnts n) ->
  currentValue st = Z.of_nat (countsIndex st) mod 2 ->
  fgAt cnts n = Nat.odd (countsIndex st).
Proof.
  intros -> H. unfold fgAt. rewrite H. apply mod2_odd.
Qed.

Lemma accounted_stateAt n :
  Z.of_nat n <= sumList cnts -> accounted cnts n (stateAt cnts n).
Proof.
  induction n as [|n IH]; intros Hn.
  - unfold accounted, paintedBefore, initialRun, sumOdd. simpl.
    destruct nonneg as [|c l Hc Hl]; simpl; repeat split; try lia;
      try reflexivity.
  - specialize (IH ltac:(lia)).
    destruct (accounted_skipRuns n ltac:(lia) _ (stateAt cnts n) eq_refl IH)
      as [(Hcv & Hrr & Hsum & Hodd) Hpos].
    pose proof (fgAt_odd n _ eq_refl Hcv) as Hfg.
    simpl. set (st := skipRuns cnts (stateAt cnts n)) in *.
    unfold consume. replace (0 <? runRemaining st) with true
      by (symmetry; apply Z.ltb_lt; lia).
    unfold accounted, paintedBefore in *. simpl. rewrite Hfg.
    repeat split; try lia.
    destruct (Nat.odd (countsIndex st)); lia.
Qed.

(** When the run lengths add up to the number of pixels, the painted pixels
    are as many as the odd-indexed run lengths say. *)
Lemma paintedBefore_total (n : nat) :
  sumList cnts = Z.of_nat n -> paintedBefore cnts n = sumOdd cnts.
Proof.
  intros Hn.
  destruct (accounted_stateAt n ltac:(lia)) as (_ & Hrr & Hsum & Hodd).
  set (st := stateAt cnts n) in *.
  pose proof (skipn_nonneg (S (countsIndex st))) as Hrest.
  pose proof (sumList_nonneg _ Hrest).
  pose proof (sumOddFrom_bounds (S (countsIndex st)) _ Hrest).
  destruct (Nat.odd (countsIndex st)); lia.
Qed.

Lemma maskSum_count_total (w h : nat) :
  sumList cnts = Z.of_nat (h * w) ->
  maskSum cnts w h (fun _ _ => 1) = sumOdd cnts.
Proof.
  intros Hn. unfold maskSum.
  rewrite (sumTo_flatten w h (fun n => if fgAt cnts n then 1 else 0)).
  apply paintedBefore_total. rewrite Hn. f_equal. lia.
Qed.

End Runs.

(** ** What the two entry points return *)

Lemma decodeRleToCanvas_eq rle color h w :
  size rle = (h, w) ->
  decodeRleToCanvas rle color =
  match normalized (counts rle) with
  | None => Normal None
  | Some cnts =>
      if ((w =? 0) || (h =? 0))%nat then Throw "IndexSizeError"
      else if (length cnts =? 0)%nat then Normal None
      else Normal (Some {| width := w; height := h;
                           pixels := snd (rasterLoops cnts color w h
                                            (initialRun cnts,
                                             transparentBlack w h)) |})
  end.
Proof.
  intros Hsz. unfold decodeRleToCanvas, decodeCocoRleString, createImageData.
  rewrite Hsz.
  assert (forall cnts,
    match (if ((w =? 0) || (h =? 0))%nat then Throw "IndexSizeError"
           else Normal (transparentBlack w h)) with
    | Throw e => Throw e
    | Normal data =>
        if (length cnts =? 0)%nat then Normal None
        else let '(_, data) :=
               rasterLoops cnts color w h (initialRun cnts, data) in
             Normal (Some {| width := w; height := h; pixels := data |})
    end =
    if ((w =? 0) || (h =? 0))%nat then Throw "IndexSizeError"
    else if (length cnts =? 0)%nat then Normal None
    else Normal (Some {| width := w; height := h;
                         pixels := snd (rasterLoops cnts color w h
                                          (initialRun cnts,
                                           transparentBlack w h)) |})) as Hbody.
  { intros cnts. destruct ((w =? 0) || (h =? 0))%nat; [reflexivity|].
    destruct (length cnts =? 0)%nat; [reflexivity|].
    destruct (rasterLoops cnts color w h (initialRun cnts, transparentBlack w h));
      reflexivity. }
  unfold normalized.
  destruct (counts rle) as [l|s|]; [apply Hbody|apply Hbody|reflexivity].
Qed.

Lemma positive_size (w h : nat) :
  (0 < h)%nat -> (0 < w)%nat -> ((w =? 0) || (h =? 0))%nat = false.
Proof.
  intros Hh Hw. apply orb_false_iff. split; apply Nat.eqb_neq; lia.
Qed.

(** No run lengths at all: [null] comes back before a canvas is made. *)
Lemma decodeRleToCanvas_other rle color :
  normalized (counts rle) = None -> decodeRleToCanvas rle color = Normal None.
Proof.
  intros Hn.
  rewrite (decodeRleToCanvas_eq rle color (fst (size rle)) (snd (size rle)))
    by (destruct (size rle); reflexivity).
  rewrite Hn. reflexivity.
Qed.

(** An image without pixels: the canvas API refuses it. *)
Lemma decodeRleToCanvas_zero rle color cnts h w :
  size rle = (h, w) -> normalized (counts rle) = Some cnts ->
  h = 0%nat \/ w = 0%nat ->
  decodeRleToCanvas rle color = Throw "IndexSizeError".
Proof.
  intros Hsz Hn Hz. rewrite (decodeRleToCanvas_eq rle color h w Hsz), Hn.
  destruct Hz as [-> | ->]; [rewrite orb_true_r|]; reflexivity.
Qed.

Lemma decodeRleToCanvas_empty rle color h w :
  size rle = (h, w) -> normalized (counts rle) = Some [] ->
  (0 < h)%nat -> (0 < w)%nat ->
  decodeRleToCanvas rle color = Normal None.
Proof.
  intros Hsz Hn Hh Hw. rewrite (decodeRleToCanvas_eq rle color h w Hsz), Hn.
  rewrite positive_size by assumption. reflexivity.
Qed.

Lemma decodeRleToCanvas_some rle color cnts h w :
  size rle = (h, w) -> normalized (counts rle) = Some cnts -> cnts <> [] ->
  (0 < h)%nat -> (0 < w)%nat ->
  exists data,
    decodeRleToCanvas rle color =
      Normal (Some {| width := w; height := h; pixels := data |}) /\
    paintedUpTo cnts w h (w * h) data.
Proof.
  intros Hsz Hn Hne Hh Hw.
  destruct (rasterLoops_spec cnts w h color) as (data & E & P).
  exists data. split; [|exact P].
  rewrite (decodeRleToCanvas_eq rle color h w Hsz), Hn.
  rewrite positive_size by assumption.
  replace (length cnts =? 0)%nat with false
    by (destruct cnts; [congruence|reflexivity]).
  rewrite E. reflexivity.
Qed.

Lemma calculateCentroid_eq rle h w :
  size rle = (h, w) ->
  calculateCentroid rle =
  Normal match normalized (counts rle) with
         | Some cnts =>
             if (length cnts =? 0)%nat then None else scanCentroid cnts w h
         | None => None
         end.
Proof.
  intros Hsz. unfold calculateCentroid, decodeCocoRleString. rewrite Hsz.
  assert (forall cnts,
    (if (length cnts =? 0)%nat then Normal None
     else let '(_, t) := centroidLoops cnts w h
            (initialRun cnts, {| totalX := 0; totalY := 0; totalPixels := 0 |}) in
          if totalPixels t =? 0 then Normal None
          else Normal (Some {| px := quotient (totalX t) (totalPixels t);
                               py := quotient (totalY t) (totalPixels t) |})) =
    Normal (if (length cnts =? 0)%nat then None else scanCentroid cnts w h))
    as Hloops.
  { intros cnts. destruct (length cnts =? 0)%nat; [reflexivity|].
    rewrite centroidLoops_spec. unfold scanCentroid. simpl.
    destruct (maskSum cnts w h (fun _ _ => 1) =? 0); reflexivity. }
  destruct (counts rle) as [l|s|]; simpl; try apply Hloops. reflexivity.
Qed.

Lemma bitmapCentroid_painted cnts w h data :
  paintedUpTo cnts w h (w * h) data ->
  bitmapCentroid {| width := w; height := h; pixels := data |} =
  scanCentroid cnts w h.
Proof.
  intros P. unfold bitmapCentroid, scanCentroid, foregroundCount.
  rewrite !(bitmapSum_painted cnts w h data _ P). reflexivity.
Qed.

(** A canvas comes with run lengths that are not empty and with an image
    that has pixels. *)
Lemma decodeRleToCanvas_inv rle color cv :
  decodeRleToCanvas rle color = Normal (Some cv) ->
  exists cnts data,
    normalized (counts rle) = Some cnts /\ cnts <> [] /\
    cv = {| width := snd (size rle); height := fst (size rle); pixels := data |} /\
    paintedUpTo cnts (snd (size rle)) (fst (size rle))
                (snd (size rle) * fst (size rle)) data /\
    (0 < fst (size rle))%nat /\ (0 < snd (size rle))%nat.
Proof.
  intros H. destruct (size rle) as [h w] eqn:Hsz. cbn [fst snd].
  pose proof H as H0.
  rewrite (decodeRleToCanvas_eq rle color h w Hsz) in H0.
  destruct (normalized (counts rle)) as [cnts|] eqn:Hn; [|discriminate].
  destruct ((w =? 0) || (h =? 0))%nat eqn:Hz; [discriminate|].
  apply orb_false_iff in Hz as [Hw Hh].
  apply Nat.eqb_neq in Hw, Hh.
  destruct cnts as [|c l]; [discriminate|]. clear H0.
  destruct (decodeRleToCanvas_some rle color (c :: l) h w Hsz Hn
              ltac:(discriminate) ltac:(lia) ltac:(lia)) as (data & E & P).
  rewrite E in H.
  exists (c :: l), data. injection H as <-.
  split; [reflexivity|]. split; [discriminate|].
  split; [reflexivity|]. split; [exact P|]. split; lia.
Qed.

(** Whenever a canvas is returned, the streaming centroid is the centroid
    read back from its bitmap. *)
Lemma centroid_of_canvas rle color cv :
  decodeRleToCanvas rle color = Normal (Some cv) ->
  calculateCentroid rle = Normal (bitmapCentroid cv).
Proof.
  intros Hcv.
  destruct (decodeRleToCanvas_inv rle color cv Hcv)
    as (cnts & data & Hn & Hne & -> & P & _).
  rewrite (calculateCentroid_eq rle (fst (size rle)) (snd (size rle)))
    by (destruct (size rle); reflexivity).
  rewrite Hn.
  replace (length cnts =? 0)%nat with false
    by (destruct cnts; [congruence|reflexivity]).
  rewrite (bitmapCentroid_painted _ _ _ _ P). reflexivity.
Qed.

Lemma sumTo_zero_inv n (f : nat -> Z) :
  (forall i, (i < n)%nat -> 0 <= f i) -> sumTo n f = 0 ->
  forall i, (i < n)%nat -> f i = 0.
Proof.
  induction n as [|n IH]; intros Hf Hs i Hi; [lia|].
  simpl in Hs.
  assert (0 <= sumTo n f).
  { clear -Hf. induction n as [|n IH]; simpl; [lia|].
    specialize (IH ltac:(intros; apply Hf; lia)).
    specialize (Hf n ltac:(lia)). lia. }
  pose proof (Hf n ltac:(lia)).
  destruct (Nat.eq_dec i n) as [->|Hne]; [lia|].
  apply IH; [intros; apply Hf; lia|lia|lia].
Qed.

(** C3, as stated, fails for an image without pixels: the run length [0]
    adds up to [0 * 1], and the rasterizer leaves with the exception of
    [createImageData] instead of a buffer to count in. *)
Lemma raster_zero_size_is_refused :
  Forall (fun c => 0 <= c) [0] /\
  sumList [0] = Z.of_nat (0 * 1) /\
  decodeRleToCanvas (mkRLE (CountsArray [0]) (0, 1)%nat) (255, 0, 0)
    = Throw "IndexSizeError".
Proof. split; [repeat constructor; lia|]. split; reflexivity. Qed.

(** C3, amended: for an image with pixels, run lengths that are
    non-negative and add up to [h * w] are rasterized to a buffer whose
    foreground pixels (alpha 210) are as many as the sum of the run lengths
    at odd indices. *)
Theorem raster_foreground_count (S : list Z) (h w : nat) (color : Z * Z * Z) :
  Forall (fun c => 0 <= c) S ->
  sumList S = Z.of_nat (h * w) ->
  (0 < h)%nat -> (0 < w)%nat ->
  exists cv,
    decodeRleToCanvas (mkRLE (CountsArray S) (h, w)) color = Normal (Some cv) /\
    foregroundCount cv = sumOdd S.
Proof.
  intros Hnn Hsum Hh Hw.
  destruct S as [|c l]; [simpl in Hsum; nia|].
  destruct (decodeRleToCanvas_some (mkRLE (CountsArray (c :: l)) (h, w)) color
              (c :: l) h w eq_refl eq_refl ltac:(discriminate) Hh Hw)
    as (data & E & P).
  eexists. split; [exact E|].
  unfold foregroundCount. rewrite (bitmapSum_painted _ _ _ _ _ P).
  apply maskSum_count_total; assumption.
Qed.

Lemma raster_foreground_count_witness :
  exists cv,
    decodeRleToCanvas (mkRLE (CountsArray [1; 2; 1]) (2, 2)%nat) (255, 0, 0)
      = Normal (Some cv) /\
    foregroundCount cv = sumOdd [1; 2; 1].
Proof.
  apply (raster_foreground_count [1; 2; 1] 2 2 (255, 0, 0)).
  - repeat constructor; lia.
  - reflexivity.
  - lia.
  - lia.
Defined.

(** C4: whenever the rasterized bitmap has a foreground pixel, the centroid
    of the streaming accumulation is the mean of the coordinates of the
    foreground pixels read from the bitmap. *)
Theorem centroid_streaming_is_bitmap_mean
    (rle : COCORLE) (color : Z * Z * Z) (cv : Canvas) :
  decodeRleToCanvas rle color = Normal (Some cv) ->
  0 < foregroundCount cv ->
  exists pt,
    calculateCentroid rle = Normal (Some pt) /\
    bitmapCentroid cv = Some pt /\
    pt = {| px := quotient (bitmapSum cv (fun x _ => Z.of_nat x))
                           (foregroundCount cv);
            py := quotient (bitmapSum cv (fun _ y => Z.of_nat y))
                           (foregroundCount cv) |}.
Proof.
  intros Hcv Hfg.
  rewrite (centroid_of_canvas rle color cv Hcv).
  unfold bitmapCentroid.
  replace (foregroundCount cv =? 0) with false
    by (symmetry; apply Z.eqb_neq; lia).
  eexists. repeat split.
Qed.

Lemma centroid_streaming_is_bitmap_mean_witness :
  exists pt,
    calculateCentroid (mkRLE (CountsArray [1; 2; 1]) (2, 2)%nat) = Normal (Some pt) /\
    bitmapCentroid (mkCanvas 2 2 [0;0;0;0; 9;9;9;210; 9;9;9;210; 0;0;0;0]) = Some pt /\
    pt = {| px := quotient 1 2; py := quotient 1 2 |}.
Proof.
  apply (centroid_streaming_is_bitmap_mean
           (mkRLE (CountsArray [1; 2; 1]) (2, 2)%nat) (9, 9, 9)
           (mkCanvas 2 2 [0;0;0;0; 9;9;9;210; 9;9;9;210; 0;0;0;0])).
  - reflexivity.
  - reflexivity.
Defined.

(** C2 at the failing input: the run lengths [0; 2] add up to 2, the image
    has 2 * 2 pixels, and the pixels at scan positions 2 and 3 (column 1,
    rows 0 and 1) come out as foreground. *)
Theorem undershoot_paints_trailing_pixels :
  sumList [0; 2] = 2 /\
  exists cv,
    decodeRleToCanvas (mkRLE (CountsArray [0; 2]) (2, 2)%nat) (255, 0, 0)
      = Normal (Some cv) /\
    isForeground cv 1 0 = true /\ isForeground cv 1 1 = true /\
    foregroundCount cv = 4.
Proof.
  split; [reflexivity|]. eexists. split; [reflexivity|].
  repeat split.
Qed.

(** ** Strings that end in the middle of a value *)

Section Truncated.

Local Open Scope nat_scope.








End Truncated.


Example truncated_ex :
  endsMidUnit "01Q" = true /\
  decodeCocoRleString "01Q" = Normal [0; 1; 1] /\
  decodeRleToCanvas (mkRLE (CountsString "01Q") (1, 2)%nat) (7, 8, 9) =
    Normal (Some (mkCanvas 2 1 [7; 8; 9; 210; 0; 0; 0; 0])) /\
  calculateCentroid (mkRLE (CountsString "01Q") (1, 2)%nat) =
    Normal (Some (mkPoint (quotient 0 1) (quotient 0 1))).
Proof. repeat split. Qed.


(** ** The annotation matcher *)

Example match_ex1 :
  matchedImageId (handleImageUpload app1 "scan_001.jpg") = Some (IdNum 7).
Proof. reflexivity. Qed.

Example match_ex2 :
  handleImageUpload app1 "Scan_002.jpg" =
  mkApp (Some doc1) None None structure None
    (Some ("Image " ++ quote ++ "Scan_002.jpg" ++ quote ++
           " not found. Expected: " ++ quote ++ "scan_001.png" ++ quote ++
           "...")%string).
Proof. reflexivity. Qed.

Example basename_ex :
  getBasename "train\images/ slice_001.jpg " = "slice_001.jpg"%string /\
  getBasename "dir/" = "dir/"%string /\
  nameNoExt ".png" = ".png"%string /\
  nameNoExt "a.b.c" = "a.b"%string /\
  nameNoExt "abc" = "abc"%string.
Proof. repeat split. Qed.

Section Matcher.

Import JSString MatcherSpec.

Lemma split_no_separator s : hasSeparator s = false -> split s = [s].
Proof.
  induction s as [|a s IH]; simpl; [reflexivity|].
  intros H. apply orb_false_elim in H as [Ha Hs].
  rewrite Ha, (IH Hs). reflexivity.
Qed.

Lemma split_separator s :
  hasSeparator s = true -> exists seg r rest, split s = seg :: r :: rest.
Proof.
  induction s as [|a s IH]; simpl; [discriminate|].
  intros H. destruct (isSeparator a) eqn:Ha.
  - destruct (hasSeparator s) eqn:Hs.
    + destruct (IH eq_refl) as (seg & r & rest & ->). eauto.
    + rewrite (split_no_separator s Hs). eauto.
  - simpl in H. destruct (IH H) as (seg & r & rest & ->). eauto.
Qed.

Lemma finalSegment_no_separator s : hasSeparator s = false -> finalSegment s = s.
Proof.
  destruct s as [|a s]; simpl; [reflexivity|].
  intros H. apply orb_false_elim in H as [Ha Hs]. rewrite Hs, Ha. reflexivity.
Qed.

Lemma last_split s : List.last (split s) EmptyString = finalSegment s.
Proof.
  induction s as [|a s IH]; [reflexivity|].
  cbn [split finalSegment].
  destruct (hasSeparator s) eqn:Hs.
  - destruct (split_separator s Hs) as (seg & r & rest & E).
    rewrite E in *. destruct (isSeparator a); exact IH.
  - rewrite (split_no_separator s Hs). destruct (isSeparator a); reflexivity.
Qed.

Lemma getBasename_amended path : getBasename path = segmentAmended path.
Proof.
  unfold getBasename, segmentAmended. rewrite last_split.
  destruct (finalSegment path); reflexivity.
Qed.

Lemma lastIndexOf_occurs c s :
  lastIndexOf c s =
  if occurs c s then Z.of_nat (String.length (beforeLast c s)) else -1.
Proof.
  induction s as [|a s IH]; [reflexivity|].
  cbn [lastIndexOf occurs beforeLast]. rewrite IH.
  destruct (occurs c s).
  - rewrite orb_true_r.
    replace (0 <=? Z.of_nat (String.length (beforeLast c s))) with true
      by (symmetry; apply Z.leb_le; lia).
    cbn [String.length]. lia.
  - rewrite orb_false_r. simpl. destruct (Ascii.eqb a c); reflexivity.
Qed.

Lemma substring_beforeLast c s :
  String.substring 0 (String.length (beforeLast c s)) s = beforeLast c s.
Proof.
  induction s as [|a s IH]; [reflexivity|].
  cbn [beforeLast]. destruct (occurs c s); [|reflexivity].
  cbn [String.length String.substring]. rewrite IH. reflexivity.
Qed.

Lemma beforeLast_length c s :
  (String.length (beforeLast c s) <= String.length s)%nat.
Proof.
  induction s as [|a s IH]; simpl; [lia|].
  destruct (occurs c s); simpl; lia.
Qed.

Lemma nameNoExt_amended s : nameNoExt s = stripExtAmended s.
Proof.
  unfold nameNoExt, stripExtAmended, substring.
  rewrite lastIndexOf_occurs.
  destruct (occurs "."%char s); simpl.
  - rewrite Nat2Z.id.
    rewrite (Nat.min_l _ _ (beforeLast_length _ s)), Nat.sub_0_r.
    rewrite substring_beforeLast.
    destruct (beforeLast "."%char s); reflexivity.
  - destruct s; reflexivity.
Qed.

Lemma matchesUpload_amended fileName img :
  matchesUpload (nameNoExt (trim fileName)) img = matchesAmended fileName img.
Proof.
  unfold matchesUpload, matchesAmended.
  rewrite getBasename_amended, !nameNoExt_amended. reflexivity.
Qed.

Lemma find_ext_eq {A} (f g : A -> bool) (l : list A) :
  (forall a, f a = g a) -> List.find f l = List.find g l.
Proof.
  intros H. induction l as [|a l IH]; simpl; [reflexivity|].
  rewrite H, IH. reflexivity.
Qed.

End Matcher.

(** C6, as stated, fails: with the single record [".png"] and the uploaded
    name [".jpg"] both names strip to the empty string, so the description
    has a match, and the code reports that the image is not found. *)
Lemma matcher_keeps_dot_names :
  ~ (forall (st : AppState) (doc : COCOJson) (fileName : string) (img : COCOImage),
       cocoData st = Some doc ->
       List.find (MatcherSpec.matchesStated fileName) (images doc) = Some img ->
       matchedImageId (handleImageUpload st fileName) = Some (id img)).
Proof.
  intros H.
  specialize (H (mkApp (Some (mkJson [mkImage (IdNum 1) ".png"] [])) None None
                       upload None None)
                (mkJson [mkImage (IdNum 1) ".png"] []) ".jpg"%string
                (mkImage (IdNum 1) ".png") eq_refl eq_refl).
  discriminate H.
Qed.

(** C6, amended: the matcher returns the first record in document order
    whose final path segment (the whole path when that segment is empty),
    trimmed and stripped of its extension (the whole name when there is no
    ['.'] or nothing before the last ['.']), equals in lower case the
    trimmed uploaded name stripped the same way; when no record matches, it
    reports the error with the base names of the first three records, in
    document order. *)
Theorem matcher_first_match (st : AppState) (doc : COCOJson) (fileName : string) :
  cocoData st = Some doc ->
  match List.find (MatcherSpec.matchesAmended fileName) (images doc) with
  | Some img =>
      matchedImageId (handleImageUpload st fileName) = Some (id img) /\
      currentImageFile (handleImageUpload st fileName) = Some fileName /\
      error (handleImageUpload st fileName) = None
  | None =>
      matchedImageId (handleImageUpload st fileName) = None /\
      currentImageFile (handleImageUpload st fileName) = None /\
      error (handleImageUpload st fileName) =
        Some (MatcherSpec.notFoundMessage (JSString.trim fileName)
                (List.map (fun i => MatcherSpec.segmentAmended (file_name i))
                          (firstn 3 (images doc))))
  end.
Proof.
  intros Hdoc. unfold handleImageUpload. rewrite Hdoc.
  rewrite (find_ext_eq _ _ _ (matchesUpload_amended fileName)).
  destruct (List.find (MatcherSpec.matchesAmended fileName) (images doc)).
  - repeat split.
  - repeat split. simpl. unfold MatcherSpec.notFoundMessage.
    rewrite (List.map_ext _ _ (fun i => getBasename_amended (file_name i))).
    reflexivity.
Qed.

Lemma matcher_first_match_witness :
  matchedImageId (handleImageUpload app1 "scan_001.jpg") = Some (IdNum 7) /\
  currentImageFile (handleImageUpload app1 "scan_001.jpg")
    = Some "scan_001.jpg"%string /\
  error (handleImageUpload app1 "scan_001.jpg") = None.
Proof.
  exact (matcher_first_match app1 doc1 "scan_001.jpg" eq_refl).
Defined.

(** ** Loose equality of ids *)

Example decimal_ex : decimalString 5 = "5"%string /\ decimalString (-120) = "-120"%string.
Proof. split; reflexivity. Qed.

Example loose_ex (other : string -> option Z) :
  looseEq other (IdStr "5") (IdNum 5) = true /\
  looseEq other (IdStr " 05 ") (IdNum 5) = true /\
  looseEq other (IdStr "5") (IdStr "05") = false.
Proof. repeat split. Qed.

(** ** Reading back the decimal representation *)

Section DecimalRoundTrip.

Import JSString.

Lemma digitsOf_eq n :
  digitsOf n =
  if Z_lt_dec n 10 then String (digitChar n) EmptyString
  else (digitsOf (n / 10) ++ String (digitChar (n mod 10)) EmptyString)%string.
Proof.
  rewrite digitsOf_equation_1. destruct (Z_lt_dec n 10); reflexivity.
Qed.

Lemma digitChar_spec d :
  0 <= d < 10 ->
  isDigit (digitChar d) = true /\ digitValue (digitChar d) = d /\
  isWhiteSpace (digitChar d) = false.
Proof.
  intros H.
  assert (d = 0 \/ d = 1 \/ d = 2 \/ d = 3 \/ d = 4 \/ d = 5 \/ d = 6 \/
          d = 7 \/ d = 8 \/ d = 9) as Hd by lia.
  repeat (destruct Hd as [->|Hd]; [repeat split|]). subst d. repeat split.
Qed.

Lemma digitsValue_app acc s t :
  digitsValue acc (s ++ t) =
  match digitsValue acc s with Some v => digitsValue v t | None => None end.
Proof.
  revert acc. induction s as [|a s IH]; intros acc; [reflexivity|].
  cbn [append digitsValue].
  destruct (isDigit a); [apply IH|reflexivity].
Qed.

Lemma digitsValue_digitsOf n : 0 <= n -> digitsValue 0 (digitsOf n) = Some n.
Proof.
  remember (Z.to_nat n) as k eqn:Hk. revert n Hk.
  induction k as [k IH] using lt_wf_ind. intros n Hk Hn.
  rewrite digitsOf_eq. destruct (Z_lt_dec n 10) as [Hlt|Hge].
  - destruct (digitChar_spec n ltac:(lia)) as (Hd & Hv & _).
    cbn [digitsValue]. rewrite Hd, Hv. reflexivity.
  - assert (0 <= n / 10 < n) by (split; [apply Z.div_pos|apply Z.div_lt]; lia).
    rewrite digitsValue_app, (IH (Z.to_nat (n / 10))); [|lia|reflexivity|lia].
    pose proof (Z.mod_pos_bound n 10 ltac:(lia)) as Hm.
    destruct (digitChar_spec (n mod 10) Hm) as (Hd & Hv & _).
    cbn [digitsValue]. rewrite Hd, Hv. f_equal.
    rewrite (Z.div_mod n 10) at 3 by lia. reflexivity.
Qed.

Lemma isDigit_not_space a : isDigit a = true -> isWhiteSpace a = false.
Proof.
  unfold isDigit, isWhiteSpace. intros H.
  apply andb_prop in H as [H1 H2].
  apply Nat.leb_le in H1. apply Nat.leb_le in H2.
  repeat match goal with
         | |- context [(?x <=? ?y)%nat] => destruct (Nat.leb_spec x y)
         | |- context [(?x =? ?y)%nat] => destruct (Nat.eqb_spec x y)
         end; simpl; try reflexivity; lia.
Qed.

Lemma digitsValue_head acc a s v :
  digitsValue acc (String a s) = Some v -> isDigit a = true.
Proof. cbn [digitsValue]. destruct (isDigit a); [reflexivity|discriminate]. Qed.

Lemma trimEnd_digits s : forall acc v,
  digitsValue acc s = Some v -> trimEnd s = s.
Proof.
  induction s as [|a s IH]; intros acc v H; [reflexivity|].
  pose proof (digitsValue_head _ _ _ _ H) as Ha.
  cbn [digitsValue] in H. rewrite Ha in H.
  cbn [trimEnd]. rewrite (IH _ _ H).
  destruct s; [|reflexivity].
  rewrite (isDigit_not_space a Ha). reflexivity.
Qed.

Lemma trim_digits s acc v : digitsValue acc s = Some v -> trim s = s.
Proof.
  intros H. unfold trim.
  assert (trimStart s = s) as ->.
  { destruct s as [|a s]; [reflexivity|].
    cbn [trimStart].
    rewrite (isDigit_not_space a (digitsValue_head _ _ _ _ H)).
    reflexivity. }
  exact (trimEnd_digits s acc v H).
Qed.

Lemma decimalIntegerValue_digit a s :
  isDigit a = true -> decimalIntegerValue (String a s) = digitsValue 0 (String a s).
Proof.
  destruct a as [[] [] [] [] [] [] [] []]; try discriminate; reflexivity.
Qed.

Lemma digitsOf_cons n :
  0 <= n -> exists a s, digitsOf n = String a s /\ isDigit a = true.
Proof.
  intros Hn. pose proof (digitsValue_digitsOf n Hn) as H.
  destruct (digitsOf n) as [|a s] eqn:E.
  - rewrite digitsOf_eq in E. destruct (Z_lt_dec n 10); [discriminate|].
    destruct (digitsOf (n / 10)); discriminate.
  - exists a, s. split; [reflexivity|]. exact (digitsValue_head _ _ _ _ H).
Qed.

Variable otherLiteralValue : string -> option Z.

(** [Number(String(n)) = n] *)
Lemma toNumber_decimalString n :
  toNumber otherLiteralValue (decimalString n) = Some n.
Proof.
  unfold toNumber, decimalString.
  destruct (n <? 0) eqn:Hneg.
  - apply Z.ltb_lt in Hneg.
    pose proof (digitsValue_digitsOf (- n) ltac:(lia)) as Hv.
    destruct (digitsOf_cons (- n) ltac:(lia)) as (a & s & E & Ha).
    assert (trim (String "-"%char (digitsOf (- n))) =
            String "-"%char (digitsOf (- n))) as ->.
    { unfold trim. cbn [trimStart].
      change (isWhiteSpace "-") with false. cbn iota.
      cbn [trimEnd]. rewrite (trimEnd_digits _ _ _ Hv), E. reflexivity. }
    cbn [decimalIntegerValue]. unfold unsignedValue.
    rewrite E in *. rewrite Hv. simpl. f_equal. lia.
  - apply Z.ltb_ge in Hneg.
    pose proof (digitsValue_digitsOf n Hneg) as Hv.
    destruct (digitsOf_cons n Hneg) as (a & s & E & Ha).
    rewrite (trim_digits _ _ _ Hv). rewrite E in *.
    rewrite (decimalIntegerValue_digit a s Ha), Hv. reflexivity.
Qed.

End DecimalRoundTrip.

(** C7: under the loose equality of the filter a number and its decimal
    string are equal, in either order; the annotation with image id ["5"]
    is kept for the target 5; and the filter returns, in document order,
    exactly the annotations whose image id is loosely equal to the
    target. *)
Theorem filter_loose_id_equality
    (otherLiteralValue : string -> option Z)
    (st : AppState) (doc : COCOJson) (target : JsId) :
  cocoData st = Some doc ->
  targetId st = Some target ->
  (forall n : Z,
     looseEq otherLiteralValue (IdStr (decimalString n)) (IdNum n) = true /\
     looseEq otherLiteralValue (IdNum n) (IdStr (decimalString n)) = true) /\
  looseEq otherLiteralValue (IdStr "5") (IdNum 5) = true /\
  currentAnnotations otherLiteralValue st =
    List.filter (fun ann => looseEq otherLiteralValue (image_id ann) target)
                (annotations doc) /\
  (forall ann : COCOAnnotation,
     In ann (currentAnnotations otherLiteralValue st) <->
     In ann (annotations doc) /\
     looseEq otherLiteralValue (image_id ann) target = true).
Proof.
  intros Hdoc Ht.
  assert (currentAnnotations otherLiteralValue st =
          List.filter (fun ann => looseEq otherLiteralValue (image_id ann) target)
                      (annotations doc)) as Hfilter
    by (unfold currentAnnotations; rewrite Hdoc, Ht; reflexivity).
  split; [|split; [reflexivity|split; [exact Hfilter|]]].
  - intros n. unfold looseEq.
    rewrite toNumber_decimalString, Z.eqb_refl. split; reflexivity.
  - intros ann. rewrite Hfilter. apply List.filter_In.
Qed.

Lemma filter_loose_id_equality_witness :
  currentAnnotations (fun _ => None)
    (mkApp (Some doc5) (Some "a.png"%string) (Some (IdNum 5)) upload None None)
  = [mkAnnotation (IdNum 1) (IdStr "5") (IdNum 1);
     mkAnnotation (IdNum 3) (IdNum 5) (IdNum 2)].
Proof.
  exact (proj1 (proj2 (proj2
    (filter_loose_id_equality (fun _ => None)
       (mkApp (Some doc5) (Some "a.png"%string) (Some (IdNum 5)) upload None None)
       doc5 (IdNum 5) eq_refl eq_refl)))).
Defined.

(** ** The hierarchy on examples *)

Example tree_ex1 :
  List.map (fun e => (fst e, type (snd e)))
           (shownChildren codeUnitCompare (buildFileTree imgs3))
  = [("A"%string, folder); ("B"%string, folder)].
Proof. reflexivity. Qed.

Example tree_ex2 :
  option_map (fun n => List.map (fun e => (fst e, type (snd e), path (snd e)))
                                (shownChildren codeUnitCompare n))
             (lookupPath (buildFileTree imgs3) ["A"%string])
  = Some [("x.png"%string, file, "A/x.png"%string);
          ("y.png"%string, file, "A/y.png"%string)].
Proof. reflexivity. Qed.

(** ** Where an insertion changes the tree *)

Section Insertion.

Variable img : COCOImage.

Lemma insertParts_header parts cp t :
  header (insertParts img parts cp t) = header t.
Proof. destruct parts as [|part [|r rest]]; destruct t; reflexivity. Qed.

Lemma insertParts_children part rest cp t :
  children (insertParts img (part :: rest) cp t) <> None.
Proof. destruct rest; simpl; discriminate. Qed.

(** One step down: a key other than the inserted part is not affected. *)
Lemma lookup_insert_ne part rest cp t k q :
  k <> part ->
  lookupPath (insertParts img (part :: rest) cp t) (k :: q) =
  lookupPath t (k :: q).
Proof.
  intros Hne.
  assert (forall v,
    lookupPath (setChildren t
      (Obj.set (match children t with Some c => c | None => [] end) part v))
      (k :: q) = lookupPath t (k :: q)) as H.
  { intros v. simpl. rewrite Obj.get_set_ne by congruence.
    destruct (children t); reflexivity. }
  destruct rest; simpl insertParts; apply H.
Qed.

Lemma lookup_insert_last part cp t q :
  lookupPath (insertParts img [part] cp t) (part :: q) =
  lookupPath (mkNode part file None (Some img) (extendPath cp part)) q.
Proof. simpl. rewrite Obj.get_set_eq. reflexivity. Qed.

Lemma lookup_insert_eq part r rest cp t q :
  lookupPath (insertParts img (part :: r :: rest) cp t) (part :: q) =
  lookupPath (insertParts img (r :: rest) (extendPath cp part)
                (nextNode part cp t)) q.
Proof.
  cbn [insertParts lookupPath setChildren children].
  rewrite Obj.get_set_eq. reflexivity.
Qed.

Lemma lookup_nextNode part cp t q :
  q <> [] -> lookupPath (nextNode part cp t) q = lookupPath t (part :: q).
Proof.
  intros Hq. unfold nextNode. cbn [lookupPath].
  destruct (children t) as [c|].
  - destruct (Obj.get c part); [reflexivity|].
    destruct q; [contradiction|reflexivity].
  - destruct q; [contradiction|reflexivity].
Qed.

Lemma isPrefix_nil_r p : isPrefix p [] = true -> p = [].
Proof. destruct p; [reflexivity|discriminate]. Qed.

(** A path that parts ways with the inserted parts is not affected. *)
Lemma lookup_insert_other parts :
  forall cp t q,
    isPrefix q parts = false -> isPrefix parts q = false ->
    lookupPath (insertParts img parts cp t) q = lookupPath t q.
Proof.
  induction parts as [|part rest IH]; intros cp t q Hq Hp; [discriminate|].
  destruct q as [|k q]; [discriminate|].
  cbn [isPrefix] in Hq, Hp.
  destruct (String.eqb_spec k part) as [->|Hne].
  - rewrite String.eqb_refl in Hp. simpl in Hq, Hp.
    destruct rest as [|r rest]; [discriminate|].
    rewrite lookup_insert_eq, IH by assumption.
    apply lookup_nextNode. destruct q; [discriminate|congruence].
  - apply lookup_insert_ne. exact Hne.
Qed.

(** The inserted file node is found at the end of the parts. *)
Lemma lookup_insert_self parts :
  forall cp t, parts <> [] ->
    lookupPath (insertParts img parts cp t) parts =
    Some (mkNode (List.last parts EmptyString) file None (Some img)
                 (pathFrom cp parts)).
Proof.
  induction parts as [|part rest IH]; intros cp t Hne; [contradiction|].
  destruct rest as [|r rest].
  - rewrite lookup_insert_last. reflexivity.
  - rewrite lookup_insert_eq, IH by discriminate. reflexivity.
Qed.

(** Nothing is found below the inserted file node. *)
Lemma lookup_insert_beyond parts :
  forall cp t r, parts <> [] -> r <> [] ->
    lookupPath (insertParts img parts cp t) (parts ++ r) = None.
Proof.
  induction parts as [|part rest IH]; intros cp t r Hne Hr; [contradiction|].
  destruct rest as [|r0 rest].
  - cbn [app]. rewrite lookup_insert_last. destruct r; [contradiction|reflexivity].
  - cbn [app]. rewrite lookup_insert_eq. apply IH; [discriminate|exact Hr].
Qed.

(** Above the inserted file node there are nodes with children: the ones
    that were there, their other fields unchanged, or new folders. *)
Lemma lookup_insert_above parts :
  forall cp t q r, q <> [] -> r <> [] -> parts = q ++ r ->
    exists n,
      lookupPath (insertParts img parts cp t) q = Some n /\
      children n <> None /\
      match lookupPath t q with
      | Some m => header n = header m
      | None =>
          header n = (List.last q EmptyString, folder, None, pathFrom cp q)
      end.
Proof.
  induction parts as [|part rest IH]; intros cp t q r Hq Hr E.
  - destruct q; [contradiction|discriminate].
  - destruct q as [|k q]; [contradiction|].
    injection E as <- E.
    destruct rest as [|r0 rest].
    { destruct q; [|discriminate]. simpl in E. subst r. contradiction. }
    rewrite lookup_insert_eq.
    destruct q as [|k' q].
    + cbn [lookupPath]. eexists. split; [reflexivity|].
      split; [apply insertParts_children|].
      rewrite insertParts_header. unfold nextNode.
      destruct (children t) as [c|]; [destruct (Obj.get c part)|]; reflexivity.
    + destruct (IH (extendPath cp part) (nextNode part cp t) (k' :: q) r
                  ltac:(discriminate) Hr E) as (n & Hn & Hc & Hh).
      exists n. split; [exact Hn|]. split; [exact Hc|].
      rewrite lookup_nextNode in Hh by discriminate.
      destruct (lookupPath t (part :: k' :: q)); exact Hh.
Qed.

End Insertion.

Section Prefixes.

Lemma isPrefix_spec p q : isPrefix p q = true <-> exists r, q = p ++ r.
Proof.
  revert q. induction p as [|a p IH]; intros q; simpl.
  - split; [intros _; exists q; reflexivity|reflexivity].
  - destruct q as [|b q]; [split; [discriminate|intros [r H]; discriminate]|].
    rewrite andb_true_iff, String.eqb_eq, IH. split.
    + intros [-> [r ->]]. exists r. reflexivity.
    + intros [r H]. injection H as -> ->. split; [reflexivity|exists r; reflexivity].
Qed.


Lemma isPrefix_refl p : isPrefix p p = true.
Proof. apply isPrefix_spec. exists []. symmetry. apply app_nil_r. Qed.

(** The ways in which a path [q] stands to the inserted [parts]. *)
Lemma path_cases (q parts : list string) :
  q = parts \/
  (exists r, r <> [] /\ parts = q ++ r) \/
  (exists r, r <> [] /\ q = parts ++ r) \/
  (isPrefix q parts = false /\ isPrefix parts q = false).
Proof.
  destruct (isPrefix q parts) eqn:Hq; destruct (isPrefix parts q) eqn:Hp.
  - left. apply isPrefix_spec in Hq as [r Hr]. apply isPrefix_spec in Hp as [r' Hr'].
    rewrite Hr in Hr'. rewrite <- app_assoc in Hr'.
    rewrite <- (app_nil_r q) in Hr' at 1. apply app_inv_head in Hr'.
    symmetry in Hr'. apply app_eq_nil in Hr' as [-> _].
    rewrite app_nil_r in Hr. symmetry. exact Hr.
  - right. left. apply isPrefix_spec in Hq as [r Hr]. exists r. split; [|exact Hr].
    intros ->. rewrite app_nil_r in Hr. subst parts.
    rewrite isPrefix_refl in Hp. discriminate.
  - right. right. left. apply isPrefix_spec in Hp as [r Hr]. exists r.
    split; [|exact Hr].
    intros ->. rewrite app_nil_r in Hr. subst parts.
    rewrite isPrefix_refl in Hq. discriminate.
  - right. right. right. split; reflexivity.
Qed.

End Prefixes.

(** What is found in the tree after an insertion. *)
Lemma lookup_insert_cases img parts cp t q n :
  parts <> [] -> q <> [] ->
  lookupPath (insertParts img parts cp t) q = Some n ->
  (q = parts /\
   n = mkNode (List.last parts EmptyString) file None (Some img)
              (pathFrom cp parts)) \/
  (exists r, r <> [] /\ parts = q ++ r /\ children n <> None /\
     match lookupPath t q with
     | Some m => header n = header m
     | None => header n = (List.last q EmptyString, folder, None, pathFrom cp q)
     end) \/
  (isPrefix q parts = false /\ isPrefix parts q = false /\
   lookupPath t q = Some n).
Proof.
  intros Hp Hq H.
  destruct (path_cases q parts) as [->|[(r & Hr & E)|[(r & Hr & E)|[H1 H2]]]].
  - left. rewrite lookup_insert_self in H by exact Hp.
    injection H as <-. split; reflexivity.
  - right. left. exists r.
    destruct (lookup_insert_above img parts cp t q r Hq Hr E) as (n' & Hn & Hc & Hh).
    rewrite Hn in H. injection H as <-. repeat split; assumption.
  - subst q. rewrite lookup_insert_beyond in H by assumption. discriminate.
  - right. right. rewrite lookup_insert_other in H by assumption.
    repeat split; assumption.
Qed.

(** ** The shape of the tree that [buildFileTree] returns *)

Section Shape.

Lemma split_nonempty s : JSString.split s <> [].
Proof.
  destruct s as [|a s]; simpl; [discriminate|].
  destruct (JSString.isSeparator a); [discriminate|].
  destruct (JSString.split s); discriminate.
Qed.







End Shape.

(** ** The path strings of the nodes *)

Section Paths.

Lemma append_assoc (a b c : string) : ((a ++ b) ++ c = a ++ (b ++ c))%string.
Proof. induction a as [|x a IH]; simpl; [reflexivity|]. rewrite IH. reflexivity. Qed.

Lemma append_empty_r (a : string) : (a ++ "")%string = a.
Proof. induction a as [|x a IH]; simpl; [reflexivity|]. rewrite IH. reflexivity. Qed.

Lemma join_cons a q : JSString.join "/" (a :: q) = (a ++ tailJoin q)%string.
Proof.
  revert a. induction q as [|b q IH]; intros a.
  - simpl. symmetry. apply append_empty_r.
  - specialize (IH b). unfold JSString.join in *.
    change (String.concat "/" (a :: b :: q))
      with (a ++ "/" ++ String.concat "/" (b :: q))%string.
    rewrite IH. reflexivity.
Qed.

Lemma pathFrom_nonempty x cp q :
  pathFrom (String x cp) q = (String x cp ++ tailJoin q)%string.
Proof.
  revert x cp. induction q as [|part q IH]; intros x cp.
  - simpl. rewrite append_empty_r. reflexivity.
  - unfold pathFrom in *. cbn [foldl extendPath tailJoin].
    cbn [append]. rewrite IH. cbn [append]. f_equal.
    rewrite !append_assoc. reflexivity.
Qed.

Lemma pathFrom_join q : pathFrom "" q = JSString.join "/" (dropEmpty q).
Proof.
  induction q as [|a q IH]; [reflexivity|].
  destruct a as [|x a].
  - exact IH.
  - cbn [dropEmpty]. rewrite join_cons. apply pathFrom_nonempty.
Qed.

End Paths.




(** ** Sorting *)

Section Sorting.

Context {A : Type}.
Variable cmp : A -> A -> Z.

Hypothesis cmp_total : forall a b, (notAfter cmp) a b \/ (notAfter cmp) b a.
Hypothesis cmp_trans : forall a b c, (notAfter cmp) a b -> (notAfter cmp) b c -> (notAfter cmp) a c.

Lemma sortInsert_perm x l : Permutation (sortInsert cmp x l) (x :: l).
Proof.
  induction l as [|y l IH]; simpl; [reflexivity|].
  destruct (cmp x y <=? 0); [reflexivity|].
  rewrite IH. apply perm_swap.
Qed.

Lemma sort_perm l : Permutation (sort cmp l) l.
Proof.
  induction l as [|x l IH]; simpl; [reflexivity|].
  rewrite sortInsert_perm. constructor. exact IH.
Qed.

Lemma sortInsert_sorted x l :
  StronglySorted (notAfter cmp) l -> StronglySorted (notAfter cmp) (sortInsert cmp x l).
Proof.
  induction 1 as [|y l Hs IH Hy]; simpl.
  - constructor; constructor.
  - destruct (cmp x y <=? 0) eqn:E.
    + apply Z.leb_le in E. constructor; [constructor; assumption|].
      constructor; [exact E|].
      eapply List.Forall_impl; [|exact Hy].
      intros z Hz. exact (cmp_trans _ _ _ E Hz).
    + apply Z.leb_gt in E. constructor; [exact IH|].
      assert ((notAfter cmp) y x) as Hyx
        by (destruct (cmp_total x y) as [H'|H']; [unfold notAfter in H'; lia|exact H']).
      apply (Permutation_Forall (Permutation_sym (sortInsert_perm x l))).
      constructor; assumption.
Qed.

Lemma sort_sorted l : StronglySorted (notAfter cmp) (sort cmp l).
Proof.
  induction l as [|x l IH]; simpl; [constructor|].
  apply sortInsert_sorted. exact IH.
Qed.

Lemma sorted_split (R : A -> A -> Prop) l1 a l2 b l3 :
  StronglySorted R (l1 ++ a :: l2 ++ b :: l3) -> R a b.
Proof.
  induction l1 as [|x l1 IH]; simpl; intros H.
  - apply StronglySorted_inv in H as [_ H].
    rewrite List.Forall_forall in H. apply H.
    apply in_or_app. right. left. reflexivity.
  - apply StronglySorted_inv in H as [H _]. exact (IH H).
Qed.

End Sorting.

Section Order.

Lemma ascii_compare_lt_trans x y z :
  Ascii.compare x y = Lt -> Ascii.compare y z = Lt -> Ascii.compare x z = Lt.
Proof.
  unfold Ascii.compare. rewrite !N.compare_lt_iff. apply N.lt_trans.
Qed.

Lemma string_compare_trans a :
  forall b c, String.compare a b <> Gt -> String.compare b c <> Gt ->
              String.compare a c <> Gt.
Proof.
  induction a as [|x a IH]; intros [|y b] [|z c]; simpl; try congruence.
  intros Hab Hbc.
  destruct (Ascii.compare x y) eqn:Exy; [| |congruence].
  - apply Ascii.compare_eq_iff in Exy. subst y.
    destruct (Ascii.compare x z); [apply (IH b c); assumption|congruence|congruence].
  - destruct (Ascii.compare y z) eqn:Eyz; [| |congruence].
    + apply Ascii.compare_eq_iff in Eyz. subst z. rewrite Exy. congruence.
    + rewrite (ascii_compare_lt_trans x y z Exy Eyz). congruence.
Qed.

Lemma string_compare_lt_trans a b c :
  String.compare a b = Lt -> String.compare b c = Lt -> String.compare a c = Lt.
Proof.
  intros Hab Hbc.
  assert (String.compare a c <> Gt) as Hle
    by (apply (string_compare_trans a b c); congruence).
  destruct (String.compare a c) eqn:E; [|reflexivity|congruence].
  apply String.compare_eq_iff in E. subst c.
  rewrite String.compare_antisym, Hab in Hbc. discriminate.
Qed.

Lemma comparisonResult_le c : comparisonResult c <= 0 <-> c <> Gt.
Proof. destruct c; simpl; split; intros H; try lia; congruence. Qed.

Lemma codeUnitCompare_consistent : sortsConsistently codeUnitCompare.
Proof.
  unfold codeUnitCompare. split.
  - intros a b. rewrite !comparisonResult_le, (String.compare_antisym b).
    destruct (String.compare a b); simpl;
      (left; congruence) || (right; congruence).
  - intros a b c. rewrite !comparisonResult_le. apply string_compare_trans.
Qed.

Lemma foldedCompare_le a b :
  foldedCompare a b <= 0 <->
  String.compare (JSString.toLowerCase a) (JSString.toLowerCase b) = Lt \/
  (JSString.toLowerCase a = JSString.toLowerCase b /\
   String.compare b a <> Gt).
Proof.
  unfold foldedCompare.
  destruct (String.compare (JSString.toLowerCase a) (JSString.toLowerCase b))
    eqn:E.
  - apply String.compare_eq_iff in E. rewrite comparisonResult_le.
    split; [intros H; right; split; assumption|].
    intros [H|[_ H]]; [discriminate|exact H].
  - simpl. split; [intros _; left; reflexivity|lia].
  - simpl. split; [lia|]. intros [H|[H _]]; [discriminate|].
    rewrite H in E.
    pose proof (String.compare_antisym (JSString.toLowerCase b)
                  (JSString.toLowerCase b)) as Ha.
    rewrite E in Ha. discriminate Ha.
Qed.

Lemma foldedCompare_consistent : sortsConsistently foldedCompare.
Proof.
  split.
  - intros a b. rewrite !foldedCompare_le.
    destruct (String.compare (JSString.toLowerCase a) (JSString.toLowerCase b))
      eqn:E.
    + apply String.compare_eq_iff in E.
      destruct (String.compare b a) eqn:Eba.
      * left. right. split; [exact E|congruence].
      * left. right. split; [exact E|congruence].
      * right. right. split; [symmetry; exact E|].
        rewrite String.compare_antisym, Eba. discriminate.
    + left. left. reflexivity.
    + right. left. rewrite String.compare_antisym, E. reflexivity.
  - intros a b c. rewrite !foldedCompare_le.
    intros [Hab|[Hab Hab']] [Hbc|[Hbc Hbc']].
    + left. exact (string_compare_lt_trans _ _ _ Hab Hbc).
    + left. rewrite <- Hbc. exact Hab.
    + left. rewrite Hab. exact Hbc.
    + right. split; [congruence|].
      exact (string_compare_trans c b a Hbc' Hab').
Qed.

Section Entries.

Variable localeCompare : string -> string -> Z.
Hypothesis host : sortsConsistently localeCompare.

Lemma compareEntries_total a b :
  notAfter (compareEntries localeCompare) a b \/
  notAfter (compareEntries localeCompare) b a.
Proof.
  unfold notAfter, compareEntries.
  destruct (type (snd a)), (type (snd b)); try lia; apply (proj1 host).
Qed.

Lemma compareEntries_trans a b c :
  notAfter (compareEntries localeCompare) a b ->
  notAfter (compareEntries localeCompare) b c ->
  notAfter (compareEntries localeCompare) a c.
Proof.
  unfold notAfter, compareEntries.
  destruct (type (snd a)), (type (snd b)), (type (snd c)); try lia;
    apply (proj2 host).
Qed.

End Entries.

End Order.

(** ** Children are stored under their names *)

Section KeyedTree.

Lemma obj_get_In {V} (o : list (string * V)) k v : Obj.get o k = Some v -> In (k, v) o.
Proof.
  induction o as [|[k' v'] o IH]; simpl; [discriminate|].
  destruct (String.eqb_spec k' k) as [->|Hne].
  - intros H. injection H as ->. left. reflexivity.
  - intros H. right. exact (IH H).
Qed.

Lemma obj_set_In {V} (o : list (string * V)) k v k' v' :
  In (k', v') (Obj.set o k v) -> (k', v') = (k, v) \/ In (k', v') o.
Proof.
  induction o as [|[k0 v0] o IH]; simpl.
  - intros [H|[]]. left. symmetry. exact H.
  - destruct (String.eqb_spec k0 k) as [->|Hne]; simpl.
    + intros [H|H]; [left; symmetry; exact H|right; right; exact H].
    + intros [H|H]; [right; left; exact H|].
      destruct (IH H) as [H'|H']; [left; exact H'|right; right; exact H'].
Qed.

Lemma Keyed_children n c k m :
  Keyed n -> children n = Some c -> In (k, m) c -> name m = k /\ Keyed m.
Proof. intros H. inversion H as [n' Hn]. subst. apply Hn. Qed.

Lemma Keyed_insert img parts :
  forall cp t, Keyed t -> Keyed (insertParts img parts cp t).
Proof.
  induction parts as [|part rest IH]; intros cp t Ht; [exact Ht|].
  assert (forall x, name x = part -> Keyed x ->
            Keyed (setChildren t
                     (Obj.set (match children t with Some c => c | None => [] end)
                              part x))) as Hset.
  { intros x Hname Hx. constructor. intros c k m Hc Hin.
    simpl in Hc. injection Hc as <-.
    apply obj_set_In in Hin as [E|Hin].
    - injection E as -> ->. split; assumption.
    - destruct (children t) as [c|] eqn:Ec; [|destruct Hin].
      exact (Keyed_children t c k m Ht Ec Hin). }
  destruct rest as [|r rest].
  - apply Hset; [reflexivity|].
    constructor. intros c k m Hc. discriminate Hc.
  - change (insertParts img (part :: r :: rest) cp t)
      with (setChildren t
              (Obj.set (match children t with Some c => c | None => [] end) part
                 (insertParts img (r :: rest) (extendPath cp part)
                    (nextNode part cp t)))).
    apply Hset.
    + pose proof (insertParts_header img (r :: rest) (extendPath cp part)
                    (nextNode part cp t)) as Hh.
      unfold header in Hh.
      assert (name (nextNode part cp t) = part) as Hn.
      { unfold nextNode. destruct (children t) as [c|] eqn:Ec; [|reflexivity].
        destruct (Obj.get c part) as [e|] eqn:Eg; [|reflexivity].
        apply obj_get_In in Eg. exact (proj1 (Keyed_children t c part e Ht Ec Eg)). }
      congruence.
    + apply IH.
      unfold nextNode. destruct (children t) as [c|] eqn:Ec.
      * destruct (Obj.get c part) as [e|] eqn:Eg.
        -- apply obj_get_In in Eg. exact (proj2 (Keyed_children t c part e Ht Ec Eg)).
        -- constructor. intros c' k m Hc Hin. injection Hc as <-. destruct Hin.
      * constructor. intros c' k m Hc Hin. injection Hc as <-. destruct Hin.
Qed.

Lemma Keyed_build imgs : Keyed (buildFileTree imgs).
Proof.
  unfold buildFileTree.
  assert (Keyed emptyRoot) as H
    by (constructor; intros c k m Hc Hin; injection Hc as <-; destruct Hin).
  revert H. generalize emptyRoot.
  induction imgs as [|img imgs IH]; intros t Ht; [exact Ht|].
  cbn [foldl]. apply IH. apply Keyed_insert. exact Ht.
Qed.

Lemma Keyed_lookup q : forall t n, Keyed t -> lookupPath t q = Some n -> Keyed n.
Proof.
  induction q as [|k q IH]; intros t n Ht H.
  - injection H as <-. exact Ht.
  - cbn [lookupPath] in H. destruct (children t) as [c|] eqn:Ec; [|discriminate].
    destruct (Obj.get c k) as [m|] eqn:Eg; [|discriminate].
    apply obj_get_In in Eg.
    exact (IH m n (proj2 (Keyed_children t c k m Ht Ec Eg)) H).
Qed.

End KeyedTree.

(** C8, as stated, has the siblings of a kind in the case-sensitive order
    of the code units. The code asks the host ([localeCompare]): with a
    comparison that looks at the letters before their case, the folders of
    ["B/x.png"] and ["a/y.png"] are shown as [a], [B], while by code units
    ["B"] comes before ["a"]. *)
Lemma sibling_order_follows_the_host :
  sortsConsistently foldedCompare /\
  List.map fst
    (shownChildren foldedCompare
       (buildFileTree [mkImage (IdNum 1) "B/x.png"; mkImage (IdNum 2) "a/y.png"]))
    = ["a"; "B"]%string /\
  String.compare "a"%string "B"%string = Gt.
Proof.
  split; [exact foldedCompare_consistent|]. split; reflexivity.
Qed.

(** C8, amended: whatever comparison the host has, as long as it sorts
    consistently, the children of every folder node of a built tree are
    shown in an order that is a rearrangement of the children, with every
    folder before every file and, within a kind, in the order of
    [localeCompare] on the names; for the file names ["A/x.png"],
    ["A/y.png"], ["B/z.png"], where the host puts ["A"] before ["B"] and
    ["x.png"] before ["y.png"], the root shows the two folders [A], [B] and
    [A] shows the two files [x.png], [y.png], in these orders. *)
Theorem sibling_order (localeCompare : string -> string -> Z) :
  sortsConsistently localeCompare ->
  (forall (imgs : list COCOImage) (q : list string) (n : TreeNode),
     lookupPath (buildFileTree imgs) q = Some n ->
     type n = folder ->
     Permutation (shownChildren localeCompare n)
                 (match children n with Some c => c | None => [] end) /\
     forall l1 a l2 b l3,
       shownChildren localeCompare n = l1 ++ a :: l2 ++ b :: l3 ->
       name (snd a) = fst a /\ name (snd b) = fst b /\
       (type (snd b) = folder -> type (snd a) = folder) /\
       (type (snd a) = type (snd b) ->
        localeCompare (name (snd a)) (name (snd b)) <= 0)) /\
  (localeCompare "A"%string "B"%string <= 0 ->
   localeCompare "x.png"%string "y.png"%string <= 0 ->
   List.map (fun e => (name (snd e), type (snd e)))
            (shownChildren localeCompare (buildFileTree imgsABC))
     = [("A"%string, folder); ("B"%string, folder)] /\
   option_map (fun n => List.map (fun e => (name (snd e), type (snd e)))
                                 (shownChildren localeCompare n))
              (lookupPath (buildFileTree imgsABC) ["A"%string])
     = Some [("x.png"%string, file); ("y.png"%string, file)]).
Proof.
  intros Hhost. split.
  - intros imgs q n Hn Hfolder.
    pose proof (Keyed_lookup q _ n (Keyed_build imgs) Hn) as Hk.
    assert (shownChildren localeCompare n =
            match children n with
            | Some c => sort (compareEntries localeCompare) c
            | None => []
            end)
      as Hshown by (unfold shownChildren; rewrite Hfolder; reflexivity).
    assert (Permutation (shownChildren localeCompare n)
              (match children n with Some c => c | None => [] end)) as Hperm
      by (rewrite Hshown; destruct (children n); [apply sort_perm|reflexivity]).
    split; [exact Hperm|].
    intros l1 a l2 b l3 E.
    assert (forall e, In e (shownChildren localeCompare n) ->
                      name (snd e) = fst e) as Hname.
    { intros [k m] Hin. apply (Permutation_in _ Hperm) in Hin.
      destruct (children n) as [c|] eqn:Ec; [|destruct Hin].
      exact (proj1 (Keyed_children n c k m Hk Ec Hin)). }
    assert (notAfter (compareEntries localeCompare) a b) as Hab.
    { apply (sorted_split _ l1 a l2 b l3). rewrite <- E, Hshown.
      destruct (children n); [|constructor].
      apply sort_sorted;
        [apply compareEntries_total|apply compareEntries_trans]; exact Hhost. }
    assert (name (snd a) = fst a) as Ha
      by (apply Hname; rewrite E; apply in_or_app; right; left; reflexivity).
    assert (name (snd b) = fst b) as Hb
      by (apply Hname; rewrite E; apply in_or_app; right; right;
          apply in_or_app; right; left; reflexivity).
    split; [exact Ha|]. split; [exact Hb|].
    unfold notAfter, compareEntries in Hab. rewrite Ha, Hb. split.
    + intros Hf. rewrite Hf in Hab. destruct (type (snd a)); [reflexivity|lia].
    + intros Ht. rewrite Ht in Hab. destruct (type (snd b)); exact Hab.
  - intros HAB Hxy. apply Z.leb_le in HAB, Hxy.
    split.
    + cbn [imgsABC]. unfold shownChildren, buildFileTree. simpl.
      unfold compareEntries. simpl. rewrite HAB. reflexivity.
    + unfold buildFileTree. simpl. unfold shownChildren. simpl.
      unfold compareEntries. simpl. rewrite Hxy. reflexivity.
Qed.

Lemma sibling_order_witness :
  List.map (fun e => (name (snd e), type (snd e)))
           (shownChildren foldedCompare (buildFileTree imgsABC))
    = [("A"%string, folder); ("B"%string, folder)] /\
  option_map (fun n => List.map (fun e => (name (snd e), type (snd e)))
                                (shownChildren foldedCompare n))
             (lookupPath (buildFileTree imgsABC) ["A"%string])
    = Some [("x.png"%string, file); ("y.png"%string, file)].
Proof.
  apply (proj2 (sibling_order foldedCompare foldedCompare_consistent)).
  - vm_compute. discriminate.
  - vm_compute. discriminate.
Defined.

(** * Part IV: further properties of the program *)

(** ** The rasterizer follows the run lengths *)

Section RunValues.

Variable cnts : list Z.
Hypothesis nonneg : Forall (fun c => 0 <= c) cnts.

Lemma nth_nonneg (i : nat) : 0 <= nth i cnts 0.
Proof.
  destruct (lt_dec i (length cnts)) as [Hlt|Hge].
  - pose proof (List.Forall_forall (fun c => 0 <= c) cnts) as [F _].
    exact (F nonneg _ (nth_In _ _ Hlt)).
  - rewrite nth_overflow by lia. lia.
Qed.

Lemma tracks_initial : tracks cnts 0 (initialRun cnts).
Proof.
  split; [apply nth_nonneg|].
  intros m Hm. unfold initialRun. cbn [runRemaining currentValue countsIndex].
  rewrite Z.add_0_l.
  destruct cnts as [|c l]; simpl.
  - destruct (m <? 0); reflexivity.
  - destruct (m <? c); reflexivity.
Qed.

Lemma tracks_skipRuns n :
  forall (d : nat) st,
    d = (length cnts - countsIndex st)%nat ->
    tracks cnts n st ->
    tracks cnts n (skipRuns cnts st) /\
    (0 < runRemaining (skipRuns cnts st) \/
     skipn (S (countsIndex (skipRuns cnts st))) cnts = []).
Proof.
  induction d as [d IH] using lt_wf_ind. intros st Hd [Hrr Hval].
  rewrite skipRuns_eq.
  destruct (runRemaining st =? 0) eqn:E.
  - apply Z.eqb_eq in E.
    destruct (lt_dec (S (countsIndex st)) (length cnts)) as [Hlt|Hge].
    + apply (IH (length cnts - S (countsIndex st))%nat); [lia|reflexivity|].
      split; [apply nth_nonneg|].
      intros m Hm. cbn [runRemaining currentValue countsIndex].
      rewrite (Hval m Hm), E.
      replace (m <? 0) with false by (symmetry; apply Z.ltb_ge; lia).
      rewrite (skipn_cons_nth _ _ Hlt). cbn [valueAt].
      rewrite Z.sub_0_r, mod2_odd. reflexivity.
    + split; [|right; apply skipn_all2; simpl; lia].
      split; [exact Hrr|].
      intros m Hm. cbn [runRemaining currentValue countsIndex].
      rewrite (Hval m Hm), E.
      replace (m <? 0) with false by (symmetry; apply Z.ltb_ge; lia).
      rewrite !skipn_all2 by (simpl; lia). reflexivity.
  - apply Z.eqb_neq in E. split; [split; assumption|left; lia].
Qed.

Lemma tracks_stateAt n : tracks cnts n (stateAt cnts n).
Proof.
  induction n as [|n IH]; [exact tracks_initial|].
  destruct (tracks_skipRuns n _ (stateAt cnts n) eq_refl IH) as [[Hrr Hval] Hend].
  cbn [stateAt]. set (st := skipRuns cnts (stateAt cnts n)) in *.
  unfold consume. destruct (0 <? runRemaining st) eqn:E.
  - apply Z.ltb_lt in E. split; [simpl; lia|].
    intros m Hm. cbn [runRemaining currentValue countsIndex].
    replace (Z.of_nat (S n) + m) with (Z.of_nat n + (m + 1)) by lia.
    rewrite (Hval (m + 1)) by lia.
    replace (m + 1 - runRemaining st) with (m - (runRemaining st - 1)) by lia.
    destruct (Z.ltb_spec (m + 1) (runRemaining st));
      destruct (Z.ltb_spec m (runRemaining st - 1)); try reflexivity; lia.
  - apply Z.ltb_ge in E. assert (runRemaining st = 0) as E0 by lia.
    destruct Hend as [Hpos|Hend]; [lia|].
    split; [exact Hrr|].
    intros m Hm.
    replace (Z.of_nat (S n) + m) with (Z.of_nat n + (m + 1)) by lia.
    rewrite (Hval (m + 1)) by lia. rewrite E0, Hend.
    replace (m + 1 <? 0) with false by (symmetry; apply Z.ltb_ge; lia).
    replace (m <? 0) with false by (symmetry; apply Z.ltb_ge; lia).
    reflexivity.
Qed.

(** The pixel painted at a scan position is the one the run lengths
    describe. *)
Lemma fgAt_pixelValue n : fgAt cnts n = pixelValue cnts n.
Proof.
  destruct (tracks_skipRuns n _ (stateAt cnts n) eq_refl (tracks_stateAt n))
    as [[Hrr Hval] Hend].
  unfold fgAt, pixelValue. specialize (Hval 0 ltac:(lia)).
  rewrite Z.add_0_r in Hval. rewrite Hval.
  destruct Hend as [Hpos|Hend].
  - replace (0 <? runRemaining (skipRuns cnts (stateAt cnts n))) with true
      by (symmetry; apply Z.ltb_lt; lia).
    reflexivity.
  - rewrite Hend. destruct (0 <? _); reflexivity.
Qed.

End RunValues.

(** ** The bytes of the output buffer *)

Section Buffer.

Local Open Scope nat_scope.

Variable cnts : list Z.
Variables w h : nat.
Variable color : Z * Z * Z.

Lemma shows_init : shows color w h (fun _ _ => false) (transparentBlack w h).
Proof.
  split; [apply length_replicate|].
  intros x y c Hx Hy Hc. unfold transparentBlack, pixelBytes.
  destruct color as [[r g] b].
  rewrite lookup_replicate_2 by nia.
  destruct c as [|[|[|[|c]]]]; try reflexivity; lia.
Qed.

Lemma shows_ext fg fg' data :
  (forall x y, x < w -> y < h -> fg x y = fg' x y) ->
  shows color w h fg data -> shows color w h fg' data.
Proof.
  intros E [Hlen Hpx]. split; [exact Hlen|].
  intros x y c Hx Hy Hc. rewrite <- E by assumption. apply Hpx; assumption.
Qed.

Lemma paintedBelow_succ_other n x y :
  x * h + y <> n -> paintedBelow cnts h (S n) x y = paintedBelow cnts h n x y.
Proof. intros H. unfold paintedBelow. rewrite (ltb_succ_ne _ _ H). reflexivity. Qed.

Lemma paintedBelow_succ_here x y :
  paintedBelow cnts h (S (x * h + y)) x y = fgAt cnts (x * h + y).
Proof.
  unfold paintedBelow.
  replace (x * h + y <? S (x * h + y)) with true
    by (symmetry; apply Nat.ltb_lt; lia).
  reflexivity.
Qed.

Lemma paintedBelow_here x y : paintedBelow cnts h (x * h + y) x y = false.
Proof. unfold paintedBelow. rewrite Nat.ltb_irrefl. reflexivity. Qed.

Lemma rasterPixel_shows x y data :
  x < w -> y < h ->
  shows color w h (paintedBelow cnts h (x * h + y)) data ->
  exists data',
    rasterPixel cnts color w x y (stateAt cnts (x * h + y), data) =
      (stateAt cnts (S (x * h + y)), data') /\
    shows color w h (paintedBelow cnts h (S (x * h + y))) data'.
Proof.
  intros Hx Hy [Hlen Hpx].
  assert (forall x' y', x' < w -> y' < h -> y' * w + x' <> y * w + x ->
          x' * h + y' <> x * h + y) as Hother.
  { intros x' y' Hx' Hy' Hne E. apply Hne.
    destruct (pixel_index_inj h y' x' y x Hy' Hy E) as [-> ->]. reflexivity. }
  unfold rasterPixel.
  assert (fgAt cnts (x * h + y) = fgAt cnts (x * h + y)) as Hfg by reflexivity.
  unfold fgAt at 1 in Hfg.
  destruct (currentValue (skipRuns cnts (stateAt cnts (x * h + y))) =? 1)%Z.
  - destruct color as [[r g] b] eqn:Ecol.
    eexists. split; [reflexivity|]. split.
    + rewrite !length_insert. exact Hlen.
    + intros x' y' c Hx' Hy' Hc.
      destruct (Nat.eq_dec (y' * w + x') (y * w + x)) as [E|E].
      * apply pixel_index_inj in E as [-> ->]; try assumption.
        rewrite paintedBelow_succ_here, <- Hfg. cbn [pixelBytes].
        destruct c as [|[|[|[|c]]]]; [| | | |lia].
        -- rewrite Nat.add_0_r.
           rewrite !list_lookup_insert_ne by lia.
           rewrite list_lookup_insert_eq by nia. reflexivity.
        -- rewrite !list_lookup_insert_ne by lia.
           rewrite list_lookup_insert_eq by (rewrite !length_insert; nia).
           reflexivity.
        -- rewrite !list_lookup_insert_ne by lia.
           rewrite list_lookup_insert_eq by (rewrite !length_insert; nia).
           reflexivity.
        -- rewrite list_lookup_insert_eq by (rewrite !length_insert; nia).
           reflexivity.
      * rewrite !list_lookup_insert_ne by lia.
        rewrite paintedBelow_succ_other by (apply Hother; assumption).
        apply Hpx; assumption.
  - eexists. split; [reflexivity|]. split; [exact Hlen|].
    intros x' y' c Hx' Hy' Hc.
    destruct (Nat.eq_dec (y' * w + x') (y * w + x)) as [E|E].
    + apply pixel_index_inj in E as [-> ->]; try assumption.
      rewrite paintedBelow_succ_here, <- Hfg.
      rewrite Hpx, paintedBelow_here by assumption. reflexivity.
    + rewrite paintedBelow_succ_other by (apply Hother; assumption).
      apply Hpx; assumption.
Qed.

Lemma raster_column_shows x k data :
  x < w -> k <= h -> shows color w h (paintedBelow cnts h (x * h)) data ->
  exists data',
    foldl (fun acc y => rasterPixel cnts color w x y acc)
          (stateAt cnts (x * h), data) (seq 0 k) =
      (stateAt cnts (x * h + k), data') /\
    shows color w h (paintedBelow cnts h (x * h + k)) data'.
Proof.
  intros Hx. induction k as [|k IH]; intros Hk Hp.
  - exists data. rewrite Nat.add_0_r. split; [reflexivity|exact Hp].
  - destruct (IH ltac:(lia) Hp) as (d1 & E1 & P1).
    destruct (rasterPixel_shows x k d1 Hx ltac:(lia) P1) as (d2 & E2 & P2).
    exists d2. rewrite foldl_seq_S, E1, E2, Nat.add_succ_r.
    split; [reflexivity|exact P2].
Qed.

Lemma raster_columns_shows j :
  j <= w ->
  exists data',
    foldl (fun acc x =>
             foldl (fun acc y => rasterPixel cnts color w x y acc) acc (seq 0 h))
          (stateAt cnts 0, transparentBlack w h) (seq 0 j) =
      (stateAt cnts (j * h), data') /\
    shows color w h (paintedBelow cnts h (j * h)) data'.
Proof.
  induction j as [|j IH]; intros Hj.
  - eexists. split; [reflexivity|].
    apply (shows_ext (fun _ _ => false)); [|apply shows_init].
    intros x y _ _. reflexivity.
  - destruct (IH ltac:(lia)) as (d1 & E1 & P1).
    destruct (raster_column_shows j h d1 ltac:(lia) (Nat.le_refl h) P1)
      as (d2 & E2 & P2).
    exists d2. rewrite foldl_seq_S, E1, E2.
    replace (S j * h) with (j * h + h) by lia.
    split; [reflexivity|exact P2].
Qed.

(** The loops of [decodeRleToCanvas] leave a buffer that shows the painted
    scan positions in the color, and nothing else. *)
Lemma rasterLoops_shows :
  exists data,
    rasterLoops cnts color w h (initialRun cnts, transparentBlack w h) =
      (stateAt cnts (w * h), data) /\
    shows color w h (fun x y => fgAt cnts (x * h + y)) data.
Proof.
  unfold rasterLoops. change (initialRun cnts) with (stateAt cnts 0).
  destruct (raster_columns_shows w (Nat.le_refl w)) as (data & E & P).
  exists data. split; [exact E|].
  apply (shows_ext (paintedBelow cnts h (w * h))); [|exact P].
  intros x y Hx Hy. unfold paintedBelow.
  replace (x * h + y <? w * h) with true by (symmetry; apply Nat.ltb_lt; nia).
  reflexivity.
Qed.

(** A buffer is determined by the mask that it shows. *)
Lemma shows_unique fg fg' d1 d2 :
  shows color w h fg d1 -> shows color w h fg' d2 ->
  (forall x y, x < w -> y < h -> fg x y = fg' x y) ->
  d1 = d2.
Proof.
  intros [L1 P1] [L2 P2] E. apply list_eq. intros i.
  destruct (lt_dec i (4 * w * h)) as [Hi|Hi].
  - assert (0 < w) as Hw by nia.
    pose proof (Nat.div_mod i 4 ltac:(lia)) as Hi4.
    pose proof (Nat.mod_upper_bound i 4 ltac:(lia)) as Hc.
    pose proof (Nat.div_mod (i / 4) w ltac:(lia)) as Hp.
    pose proof (Nat.mod_upper_bound (i / 4) w ltac:(lia)) as Hx.
    assert (i / 4 / w < h) as Hy.
    { apply Nat.Div0.div_lt_upper_bound. apply Nat.Div0.div_lt_upper_bound. lia. }
    replace i with ((i / 4 / w * w + (i / 4) mod w) * 4 + i mod 4) by lia.
    rewrite P1, P2, E by assumption. reflexivity.
  - rewrite !lookup_ge_None_2 by lia. reflexivity.
Qed.

Lemma isForeground_shows fg data x y :
  shows color w h fg data -> x < w -> y < h ->
  isForeground {| width := w; height := h; pixels := data |} x y = fg x y.
Proof.
  intros [_ P] Hx Hy. unfold isForeground. simpl.
  rewrite (P x y 3 Hx Hy ltac:(lia)). unfold pixelBytes.
  destruct color as [[r g] b]. destruct (fg x y); reflexivity.
Qed.

End Buffer.

(** What [decodeRleToCanvas] returns for run lengths that are not empty and
    an image that has pixels. *)
Lemma decodeRleToCanvas_shows rle color cnts h w :
  size rle = (h, w) -> normalized (counts rle) = Some cnts -> cnts <> [] ->
  (0 < h)%nat -> (0 < w)%nat ->
  exists data,
    decodeRleToCanvas rle color =
      Normal (Some {| width := w; height := h; pixels := data |}) /\
    shows color w h (fun x y => fgAt cnts (x * h + y)) data.
Proof.
  intros Hsz Hn Hne Hh Hw.
  destruct (rasterLoops_shows cnts w h color) as (data & E & P).
  exists data. split; [|exact P].
  rewrite (decodeRleToCanvas_eq rle color h w Hsz), Hn.
  rewrite positive_size by assumption.
  replace (length cnts =? 0)%nat with false
    by (destruct cnts; [congruence|reflexivity]).
  rewrite E. reflexivity.
Qed.

Lemma decodeRleToCanvas_inv_shows rle color cv :
  decodeRleToCanvas rle color = Normal (Some cv) ->
  exists cnts data,
    normalized (counts rle) = Some cnts /\ cnts <> [] /\
    cv = {| width := snd (size rle); height := fst (size rle); pixels := data |} /\
    shows color (snd (size rle)) (fst (size rle))
          (fun x y => fgAt cnts (x * fst (size rle) + y)) data /\
    (0 < fst (size rle))%nat /\ (0 < snd (size rle))%nat.
Proof.
  intros H.
  destruct (decodeRleToCanvas_inv rle color cv H)
    as (cnts & data0 & Hn & Hne & _ & _ & Hh & Hw).
  destruct (size rle) as [h w] eqn:Hsz. cbn [fst snd] in *.
  destruct (decodeRleToCanvas_shows rle color cnts h w Hsz Hn Hne Hh Hw)
    as (data & E & P).
  exists cnts, data. rewrite E in H. injection H as <-.
  split; [exact Hn|]. split; [exact Hne|].
  split; [reflexivity|]. split; [exact P|]. split; assumption.
Qed.

Lemma byte_index_decompose (w h i : nat) :
  (i < 4 * w * h)%nat ->
  exists x y c, (x < w)%nat /\ (y < h)%nat /\ (c < 4)%nat /\
                i = ((y * w + x) * 4 + c)%nat.
Proof.
  intros Hi. assert (0 < w)%nat as Hw by nia.
  exists ((i / 4) mod w)%nat, (i / 4 / w)%nat, (i mod 4)%nat.
  pose proof (Nat.div_mod i 4 ltac:(lia)).
  pose proof (Nat.mod_upper_bound i 4 ltac:(lia)).
  pose proof (Nat.div_mod (i / 4) w ltac:(lia)).
  pose proof (Nat.mod_upper_bound (i / 4) w ltac:(lia)).
  assert (i / 4 / w < h)%nat
    by (apply Nat.Div0.div_lt_upper_bound; apply Nat.Div0.div_lt_upper_bound; lia).
  repeat split; lia.
Qed.

Lemma clamp8_range v : 0 <= clamp8 v <= 255.
Proof. unfold clamp8. lia. Qed.

(** X1: the returned canvas has the size of the RLE and 4 bytes per pixel;
    a foreground pixel holds the clamped color and the alpha 210, any other
    pixel holds four zero bytes; every byte is in 0..255. *)
Theorem raster_buffer_bytes (rle : COCORLE) (color : Z * Z * Z) (cv : Canvas) :
  decodeRleToCanvas rle color = Normal (Some cv) ->
  width cv = snd (size rle) /\ height cv = fst (size rle) /\
  length (pixels cv) = (4 * width cv * height cv)%nat /\
  (forall x y c, (x < width cv)%nat -> (y < height cv)%nat -> (c < 4)%nat ->
     pixels cv !! ((y * width cv + x) * 4 + c)%nat =
     pixelBytes color (isForeground cv x y) !! c) /\
  Forall (fun byte => 0 <= byte <= 255) (pixels cv).
Proof.
  intros H.
  destruct (decodeRleToCanvas_inv_shows rle color cv H)
    as (cnts & data & _ & _ & -> & P & _).
  set (w := snd (size rle)) in *. set (h := fst (size rle)) in *.
  cbn [width height pixels].
  assert (forall x y c, (x < w)%nat -> (y < h)%nat -> (c < 4)%nat ->
            data !! ((y * w + x) * 4 + c)%nat =
            pixelBytes color
              (isForeground {| width := w; height := h; pixels := data |} x y)
              !! c) as Hpx.
  { intros x y c Hx Hy Hc.
    rewrite (isForeground_shows w h color _ data x y P Hx Hy).
    apply P; assumption. }
  split; [reflexivity|]. split; [reflexivity|].
  split; [exact (proj1 P)|]. split; [exact Hpx|].
  apply Forall_lookup. intros i byte Hi.
  assert (i < 4 * w * h)%nat as Hlt
    by (rewrite <- (proj1 P); apply (lookup_lt_Some _ _ _ Hi)).
  destruct (byte_index_decompose w h i Hlt) as (x & y & c & Hx & Hy & Hc & ->).
  rewrite (Hpx x y c Hx Hy Hc) in Hi. unfold pixelBytes in Hi.
  destruct color as [[r g] b].
  pose proof (clamp8_range r). pose proof (clamp8_range g).
  pose proof (clamp8_range b).
  destruct (isForeground _ x y);
    destruct c as [|[|[|[|c]]]]; simpl in Hi; try discriminate;
    injection Hi as <-; lia.
Qed.

Lemma raster_buffer_bytes_witness :
  pixels (mkCanvas 2 2 [0;0;0;0; 10;20;255;210; 10;20;255;210; 0;0;0;0])
    !! ((1 * 2 + 0) * 4 + 2)%nat =
  pixelBytes (10, 20, 300)
    (isForeground (mkCanvas 2 2 [0;0;0;0; 10;20;255;210; 10;20;255;210; 0;0;0;0])
                  0 1) !! 2%nat.
Proof.
  exact (proj1 (proj2 (proj2 (proj2
    (raster_buffer_bytes (mkRLE (CountsArray [1; 2; 1]) (2, 2)%nat) (10, 20, 300)
       (mkCanvas 2 2 [0;0;0;0; 10;20;255;210; 10;20;255;210; 0;0;0;0])
       eq_refl)))) 0%nat 1%nat 2%nat ltac:(simpl; lia) ltac:(simpl; lia)
       ltac:(lia)).
Defined.

(** X2: the color does not change the outcome but for the colors of the
    pixels: with two colors the rasterizer returns a mask for the same
    RLEs, returns [null] for the same RLEs and throws for the same RLEs,
    and the same pixels are foreground in both masks. *)
Theorem raster_mask_is_color_free (rle : COCORLE) (color1 color2 : Z * Z * Z) :
  match decodeRleToCanvas rle color1, decodeRleToCanvas rle color2 with
  | Normal (Some cv1), Normal (Some cv2) =>
      width cv1 = width cv2 /\ height cv1 = height cv2 /\
      forall x y, (x < width cv1)%nat -> (y < height cv1)%nat ->
        isForeground cv1 x y = isForeground cv2 x y
  | Normal None, Normal None => True
  | Throw e1, Throw e2 => e1 = e2
  | _, _ => False
  end.
Proof.
  destruct (size rle) as [h w] eqn:Hsz.
  rewrite !(decodeRleToCanvas_eq rle _ h w Hsz).
  destruct (normalized (counts rle)) as [cnts|]; [|exact I].
  destruct ((w =? 0) || (h =? 0))%nat; [reflexivity|].
  destruct (length cnts =? 0)%nat; [exact I|].
  destruct (rasterLoops_shows cnts w h color1) as (d1 & -> & P1).
  destruct (rasterLoops_shows cnts w h color2) as (d2 & -> & P2).
  cbn [snd width height].
  split; [reflexivity|]. split; [reflexivity|].
  intros x y Hx Hy.
  rewrite (isForeground_shows _ _ _ _ d1 x y P1 Hx Hy).
  rewrite (isForeground_shows _ _ _ _ d2 x y P2 Hx Hy). reflexivity.
Qed.

(** ** Run lengths that do not fill the image, or run past it *)

Section RunLengths.

Lemma valueAt_beyond l :
  Forall (fun c => 0 <= c) l ->
  forall last i n, sumList l <= n ->
    valueAt last i l n =
    match l with [] => last | _ => Nat.odd (i + length l - 1) end.
Proof.
  induction 1 as [|c l Hc Hl IH]; intros last i n Hn; [reflexivity|].
  pose proof (sumList_nonneg l Hl). simpl in Hn. cbn [valueAt].
  replace (n <? c) with false by (symmetry; apply Z.ltb_ge; lia).
  rewrite IH by lia. destruct l as [|c' l'].
  - simpl. f_equal. lia.
  - f_equal. simpl. lia.
Qed.

Lemma valueAt_app l1 l2 :
  Forall (fun c => 0 <= c) l1 ->
  forall last i n, 0 <= n < sumList l1 ->
    valueAt last i (l1 ++ l2) n = valueAt last i l1 n.
Proof.
  induction 1 as [|c l Hc Hl IH]; intros last i n Hn; simpl in *; [lia|].
  destruct (Z.ltb_spec n c); [reflexivity|]. apply IH. lia.
Qed.

End RunLengths.

(** X3: for run lengths that are non-negative and an image that has
    pixels, the buffer shows the mask that they describe: the pixel at column [x] and row [y] has the parity
    of the run in which the scan position [x * h + y] falls, and past the
    last run the parity of the last run. *)
Theorem raster_follows_runs (cnts : list Z) (h w : nat) (color : Z * Z * Z) :
  Forall (fun c => 0 <= c) cnts -> cnts <> [] ->
  (0 < h)%nat -> (0 < w)%nat ->
  exists data,
    decodeRleToCanvas (mkRLE (CountsArray cnts) (h, w)) color =
      Normal (Some {| width := w; height := h; pixels := data |}) /\
    shows color w h (fun x y => pixelValue cnts (x * h + y)) data.
Proof.
  intros Hnn Hne Hh Hw.
  destruct (decodeRleToCanvas_shows (mkRLE (CountsArray cnts) (h, w)) color
              cnts h w eq_refl eq_refl Hne Hh Hw) as (data & E & P).
  exists data. split; [exact E|].
  apply (shows_ext w h color (fun x y => fgAt cnts (x * h + y))); [|exact P].
  intros x y _ _. apply fgAt_pixelValue. exact Hnn.
Qed.

Lemma raster_follows_runs_witness :
  exists data,
    decodeRleToCanvas (mkRLE (CountsArray [1; 2; 1]) (2, 2)%nat) (1, 2, 3) =
      Normal (Some {| width := 2; height := 2; pixels := data |}) /\
    shows (1, 2, 3) 2 2 (fun x y => pixelValue [1; 2; 1] (x * 2 + y)) data.
Proof.
  apply (raster_follows_runs [1; 2; 1] 2 2 (1, 2, 3)).
  - repeat constructor; lia.
  - discriminate.
  - lia.
  - lia.
Defined.

(** X4: when non-negative run lengths add up to less than the image (an
    image that has pixels), every
    pixel at a scan position from their sum on takes the value of the last
    run: foreground when the number of runs is even, background when it is
    odd. *)
Theorem raster_undershoot_tail (cnts : list Z) (h w : nat) (color : Z * Z * Z) :
  Forall (fun c => 0 <= c) cnts -> cnts <> [] ->
  (0 < h)%nat -> (0 < w)%nat ->
  exists cv,
    decodeRleToCanvas (mkRLE (CountsArray cnts) (h, w)) color
      = Normal (Some cv) /\
    forall x y, (x < w)%nat -> (y < h)%nat ->
      sumList cnts <= Z.of_nat (x * h + y) ->
      isForeground cv x y = Nat.even (length cnts).
Proof.
  intros Hnn Hne Hh Hw.
  destruct (decodeRleToCanvas_shows (mkRLE (CountsArray cnts) (h, w)) color
              cnts h w eq_refl eq_refl Hne Hh Hw) as (data & E & P).
  eexists. split; [exact E|].
  intros x y Hx Hy Hsum.
  rewrite (isForeground_shows _ _ _ _ data x y P Hx Hy).
  rewrite (fgAt_pixelValue cnts Hnn). unfold pixelValue.
  rewrite (valueAt_beyond cnts Hnn) by exact Hsum.
  destruct cnts as [|c l]; [contradiction|].
  cbn [length]. replace (0 + S (length l) - 1)%nat with (length l) by lia.
  rewrite Nat.even_succ. reflexivity.
Qed.

Lemma raster_undershoot_tail_witness :
  exists cv,
    decodeRleToCanvas (mkRLE (CountsArray [1; 1; 1]) (2, 2)%nat) (1, 2, 3)
      = Normal (Some cv) /\
    forall x y, (x < 2)%nat -> (y < 2)%nat ->
      sumList [1; 1; 1] <= Z.of_nat (x * 2 + y) ->
      isForeground cv x y = Nat.even (length [1; 1; 1]).
Proof.
  apply (raster_undershoot_tail [1; 1; 1] 2 2 (1, 2, 3)).
  - repeat constructor; lia.
  - discriminate.
  - lia.
  - lia.
Defined.

Lemma maskSum_same cnts1 cnts2 w h (g : nat -> nat -> Z) :
  (forall n, (n < w * h)%nat -> fgAt cnts1 n = fgAt cnts2 n) ->
  maskSum cnts1 w h g = maskSum cnts2 w h g.
Proof.
  intros Hfg. unfold maskSum. apply sumTo_ext. intros x Hx.
  apply sumTo_ext. intros y Hy. rewrite Hfg by nia. reflexivity.
Qed.

(** Two run-length lists that describe the same pixels give the same
    outcome of the rasterizer and the same centroid. *)
Lemma same_mask_same_results (cnts1 cnts2 : list Z) (h w : nat) (color : Z * Z * Z) :
  cnts1 <> [] -> cnts2 <> [] ->
  (forall n, (n < w * h)%nat -> fgAt cnts1 n = fgAt cnts2 n) ->
  decodeRleToCanvas (mkRLE (CountsArray cnts1) (h, w)) color =
  decodeRleToCanvas (mkRLE (CountsArray cnts2) (h, w)) color /\
  calculateCentroid (mkRLE (CountsArray cnts1) (h, w)) =
  calculateCentroid (mkRLE (CountsArray cnts2) (h, w)).
Proof.
  intros Hne1 Hne2 Hfg. split.
  - rewrite (decodeRleToCanvas_eq (mkRLE (CountsArray cnts1) (h, w)) color h w
               eq_refl).
    rewrite (decodeRleToCanvas_eq (mkRLE (CountsArray cnts2) (h, w)) color h w
               eq_refl).
    cbn [normalized counts].
    destruct ((w =? 0) || (h =? 0))%nat; [reflexivity|].
    replace (length cnts1 =? 0)%nat with false
      by (destruct cnts1; [congruence|reflexivity]).
    replace (length cnts2 =? 0)%nat with false
      by (destruct cnts2; [congruence|reflexivity]).
    destruct (rasterLoops_shows cnts1 w h color) as (d1 & -> & P1).
    destruct (rasterLoops_shows cnts2 w h color) as (d2 & -> & P2).
    cbn [snd]. do 3 f_equal.
    apply (shows_unique w h color _ _ d1 d2 P1 P2).
    intros x y Hx Hy. apply Hfg. nia.
  - rewrite (calculateCentroid_eq (mkRLE (CountsArray cnts1) (h, w)) h w eq_refl).
    rewrite (calculateCentroid_eq (mkRLE (CountsArray cnts2) (h, w)) h w eq_refl).
    cbn [normalized counts].
    replace (length cnts1 =? 0)%nat with false
      by (destruct cnts1; [congruence|reflexivity]).
    replace (length cnts2 =? 0)%nat with false
      by (destruct cnts2; [congruence|reflexivity]).
    unfold scanCentroid. rewrite !(maskSum_same cnts1 cnts2 w h _ Hfg).
    reflexivity.
Qed.

(** X5: run lengths after the ones that already fill the image are never
    used: appending any further non-negative runs changes neither the
    canvas nor the centroid. *)
Theorem raster_ignores_overshoot (l1 l2 : list Z) (h w : nat) (color : Z * Z * Z) :
  Forall (fun c => 0 <= c) (l1 ++ l2) -> l1 <> [] ->
  Z.of_nat (w * h) <= sumList l1 ->
  decodeRleToCanvas (mkRLE (CountsArray (l1 ++ l2)) (h, w)) color =
  decodeRleToCanvas (mkRLE (CountsArray l1) (h, w)) color /\
  calculateCentroid (mkRLE (CountsArray (l1 ++ l2)) (h, w)) =
  calculateCentroid (mkRLE (CountsArray l1) (h, w)).
Proof.
  intros Hnn Hne Hsum.
  pose proof (proj1 (Forall_app _ _ _) Hnn) as [Hnn1 _].
  apply same_mask_same_results; [destruct l1; [congruence|discriminate]|exact Hne|].
  intros n Hn.
  rewrite (fgAt_pixelValue _ Hnn), (fgAt_pixelValue _ Hnn1).
  unfold pixelValue. apply valueAt_app; [exact Hnn1|lia].
Qed.

Lemma raster_ignores_overshoot_witness :
  decodeRleToCanvas (mkRLE (CountsArray ([1; 2; 1] ++ [5; 7])) (2, 2)%nat) (1, 2, 3) =
  decodeRleToCanvas (mkRLE (CountsArray [1; 2; 1]) (2, 2)%nat) (1, 2, 3) /\
  calculateCentroid (mkRLE (CountsArray ([1; 2; 1] ++ [5; 7])) (2, 2)%nat) =
  calculateCentroid (mkRLE (CountsArray [1; 2; 1]) (2, 2)%nat).
Proof.
  apply (raster_ignores_overshoot [1; 2; 1] [5; 7] 2 2 (1, 2, 3)).
  - repeat constructor; lia.
  - discriminate.
  - simpl. lia.
Defined.

(** ** A first run length that is negative *)

Lemma stateAt_negative c rest n :
  c < 0 -> stateAt (c :: rest) n = initialRun (c :: rest).
Proof.
  intros Hc. induction n as [|n IH]; [reflexivity|].
  cbn [stateAt]. rewrite IH. rewrite skipRuns_eq.
  unfold initialRun at 1. cbn [runRemaining nth].
  replace (c =? 0) with false by (symmetry; apply Z.eqb_neq; lia).
  unfold consume, initialRun. cbn [runRemaining nth].
  replace (0 <? c) with false by (symmetry; apply Z.ltb_ge; lia).
  reflexivity.
Qed.

Lemma fgAt_negative c rest n : c < 0 -> fgAt (c :: rest) n = false.
Proof.
  intros Hc. unfold fgAt. rewrite (stateAt_negative c rest n Hc).
  rewrite skipRuns_eq. unfold initialRun. cbn [runRemaining nth].
  replace (c =? 0) with false by (symmetry; apply Z.eqb_neq; lia).
  reflexivity.
Qed.

(** X6: when the first run length is negative, no run is ever consumed:
    for an image that has pixels the canvas is returned with every byte
    zero (for one without, [createImageData] throws), and there is no
    centroid, whatever the other run lengths are. *)
Theorem negative_first_run_blank (c : Z) (rest : list Z) (h w : nat)
    (color : Z * Z * Z) :
  c < 0 ->
  decodeRleToCanvas (mkRLE (CountsArray (c :: rest)) (h, w)) color =
    (if ((w =? 0) || (h =? 0))%nat then Throw "IndexSizeError"
     else Normal (Some {| width := w; height := h;
                          pixels := transparentBlack w h |})) /\
  calculateCentroid (mkRLE (CountsArray (c :: rest)) (h, w)) = Normal None.
Proof.
  intros Hc. split.
  - rewrite (decodeRleToCanvas_eq (mkRLE (CountsArray (c :: rest)) (h, w))
               color h w eq_refl).
    cbn [normalized counts].
    destruct ((w =? 0) || (h =? 0))%nat; [reflexivity|].
    cbn [length Nat.eqb].
    destruct (rasterLoops_shows (c :: rest) w h color) as (data & -> & P).
    cbn [snd]. do 3 f_equal.
    apply (shows_unique w h color _ _ _ _ P (shows_init w h color)).
    intros x y _ _. apply fgAt_negative. exact Hc.
  - rewrite (calculateCentroid_eq (mkRLE (CountsArray (c :: rest)) (h, w)) h w
               eq_refl).
    cbn [normalized counts length].
    change (S (length rest) =? 0)%nat with false. cbv iota.
    unfold scanCentroid.
    assert (maskSum (c :: rest) w h (fun _ _ => 1) = 0) as ->; [|reflexivity].
    unfold maskSum.
    rewrite (sumTo_ext w _ (fun _ => 0)); [apply sumTo_zero|].
    intros x _. rewrite (sumTo_ext h _ (fun _ => 0)); [apply sumTo_zero|].
    intros y _. rewrite (fgAt_negative c rest _ Hc). reflexivity.
Qed.

Lemma negative_first_run_blank_witness :
  decodeRleToCanvas (mkRLE (CountsArray [-1; 2; 1]) (2, 2)%nat) (1, 2, 3) =
    (if ((2 =? 0) || (2 =? 0))%nat then Throw "IndexSizeError"
     else Normal (Some {| width := 2; height := 2;
                          pixels := transparentBlack 2 2 |})) /\
  calculateCentroid (mkRLE (CountsArray [-1; 2; 1]) (2, 2)%nat) = Normal None.
Proof. apply (negative_first_run_blank (-1) [2; 1] 2 2 (1, 2, 3)). lia. Defined.

(** ** Masks without a foreground pixel *)






(** ** The centroid lies inside the image *)

Lemma sumTo_le n (f g : nat -> Z) :
  (forall i, (i < n)%nat -> f i <= g i) -> sumTo n f <= sumTo n g.
Proof.
  induction n as [|n IH]; intros H; simpl; [lia|].
  pose proof (IH ltac:(intros; apply H; lia)). pose proof (H n ltac:(lia)). lia.
Qed.

Lemma sumTo_scale n k (f : nat -> Z) :
  sumTo n (fun i => k * f i) = k * sumTo n f.
Proof. induction n as [|n IH]; simpl; [lia|]. rewrite IH. lia. Qed.

Lemma maskSum_between cnts w h (g : nat -> nat -> Z) (lo hi : Z) :
  (forall x y, (x < w)%nat -> (y < h)%nat -> lo <= g x y <= hi) ->
  lo * maskSum cnts w h (fun _ _ => 1) <= maskSum cnts w h g
    <= hi * maskSum cnts w h (fun _ _ => 1).
Proof.
  intros Hg. unfold maskSum.
  rewrite <- !sumTo_scale.
  split; apply sumTo_le; intros x Hx; rewrite <- sumTo_scale;
    apply sumTo_le; intros y Hy; pose proof (Hg x y Hx Hy);
    destruct (fgAt cnts (x * h + y)); lia.
Qed.

Lemma quotient_between (a n lo hi : Z) :
  0 < n -> lo * n <= a <= hi * n ->
  (inject_Z lo <= quotient a n <= inject_Z hi)%Q.
Proof.
  intros Hn [Hlo Hhi]. unfold quotient.
  assert (0 < inject_Z n)%Q as Hq by (rewrite (Zlt_Qlt 0 n) in Hn; exact Hn).
  split.
  - apply Qle_shift_div_l; [exact Hq|].
    rewrite <- inject_Z_mult. rewrite <- Zle_Qle. exact Hlo.
  - apply Qle_shift_div_r; [exact Hq|].
    rewrite <- inject_Z_mult. rewrite <- Zle_Qle. exact Hhi.
Qed.

Lemma maskSum_count_nonneg cnts w h : 0 <= maskSum cnts w h (fun _ _ => 1).
Proof.
  assert (forall n f, (forall i, (i < n)%nat -> 0 <= f i) -> 0 <= sumTo n f)
    as Hnn.
  { intros n f Hf. rewrite <- (sumTo_zero n). apply sumTo_le. exact Hf. }
  unfold maskSum. apply Hnn. intros x _. apply Hnn. intros y _.
  destruct (fgAt cnts (x * h + y)); lia.
Qed.

(** X7: a centroid, when there is one, lies inside the image: its [x] is
    between 0 and the width minus 1 and its [y] between 0 and the height
    minus 1. *)
Theorem centroid_within_image (rle : COCORLE) (p : Point) :
  calculateCentroid rle = Normal (Some p) ->
  (0 <= px p <= inject_Z (Z.of_nat (snd (size rle)) - 1))%Q /\
  (0 <= py p <= inject_Z (Z.of_nat (fst (size rle)) - 1))%Q.
Proof.
  intros H.
  rewrite (calculateCentroid_eq rle (fst (size rle)) (snd (size rle)))
    in H by (destruct (size rle); reflexivity).
  set (w := snd (size rle)) in *. set (h := fst (size rle)) in *.
  destruct (normalized (counts rle)) as [cnts|]; [|discriminate].
  destruct (length cnts =? 0)%nat; [discriminate|].
  unfold scanCentroid in H.
  pose proof (maskSum_count_nonneg cnts w h) as Hn.
  destruct (Z.eqb_spec (maskSum cnts w h (fun _ _ => 1)) 0) as [|Hne];
    [discriminate|].
  injection H as <-. cbn [px py]. split.
  - apply (quotient_between _ _ 0 (Z.of_nat w - 1)); [lia|].
    apply maskSum_between. intros; lia.
  - apply (quotient_between _ _ 0 (Z.of_nat h - 1)); [lia|].
    apply maskSum_between. intros; lia.
Qed.

Lemma centroid_within_image_witness :
  (0 <= px {| px := 1 # 2; py := 1 # 2 |} <= inject_Z (Z.of_nat 2 - 1))%Q /\
  (0 <= py {| px := 1 # 2; py := 1 # 2 |} <= inject_Z (Z.of_nat 2 - 1))%Q.
Proof.
  apply (centroid_within_image (mkRLE (CountsArray [1; 2; 1]) (2, 2)%nat)
           {| px := 1 # 2; py := 1 # 2 |}).
  vm_compute. reflexivity.
Defined.

(** ** The tree of any list of images *)

Section AnyImages.

Lemma buildFileTree_app l1 l2 :
  buildFileTree (l1 ++ l2) = foldl insertImage (buildFileTree l1) l2.
Proof. unfold buildFileTree. apply foldl_app. Qed.

Lemma buildFileTree_snoc l img :
  buildFileTree (l ++ [img]) = insertImage (buildFileTree l) img.
Proof. rewrite buildFileTree_app. reflexivity. Qed.

Lemma root_header imgs : header (buildFileTree imgs) = header emptyRoot.
Proof.
  induction imgs as [|img imgs IH] using rev_ind; [reflexivity|].
  rewrite buildFileTree_snoc. unfold insertImage.
  rewrite insertParts_header. exact IH.
Qed.

Lemma nodeOf_header l q n m :
  header n = header m -> nodeOf l q m -> nodeOf l q n.
Proof.
  unfold header, nodeOf. intros H. injection H as -> -> -> ->. tauto.
Qed.

Lemma nodeOf_mono l l' q n :
  (forall img, In img l -> In img l') -> nodeOf l q n -> nodeOf l' q n.
Proof.
  intros Hsub (Hn & Hp & Hd & img & r & Hin & Hs).
  split; [exact Hn|]. split; [exact Hp|]. split.
  - destruct (data n) as [im|]; [|exact Hd].
    destruct Hd as (? & ? & ?). auto.
  - exists img, r. auto.
Qed.

Lemma nodeOf_insert done t img :
  (forall q n, q <> [] -> lookupPath t q = Some n -> nodeOf done q n) ->
  forall q n, q <> [] -> lookupPath (insertImage t img) q = Some n ->
    nodeOf (done ++ [img]) q n.
Proof.
  intros IH q n Hq Hn. unfold insertImage in Hn.
  assert (In img (done ++ [img])) as Hin by (apply in_or_app; right; left; reflexivity).
  assert (forall im, In im done -> In im (done ++ [img])) as Hsub
    by (intros; apply in_or_app; left; assumption).
  destruct (lookup_insert_cases img _ "" t q n (split_nonempty _) Hq Hn)
    as [(-> & ->)|[(r & Hr & Hparts & _ & Hm)|(_ & _ & Hold)]].
  - split; [reflexivity|]. split; [reflexivity|]. cbn [data type]. split.
    + split; [reflexivity|]. split; [exact Hin|reflexivity].
    + exists img, []. split; [exact Hin|]. unfold segments.
      symmetry. apply app_nil_r.
  - destruct (lookupPath t q) as [m|] eqn:Em.
    + apply (nodeOf_header _ _ _ m Hm). apply (nodeOf_mono done); [exact Hsub|].
      apply IH; assumption.
    + unfold header in Hm. injection Hm as Hname Hty Hdata Hpath.
      split; [exact Hname|]. split; [exact Hpath|]. rewrite Hdata.
      split; [exact Hty|]. exists img, r. split; [exact Hin|exact Hparts].
  - apply (nodeOf_mono done); [exact Hsub|]. apply IH; assumption.
Qed.

Lemma nodeOf_build imgs :
  forall q n, q <> [] -> lookupPath (buildFileTree imgs) q = Some n ->
    nodeOf imgs q n.
Proof.
  induction imgs as [|img imgs IH] using rev_ind; intros q n Hq Hn.
  - destruct q as [|k q]; [congruence|]. discriminate Hn.
  - rewrite buildFileTree_snoc in Hn. apply (nodeOf_insert imgs _ img IH q n Hq Hn).
Qed.

End AnyImages.

(** X8: for any list of images (with repeated names, or a file name that
    is a folder of another), every node below the root has for name its
    last key and for path string the keys joined with ["/"] (leading empty
    keys dropped); a node carries an image exactly when it is a file node,
    and then an image of the list whose file name splits into the keys; and
    every node lies on the path of some image of the list. *)
Theorem tree_nodes_of_any_images (imgs : list COCOImage) (q : list string)
    (n : TreeNode) :
  q <> [] -> lookupPath (buildFileTree imgs) q = Some n ->
  name n = List.last q EmptyString /\
  path n = JSString.join "/" (dropEmpty q) /\
  (type n = file <-> data n <> None) /\
  (forall img, data n = Some img -> In img imgs /\ JSString.split (file_name img) = q) /\
  exists img r, In img imgs /\ JSString.split (file_name img) = q ++ r.
Proof.
  intros Hq Hn.
  destruct (nodeOf_build imgs q n Hq Hn) as (Hname & Hpath & Hdata & Himg).
  split; [exact Hname|]. split; [rewrite Hpath; apply pathFrom_join|].
  split; [|split; [|exact Himg]].
  - destruct (data n) as [img|].
    + destruct Hdata as (-> & _). split; [discriminate|reflexivity].
    + rewrite Hdata. split; [discriminate|congruence].
  - intros img E. rewrite E in Hdata. destruct Hdata as (_ & Hin & Hs).
    split; assumption.
Qed.

Lemma tree_nodes_of_any_images_witness :
  name (mkNode "a" file None (Some (mkImage (IdNum 2) "d/a")) "d/a") =
    List.last ["d"; "a"]%string EmptyString /\
  path (mkNode "a" file None (Some (mkImage (IdNum 2) "d/a")) "d/a") =
    JSString.join "/" (dropEmpty ["d"; "a"]%string) /\
  (type (mkNode "a" file None (Some (mkImage (IdNum 2) "d/a")) "d/a") = file <->
   data (mkNode "a" file None (Some (mkImage (IdNum 2) "d/a")) "d/a") <> None) /\
  (forall img,
     data (mkNode "a" file None (Some (mkImage (IdNum 2) "d/a")) "d/a") = Some img ->
     In img [mkImage (IdNum 1) "d/a"; mkImage (IdNum 2) "d/a"] /\
     JSString.split (file_name img) = ["d"; "a"]%string) /\
  exists img r,
    In img [mkImage (IdNum 1) "d/a"; mkImage (IdNum 2) "d/a"] /\
    JSString.split (file_name img) = ["d"%string; "a"%string] ++ r.
Proof.
  apply (tree_nodes_of_any_images
           [mkImage (IdNum 1) "d/a"; mkImage (IdNum 2) "d/a"]
           ["d"; "a"]%string).
  - discriminate.
  - reflexivity.
Defined.

(** ** Images that stay in the tree, images that drop out of it *)

Section Overwriting.







End Overwriting.



(** X10: inserting an image replaces whatever was under the parts of its
    file name: right after it, no node lies below its file node, so a
    folder of earlier images with that path is gone with everything in
    it. *)
Theorem file_replaces_folder (l : list COCOImage) (img : COCOImage)
    (r : list string) :
  r <> [] ->
  lookupPath (buildFileTree (l ++ [img])) (JSString.split (file_name img) ++ r)
    = None.
Proof.
  intros Hr. rewrite buildFileTree_snoc. unfold insertImage.
  apply lookup_insert_beyond; [apply split_nonempty|exact Hr].
Qed.

Lemma file_replaces_folder_witness :
  lookupPath (buildFileTree ([mkImage (IdNum 1) "a/x"] ++ [mkImage (IdNum 2) "a"]))
             (JSString.split (file_name (mkImage (IdNum 2) "a")) ++ ["x"%string])
    = None.
Proof.
  apply (file_replaces_folder [mkImage (IdNum 1) "a/x"] (mkImage (IdNum 2) "a")
           ["x"%string]).
  discriminate.
Defined.



(** ** The search of the tree tab *)

Section Search.

Lemma prefix_occurs sub s :
  String.prefix sub s = true <-> exists b, s = (sub ++ b)%string.
Proof.
  revert s. induction sub as [|c sub IH]; intros s.
  - split; [intros _; exists s; reflexivity|destruct s; reflexivity].
  - destruct s as [|d s]; cbn [String.prefix].
    + split; [discriminate|intros (b & E); discriminate E].
    + destruct (ascii_dec c d) as [<-|Hne].
      * rewrite IH. split; intros (b & E); exists b.
        -- simpl. rewrite E. reflexivity.
        -- simpl in E. injection E as E. exact E.
      * split; [discriminate|]. intros (b & E). simpl in E. congruence.
Qed.

Lemma includes_occurs s sub :
  JSStringMore.includes s sub = true <-> occursIn sub s.
Proof.
  induction s as [|c s IH].
  - cbn [JSStringMore.includes]. rewrite orb_false_r. rewrite prefix_occurs.
    split.
    + intros (b & E). exists EmptyString, b. exact E.
    + intros ([|x a] & b & E); [exists b; exact E|discriminate E].
  - cbn [JSStringMore.includes]. rewrite orb_true_iff, IH, prefix_occurs.
    split.
    + intros [(b & E)|(a & b & E)].
      * exists EmptyString, b. exact E.
      * exists (String c a), b. simpl. rewrite E. reflexivity.
    + intros ([|x a] & b & E).
      * left. exists b. exact E.
      * right. exists a, b. simpl in E. injection E as _ E. exact E.
Qed.

Lemma toLowerCase_empty s :
  JSString.toLowerCase s = EmptyString <-> s = EmptyString.
Proof. destruct s; simpl; split; congruence. Qed.

Lemma searched_subset doc treeSearch img :
  In img (searchedImages doc treeSearch) -> In img (images doc).
Proof.
  unfold searchedImages. destruct treeSearch; [trivial|].
  intros H. apply filter_In in H. tauto.
Qed.

End Search.

(** X12: with an empty search text the tree is built from all images of
    the document; otherwise from the images, in their order, whose
    lower-cased file name or whose id as text contains the lower-cased
    search text. *)
Theorem search_keeps_the_matches (doc : COCOJson) (treeSearch : string) :
  searchedImages doc EmptyString = images doc /\
  sublist (searchedImages doc treeSearch) (images doc) /\
  (treeSearch <> EmptyString ->
   forall img,
     In img (searchedImages doc treeSearch) <->
     In img (images doc) /\
     (occursIn (JSString.toLowerCase treeSearch)
               (JSString.toLowerCase (file_name img)) \/
      occursIn (JSString.toLowerCase treeSearch) (idToString (id img)))).
Proof.
  split; [reflexivity|]. split.
  - unfold searchedImages. destruct treeSearch; [reflexivity|].
    induction (images doc) as [|im l IH]; [constructor|].
    cbn [List.filter]. destruct (matchesSearch _ im); constructor; exact IH.
  - intros Hne img. unfold searchedImages.
    destruct treeSearch as [|c s]; [congruence|].
    rewrite filter_In. unfold matchesSearch.
    rewrite orb_true_iff, !includes_occurs. reflexivity.
Qed.

(** X13: the search does not look at the letter case of the search text:
    two search texts with the same lower-case form give the same tree. *)
Theorem search_ignores_case_of_text (data : option COCOJson) (s1 s2 : string) :
  JSString.toLowerCase s1 = JSString.toLowerCase s2 ->
  fileTree data s1 = fileTree data s2.
Proof.
  intros E. destruct data as [doc|]; [|reflexivity].
  unfold fileTree, searchedImages.
  destruct s1 as [|c1 s1], s2 as [|c2 s2]; try reflexivity; try discriminate E.
  rewrite E. reflexivity.
Qed.

Lemma search_ignores_case_of_text_witness :
  fileTree (Some doc1) "Brain" = fileTree (Some doc1) "bRAIN".
Proof. apply (search_ignores_case_of_text (Some doc1) "Brain" "bRAIN"). reflexivity. Defined.

(** X14: every file node of the tree drawn for a search text carries an
    image of the document, stored under the parts of its file name, that
    matches the search. *)
Theorem searched_tree_shows_matches (doc : COCOJson) (treeSearch : string)
    (root n : TreeNode) (q : list string) (img : COCOImage) :
  fileTree (Some doc) treeSearch = Some root ->
  lookupPath root q = Some n -> data n = Some img ->
  In img (images doc) /\ JSString.split (file_name img) = q /\
  (treeSearch = EmptyString \/
   matchesSearch (JSString.toLowerCase treeSearch) img = true).
Proof.
  intros Hroot Hn Hdata. injection Hroot as <-.
  destruct q as [|k q].
  - injection Hn as <-.
    pose proof (root_header (searchedImages doc treeSearch)) as Hh.
    unfold header in Hh. cbn [fileTree] in Hdata. simpl in Hh. congruence.
  - destruct (nodeOf_build _ (k :: q) n ltac:(discriminate) Hn)
      as (_ & _ & Hd & _).
    rewrite Hdata in Hd. destruct Hd as (_ & Hin & Hs).
    split; [exact (searched_subset _ _ _ Hin)|]. split; [exact Hs|].
    unfold searchedImages in Hin. destruct treeSearch; [left; reflexivity|].
    right. apply filter_In in Hin. tauto.
Qed.

Lemma searched_tree_shows_matches_witness :
  In (mkImage (IdNum 7) "CT/brain/scan_001.png") (images doc1) /\
  JSString.split (file_name (mkImage (IdNum 7) "CT/brain/scan_001.png")) =
    ["CT"; "brain"; "scan_001.png"]%string /\
  ("Brain"%string = EmptyString \/
   matchesSearch (JSString.toLowerCase "Brain")
     (mkImage (IdNum 7) "CT/brain/scan_001.png") = true).
Proof.
  apply (searched_tree_shows_matches doc1 "Brain"
           (buildFileTree (images doc1))
           (mkNode "scan_001.png" file None
              (Some (mkImage (IdNum 7) "CT/brain/scan_001.png"))
              "CT/brain/scan_001.png")
           ["CT"; "brain"; "scan_001.png"]%string).
  - reflexivity.
  - reflexivity.
  - reflexivity.
Defined.

(** ** The states of the application *)

Section States.

Lemma consistent_initial : consistent initialState.
Proof.
  split; [split; reflexivity|]. split; [discriminate|].
  split; [discriminate|discriminate].
Qed.

Lemma consistent_json st parsed :
  consistent st -> consistent (handleJsonUpload st parsed).
Proof.
  intros (H1 & H2 & H3 & H4). unfold handleJsonUpload.
  destruct parsed as [json|message].
  - destruct (parsedImages json) as [imgs|];
      [destruct (parsedAnnotations json) as [anns|];
       [destruct (parsedCategories json) as [cats|]|]|];
      try (split; [exact H1|split; [exact H2|split; [exact H3|exact H4]]]).
    split; [split; reflexivity|]. split; [discriminate|].
    split; [discriminate|]. cbn [cocoData]. discriminate.
  - split; [exact H1|split; [exact H2|split; [exact H3|exact H4]]].
Qed.

Lemma consistent_image st fileName :
  consistent st -> consistent (handleImageUpload st fileName).
Proof.
  intros (H1 & H2 & H3 & H4). unfold handleImageUpload.
  destruct (cocoData st) as [doc|] eqn:Hdoc.
  - cbv zeta.
    destruct (find _ (images doc)) as [m|] eqn:Hfind.
    + apply find_some in Hfind as [Hin _].
      split; [split; discriminate|]. cbn [matchedImageId cocoData selectedTreeImage activeTab].
      split; [|split; [|discriminate]].
      * intros i Hi. injection Hi as <-. exists doc, m. auto.
      * intros img Hs. destruct (H3 img Hs) as (doc' & E & Hi).
        exists doc'. split; [exact E|exact Hi].
    + split; [split; reflexivity|].
      cbn [matchedImageId cocoData selectedTreeImage activeTab].
      split; [discriminate|]. split; [|intros _; discriminate].
      intros img Hs. destruct (H3 img Hs) as (doc' & E & Hi).
      exists doc'. split; [exact E|exact Hi].
  - split; [exact H1|]. cbn [matchedImageId cocoData selectedTreeImage activeTab].
    split; [|split; [|exact H4]].
    + intros i Hi. destruct (H2 i Hi) as (doc' & img & E & _). discriminate E.
    + intros img Hs. destruct (H3 img Hs) as (doc' & E & _). discriminate E.
Qed.

Lemma consistent_tab st tab : consistent st -> consistent (clickTab st tab).
Proof.
  intros Hc. unfold clickTab.
  destruct tab.
  - destruct Hc as (H1 & H2 & H3 & H4).
    split; [exact H1|split; [exact H2|split; [exact H3|discriminate]]].
  - destruct (cocoData st) eqn:E; [|exact Hc].
    destruct Hc as (H1 & H2 & H3 & H4).
    split; [exact H1|]. cbn [matchedImageId cocoData selectedTreeImage activeTab].
    rewrite E in *.
    split; [exact H2|split; [exact H3|discriminate]].
Qed.

Lemma consistent_row st treeSearch keys :
  consistent st -> consistent (clickRow st treeSearch keys).
Proof.
  intros Hc. unfold clickRow.
  destruct (activeTab st) eqn:Htab; [exact Hc|].
  destruct (cocoData st) as [doc|] eqn:Hdoc; [|exact Hc]. cbn [fileTree].
  destruct (lookupPath _ keys) as [node|] eqn:Hnode; [|exact Hc].
  destruct (type node) eqn:Hty; [exact Hc|].
  destruct (data node) as [img|] eqn:Hdata; [|exact Hc].
  destruct Hc as (H1 & H2 & H3 & H4). rewrite Hdoc in H2, H3.
  split; [exact H1|]. cbn [matchedImageId cocoData selectedTreeImage activeTab].
  split; [exact H2|]. split; [|discriminate].
  intros img' E. injection E as <-. exists doc. split; [reflexivity|].
  destruct keys as [|k q].
  - injection Hnode as <-.
    pose proof (root_header (searchedImages doc treeSearch)) as Hh.
    unfold header in Hh. simpl in Hh. congruence.
  - destruct (nodeOf_build _ (k :: q) node ltac:(discriminate) Hnode)
      as (_ & _ & Hd & _).
    rewrite Hdata in Hd. destruct Hd as (_ & Hin & _).
    exact (searched_subset _ _ _ Hin).
Qed.

Lemma consistent_step st ev : consistent st -> consistent (step st ev).
Proof.
  destruct ev; cbn [step].
  - apply consistent_json.
  - apply consistent_image.
  - apply consistent_tab.
  - apply consistent_row.
Qed.

End States.

(** X15: in every state that the events of the application lead to, an
    uploaded file is held exactly when an image is matched, the matched id
    is the id of an image of the loaded document, the image selected in the
    tree is an image of the loaded document, and the tree tab is only
    active when a document is loaded. *)
Theorem reachable_states_are_consistent (st : AppState) :
  reachable st -> consistent st.
Proof.
  induction 1 as [|st ev _ IH].
  - apply consistent_initial.
  - apply consistent_step. exact IH.
Qed.

Lemma reachable_states_are_consistent_witness :
  consistent (step (step initialState
                      (JsonRead (Normal (mkParsed (Some (images doc5))
                                                  (Some (annotations doc5))
                                                  (Some [])))))
                   (ImageAccepted "a.png")).
Proof.
  apply reachable_states_are_consistent.
  apply reach_step. apply reach_step. apply reach_init.
Defined.

(** ** The counts of [MetadataPreview] and the legend of [Viewer] *)

Section Categories.







Lemma strictEq_eq a b : strictEq a b = true <-> a = b.
Proof.
  destruct a as [x|s], b as [y|t]; simpl.
  - rewrite Z.eqb_eq. split; congruence.
  - split; discriminate.
  - split; discriminate.
  - rewrite String.eqb_eq. split; congruence.
Qed.

Lemma mapHas_In {V} (m : list (JsId * V)) k :
  mapHas m k = true <-> In k (List.map fst m).
Proof.
  induction m as [|[k' v] m IH]; simpl; [split; [discriminate|tauto]|].
  rewrite orb_true_iff, strictEq_eq, IH. reflexivity.
Qed.

Lemma find_snoc {A} (f : A -> bool) l a :
  List.find f (l ++ [a]) =
  match List.find f l with
  | Some x => Some x
  | None => if f a then Some a else None
  end.
Proof.
  induction l as [|x l IH]; simpl; [reflexivity|].
  destruct (f x); [reflexivity|exact IH].
Qed.

Lemma find_none_category c anns :
  ~ In c (List.map category_id anns) -> firstOfCategory c anns = None.
Proof.
  intros Hc. unfold firstOfCategory.
  destruct (List.find _ anns) as [a|] eqn:E; [|reflexivity].
  apply find_some in E as [Hin Heq]. apply strictEq_eq in Heq.
  exfalso. apply Hc. rewrite <- Heq. apply in_map. exact Hin.
Qed.

Variable getColorForId : JsId -> Z * Z * Z.
Variable categories : list COCOCategory.

Lemma legendItems_snoc anns a :
  legendItems getColorForId categories (anns ++ [a]) =
  if mapHas (legendItems getColorForId categories anns) (category_id a)
  then legendItems getColorForId categories anns
  else legendItems getColorForId categories anns ++
       [(category_id a,
         (getCategoryName categories (category_id a),
          colorHex (getColorForId (ann_id a))))].
Proof. unfold legendItems. rewrite foldl_app. reflexivity. Qed.

Lemma legend_keys anns :
  List.NoDup (List.map fst (legendItems getColorForId categories anns)) /\
  forall c, In c (List.map fst (legendItems getColorForId categories anns)) <->
            In c (List.map category_id anns).
Proof.
  induction anns as [|a anns [IHd IHk]] using rev_ind.
  - split; [constructor|reflexivity].
  - rewrite legendItems_snoc.
    destruct (mapHas _ (category_id a)) eqn:Hhas.
    + split; [exact IHd|]. intros c. rewrite IHk, List.map_app, in_app_iff.
      apply mapHas_In, IHk in Hhas. cbn [List.map In].
      split; [tauto|]. intros [H|[<-|[]]]; assumption.
    + assert (~ In (category_id a)
                (List.map fst (legendItems getColorForId categories anns)))
        as Hnew by (rewrite <- mapHas_In, Hhas; discriminate).
      rewrite !List.map_app. cbn [List.map fst]. split.
      * apply List.NoDup_app; [exact IHd|repeat constructor; intros []|].
        intros x Hx [<-|[]]. exact (Hnew Hx).
      * intros c. rewrite !in_app_iff, IHk. reflexivity.
Qed.

Lemma legend_entries anns c nm col :
  In (c, (nm, col)) (legendItems getColorForId categories anns) ->
  nm = getCategoryName categories c /\
  exists a, firstOfCategory c anns = Some a /\
            col = colorHex (getColorForId (ann_id a)).
Proof.
  induction anns as [|a anns IH] using rev_ind; [intros []|].
  rewrite legendItems_snoc. unfold firstOfCategory in *. rewrite find_snoc.
  destruct (mapHas _ (category_id a)) eqn:Hhas.
  - intros H. destruct (IH H) as (Hn & a' & -> & Hc).
    split; [exact Hn|]. exists a'. split; [reflexivity|exact Hc].
  - intros H. apply in_app_or in H as [H|[H|[]]].
    + destruct (IH H) as (Hn & a' & -> & Hc).
      split; [exact Hn|]. exists a'. split; [reflexivity|exact Hc].
    + injection H as <- <- <-. split; [reflexivity|].
      exists a. split; [|reflexivity].
      change (List.find (fun ann => strictEq (category_id ann) (category_id a)) anns)
        with (firstOfCategory (category_id a) anns).
      rewrite find_none_category.
      * replace (strictEq (category_id a) (category_id a)) with true
          by (symmetry; apply strictEq_eq; reflexivity).
        reflexivity.
      * rewrite <- (proj2 (legend_keys anns)), <- mapHas_In, Hhas. discriminate.
Qed.

End Categories.



(** X17: the legend has one entry for each category id that occurs among
    the annotations, and no two entries for the same id; the name of an
    entry is the name that the labels show for the category, and its color
    is the color of the first annotation of the category. *)
Theorem legend_one_entry_per_category (getColorForId : JsId -> Z * Z * Z)
    (categories : list COCOCategory) (anns : list COCOAnnotation) :
  List.NoDup (List.map fst (legendItems getColorForId categories anns)) /\
  (forall c, In c (List.map fst (legendItems getColorForId categories anns)) <->
             In c (List.map category_id anns)) /\
  (forall c nm col,
     In (c, (nm, col)) (legendItems getColorForId categories anns) ->
     nm = getCategoryName categories c /\
     exists a, firstOfCategory c anns = Some a /\
               col = colorHex (getColorForId (ann_id a))).
Proof.
  split; [apply legend_keys|]. split; [apply legend_keys|].
  apply legend_entries.
Qed.

(** ** The rows of the tree *)

(** X18: when the images have pairwise different ids, at most one row of
    the tree is highlighted for a selected id: two nodes that both count as
    selected are the same node of the tree. *)
Theorem one_row_is_selected (imgs : list COCOImage) (sel : JsId)
    (q1 q2 : list string) (n1 n2 : TreeNode) :
  List.NoDup (List.map id imgs) ->
  lookupPath (buildFileTree imgs) q1 = Some n1 ->
  lookupPath (buildFileTree imgs) q2 = Some n2 ->
  isSelected (Some sel) n1 = true -> isSelected (Some sel) n2 = true ->
  q1 = q2.
Proof.
  intros Hnd H1 H2 S1 S2.
  assert (forall q n, lookupPath (buildFileTree imgs) q = Some n ->
            isSelected (Some sel) n = true ->
            exists img, In img imgs /\ id img = sel /\
                        JSString.split (file_name img) = q) as Hsel.
  { intros q n Hn Hs. unfold isSelected in Hs.
    destruct (data n) as [img|] eqn:Hd; [|discriminate].
    apply strictEq_eq in Hs. exists img.
    destruct q as [|k q].
    - injection Hn as <-. pose proof (root_header imgs) as Hh.
      unfold header in Hh. simpl in Hh. congruence.
    - destruct (nodeOf_build imgs (k :: q) n ltac:(discriminate) Hn)
        as (_ & _ & Hdata & _).
      rewrite Hd in Hdata. tauto. }
  destruct (Hsel q1 n1 H1 S1) as (i1 & Hin1 & Hid1 & <-).
  destruct (Hsel q2 n2 H2 S2) as (i2 & Hin2 & Hid2 & <-).
  assert (i1 = i2) as ->; [|reflexivity].
  clear - Hnd Hin1 Hin2 Hid1 Hid2. subst sel.
  induction imgs as [|im imgs IH]; [destruct Hin1|].
  cbn [List.map] in Hnd. apply List.NoDup_cons_iff in Hnd as [Hnotin Hnd].
  destruct Hin1 as [->|Hin1], Hin2 as [->|Hin2].
  - reflexivity.
  - exfalso. apply Hnotin. rewrite <- Hid2. apply in_map. exact Hin2.
  - exfalso. apply Hnotin. rewrite Hid2. apply in_map. exact Hin1.
  - apply IH; assumption.
Qed.

Lemma one_row_is_selected_witness :
  ["A"; "x.png"]%string = ["A"; "x.png"]%string.
Proof.
  apply (one_row_is_selected imgs3 (IdNum 1) ["A"; "x.png"]%string
           ["A"; "x.png"]%string
           (mkNode "x.png" file None (Some (mkImage (IdNum 1) "A/x.png")) "A/x.png")
           (mkNode "x.png" file None (Some (mkImage (IdNum 1) "A/x.png")) "A/x.png")).
  - repeat constructor; simpl; intuition discriminate.
  - reflexivity.
  - reflexivity.
  - reflexivity.
  - reflexivity.
Defined.

(** ** The file check of the drop zone *)

Section Extension.

Lemma splitOn_nonempty c s : JSStringMore.splitOn c s <> [].
Proof.
  induction s as [|a s IH]; simpl; [discriminate|].
  destruct (Ascii.eqb a c); [discriminate|].
  destruct (JSStringMore.splitOn c s); discriminate.
Qed.

Lemma splitOn_app c stem ext :
  JSStringMore.splitOn c (stem ++ String c ext) =
  JSStringMore.splitOn c stem ++ JSStringMore.splitOn c ext.
Proof.
  induction stem as [|a stem IH]; simpl.
  - rewrite Ascii.eqb_refl. reflexivity.
  - destruct (Ascii.eqb a c); [rewrite IH; reflexivity|].
    rewrite IH. pose proof (splitOn_nonempty c stem).
    destruct (JSStringMore.splitOn c stem); [contradiction|reflexivity].
Qed.

Lemma splitOn_absent c s :
  JSStringMore.includes s (String c EmptyString) = false ->
  JSStringMore.splitOn c s = [s].
Proof.
  induction s as [|a s IH]; [reflexivity|].
  cbn [JSStringMore.includes JSStringMore.splitOn String.prefix].
  intros H. apply orb_false_iff in H as [Hp Hs].
  destruct (Ascii.eqb_spec a c) as [->|Hne].
  - destruct (ascii_dec c c); [|contradiction].
    destruct s; discriminate Hp.
  - rewrite (IH Hs). reflexivity.
Qed.

Lemma last_app_nonempty {A} (l1 l2 : list A) d :
  l2 <> [] -> List.last (l1 ++ l2) d = List.last l2 d.
Proof.
  intros H. induction l1 as [|x l1 IH]; [reflexivity|].
  cbn [app List.last]. destruct (l1 ++ l2) eqn:E; [|exact IH].
  apply app_eq_nil in E as [_ ->]. contradiction.
Qed.

Lemma fileExtension_last stem ext :
  JSStringMore.includes ext "." = false ->
  fileExtension (stem ++ "." ++ ext) = JSString.toLowerCase ext /\
  fileExtension ext = JSString.toLowerCase ext.
Proof.
  intros H. unfold fileExtension.
  change (stem ++ "." ++ ext)%string with (stem ++ String "."%char ext)%string.
  rewrite splitOn_app, last_app_nonempty by apply splitOn_nonempty.
  rewrite (splitOn_absent _ _ H). split; reflexivity.
Qed.

End Extension.

(** X19: the drop zone looks at the text after the last dot of the file
    name, whatever its letter case, and at the whole name when it has no
    dot: a file [stem.ext] is taken as JSON when [ext] is ["json"] in lower
    case, as an image when it is ["jpg"], ["jpeg"] or ["png"]; and a file
    whose whole name is one of these words is taken as well. *)
Theorem dropzone_checks_last_extension (accept : Accept) (stem ext : string) :
  JSStringMore.includes ext "." = false ->
  validateAndAccept accept (stem ++ "." ++ ext) =
    match accept with
    | acceptJson => String.eqb (JSString.toLowerCase ext) "json"
    | acceptImage =>
        existsb (String.eqb (JSString.toLowerCase ext)) ["jpg"; "jpeg"; "png"]%string
    end /\
  validateAndAccept accept ext = validateAndAccept accept (stem ++ "." ++ ext).
Proof.
  intros H. destruct (fileExtension_last stem ext H) as [E1 E2].
  unfold validateAndAccept. rewrite E1, E2.
  destruct accept; split; reflexivity.
Qed.

Lemma dropzone_checks_last_extension_witness :
  validateAndAccept acceptImage ("scan.v2" ++ "." ++ "PNG") =
    existsb (String.eqb (JSString.toLowerCase "PNG")) ["jpg"; "jpeg"; "png"]%string /\
  validateAndAccept acceptImage "PNG" =
    validateAndAccept acceptImage ("scan.v2" ++ "." ++ "PNG").
Proof.
  apply (dropzone_checks_last_extension acceptImage "scan.v2" "PNG").
  reflexivity.
Defined.

(** ** The units and the values of a compressed string *)

Section Units.

Lemma unitStep_shift a s p k x :
  unitStep (String a s) (S p) k x = unitStep s p k x.
Proof. reflexivity. Qed.

Lemma readValue_shift a s :
  forall d p k x, d = (String.length s - p)%nat ->
    readValue (String a s) (S p) k x =
    (fst (readValue s p k x), S (snd (readValue s p k x))).
Proof.
  induction d as [d IH] using lt_wf_ind. intros p k x Hd.
  rewrite (readValue_eq (String a s)), (readValue_eq s), unitStep_shift.
  destruct (snd (unitStep s p k x) =? 0) eqn:E; [reflexivity|].
  apply Z.eqb_neq, more_in_range in E.
  apply (IH (String.length s - S p)%nat); lia.
Qed.

Lemma rawValues_shift a s :
  forall d p, d = (String.length s - p)%nat ->
    rawValues (String a s) (S p) = rawValues s p.
Proof.
  induction d as [d IH] using lt_wf_ind. intros p Hd.
  rewrite (rawValues_eq (String a s)), (rawValues_eq s).
  cbn [String.length].
  destruct (lt_dec (S p) (S (String.length s))),
           (lt_dec p (String.length s)); try lia; [|reflexivity].
  rewrite (readValue_shift a s _ p 0 0 eq_refl). cbn [fst snd]. f_equal.
  pose proof (readValue_advances s p 0 0).
  apply (IH (String.length s - snd (readValue s p 0 0))%nat); lia.
Qed.

Lemma rawValues_empty : rawValues EmptyString 0 = [].
Proof. reflexivity. Qed.

Lemma rawValues_cons a s :
  rawValues (String a s) 0 = valuesFrom (String a s) 0 0.
Proof.
  rewrite rawValues_eq. cbn [String.length].
  destruct (lt_dec 0 (S (String.length s))); [reflexivity|lia].
Qed.

Lemma valuesFrom_empty k x :
  valuesFrom EmptyString k x = [fst (unitStep EmptyString 0 k x)].
Proof. reflexivity. Qed.

Lemma valuesFrom_cons a s k x :
  valuesFrom (String a s) k x =
  if continues a
  then valuesFrom s (k + 1) (fst (unitStep (String a s) 0 k x))
  else fst (unitStep (String a s) 0 k x) :: rawValues s 0.
Proof.
  unfold valuesFrom. rewrite (readValue_eq (String a s) 0).
  change (snd (unitStep (String a s) 0 k x))
    with (band (sub (Some (Z.of_N (N_of_ascii a))) 48) 0x20).
  unfold continues.
  destruct (band (sub (Some (Z.of_N (N_of_ascii a))) 48) 0x20 =? 0);
    cbn [negb fst snd].
  - rewrite (rawValues_shift a s _ 0%nat eq_refl). reflexivity.
  - rewrite (readValue_shift a s _ 0%nat _ _ eq_refl). cbn [fst snd].
    rewrite (rawValues_shift a s _ _ eq_refl). reflexivity.
Qed.

Lemma endsMidUnit_cons a s :
  endsMidUnit (String a s) =
  match s with
  | EmptyString => continues a
  | _ => endsMidUnit s
  end.
Proof.
  destruct s as [|b t]; [reflexivity|].
  unfold endsMidUnit. cbn [String.length Nat.ltb Nat.leb andb].
  replace (S (S (String.length t)) - 1)%nat with (S (String.length t)) by lia.
  replace (S (String.length t) - 1)%nat with (String.length t) by lia.
  reflexivity.
Qed.

Lemma terminators_cons a s :
  terminators (String a s) =
  ((if continues a then 0 else 1) + terminators s)%nat.
Proof.
  unfold terminators. cbn [list_ascii_of_string List.filter].
  destruct (continues a); reflexivity.
Qed.

Lemma valuesFrom_length s :
  forall k x,
    length (valuesFrom s k x) =
    (terminators s +
     match s with
     | EmptyString => 1
     | _ => if endsMidUnit s then 1 else 0
     end)%nat.
Proof.
  induction s as [|a s IH]; intros k x; [reflexivity|].
  rewrite valuesFrom_cons, terminators_cons, endsMidUnit_cons.
  destruct (continues a) eqn:Ha.
  - rewrite IH. destruct s; reflexivity.
  - cbn [length]. destruct s as [|b t]; [reflexivity|].
    rewrite rawValues_cons, IH. reflexivity.
Qed.

Lemma rawValues_length s :
  length (rawValues s 0) =
  (terminators s + if endsMidUnit s then 1 else 0)%nat.
Proof.
  destruct s as [|a s]; [reflexivity|].
  rewrite rawValues_cons. apply valuesFrom_length.
Qed.

Lemma terminators_bound s :
  (terminators s + (if endsMidUnit s then 1 else 0) <= String.length s)%nat.
Proof.
  induction s as [|a s IH]; [simpl; lia|].
  rewrite terminators_cons, endsMidUnit_cons. cbn [String.length].
  destruct s as [|b t].
  - destruct (continues a); simpl; lia.
  - destruct (continues a); lia.
Qed.

Lemma valuesFrom_app s t :
  s <> EmptyString -> endsMidUnit s = false ->
  forall k x,
    valuesFrom (s ++ t) k x = valuesFrom s k x ++ rawValues t 0.
Proof.
  induction s as [|a s IH]; intros Hne Hend k x; [congruence|].
  change (String a s ++ t)%string with (String a (s ++ t)).
  rewrite !valuesFrom_cons. rewrite endsMidUnit_cons in Hend.
  change (fst (unitStep (String a (s ++ t)) 0 k x))
    with (fst (unitStep (String a s) 0 k x)).
  destruct (continues a) eqn:Ha.
  - destruct s as [|b s']; [discriminate Hend|].
    apply IH; [discriminate|exact Hend].
  - cbn [app]. f_equal. destruct s as [|b s']; [reflexivity|].
    change (String b s' ++ t)%string with (String b (s' ++ t)).
    rewrite !rawValues_cons.
    apply (IH ltac:(discriminate) Hend).
Qed.

Lemma rawValues_app s t :
  endsMidUnit s = false ->
  rawValues (s ++ t) 0 = rawValues s 0 ++ rawValues t 0.
Proof.
  intros Hend. destruct s as [|a s]; [reflexivity|].
  change (String a s ++ t)%string with (String a (s ++ t)).
  rewrite !rawValues_cons.
  apply (valuesFrom_app (String a s) t ltac:(discriminate) Hend).
Qed.

(** The decoded values are determined, index by index, by the raw values
    up to that index. *)
Lemma decoded_prefix s1 s2 :
  (forall i r, rawValues s1 0 !! i = Some r -> rawValues s2 0 !! i = Some r) ->
  forall n i, (i < n)%nat -> (i < length (rawValues s1 0))%nat ->
    decodeLoop s2 0 0 [] !! i = decodeLoop s1 0 0 [] !! i.
Proof.
  intros Hraw.
  destruct (decodeLoop_spec s1 _ 0%nat 0%nat [] eq_refl eq_refl) as (_ & _ & H1).
  destruct (decodeLoop_spec s2 _ 0%nat 0%nat [] eq_refl eq_refl) as (_ & _ & H2).
  cbv zeta in H1, H2. cbn [Nat.add] in H1, H2.
  induction n as [|n IH]; intros i Hi Hlen; [lia|].
  destruct (lookup_lt_is_Some_2 _ _ Hlen) as (r & Hr).
  rewrite (H1 i r Hr), (H2 i r (Hraw i r Hr)).
  destruct (2 <? i)%nat eqn:E; [|reflexivity].
  apply Nat.ltb_lt in E. rewrite !nth_lookup.
  rewrite (IH (i - 2)%nat) by lia. reflexivity.
Qed.

End Units.

(** X20: for an image that has pixels, a mask given as a compressed string
    yields no canvas exactly when the string is empty, and a canvas
    otherwise. *)
Theorem string_mask_unless_empty (s : string) (h w : nat) (color : Z * Z * Z) :
  (0 < h)%nat -> (0 < w)%nat ->
  (decodeRleToCanvas (mkRLE (CountsString s) (h, w)) color = Normal None <->
   s = EmptyString) /\
  (s <> EmptyString ->
   exists cv,
     decodeRleToCanvas (mkRLE (CountsString s) (h, w)) color = Normal (Some cv)).
Proof.
  intros Hh Hw.
  assert (s <> EmptyString ->
          exists cv,
            decodeRleToCanvas (mkRLE (CountsString s) (h, w)) color
              = Normal (Some cv)) as Hsome.
  { intros Hs. destruct s as [|a s]; [congruence|].
    assert (decodeLoop (String a s) 0 0 [] <> []) as Hne.
    { intros E.
      destruct (decodeLoop_spec (String a s) _ 0%nat 0%nat [] eq_refl eq_refl)
        as (Hlen & _).
      cbv zeta in Hlen. rewrite E, rawValues_cons in Hlen.
      unfold valuesFrom in Hlen. simpl in Hlen. lia. }
    destruct (decodeRleToCanvas_shows (mkRLE (CountsString (String a s)) (h, w))
                color _ h w eq_refl eq_refl Hne Hh Hw) as (data & E & _).
    eexists. exact E. }
  split; [|exact Hsome]. split.
  - intros Hnone. destruct s as [|a s]; [reflexivity|]. exfalso.
    destruct (Hsome ltac:(discriminate)) as (cv & E). congruence.
  - intros ->.
    apply (decodeRleToCanvas_empty (mkRLE (CountsString EmptyString) (h, w))
             color h w eq_refl eq_refl Hh Hw).
Qed.

Lemma string_mask_unless_empty_witness :
  (decodeRleToCanvas (mkRLE (CountsString "12") (2, 2)%nat) (1, 2, 3)
     = Normal None <-> "12"%string = EmptyString) /\
  ("12"%string <> EmptyString ->
   exists cv,
     decodeRleToCanvas (mkRLE (CountsString "12") (2, 2)%nat) (1, 2, 3)
       = Normal (Some cv)).
Proof. apply (string_mask_unless_empty "12" 2 2 (1, 2, 3)); lia. Defined.

(** X21: the decoder returns one value for each unit of the string that
    has no continuation bit, and one more when the string ends in the
    middle of a value; so never more values than the string has
    characters. *)
Theorem decoder_value_count (s : string) :
  exists out,
    decodeCocoRleString s = Normal out /\
    length out =
      (terminators s + if endsMidUnit s then 1 else 0)%nat /\
    (length out <= String.length s)%nat.
Proof.
  exists (decodeLoop s 0 0 []). split; [reflexivity|].
  destruct (decodeLoop_spec s _ 0%nat 0%nat [] eq_refl eq_refl) as (Hlen & _).
  cbv zeta in Hlen. cbn [length Nat.add] in Hlen.
  rewrite Hlen, rawValues_length. split; [reflexivity|apply terminators_bound].
Qed.

(** X22: what follows a string that ends on a complete value does not
    change the values decoded from it: the result for [s ++ t] starts with
    the result for [s], followed by as many values as [t] alone gives. *)
Theorem decoder_keeps_prefix (s t : string) :
  endsMidUnit s = false ->
  exists out1 out2 outT,
    decodeCocoRleString s = Normal out1 /\
    decodeCocoRleString (s ++ t) = Normal out2 /\
    decodeCocoRleString t = Normal outT /\
    firstn (length out1) out2 = out1 /\
    length out2 = (length out1 + length outT)%nat.
Proof.
  intros Hend.
  exists (decodeLoop s 0 0 []), (decodeLoop (s ++ t) 0 0 []), (decodeLoop t 0 0 []).
  split; [reflexivity|]. split; [reflexivity|]. split; [reflexivity|].
  destruct (decodeLoop_spec s _ 0%nat 0%nat [] eq_refl eq_refl) as (L1 & _).
  destruct (decodeLoop_spec (s ++ t) _ 0%nat 0%nat [] eq_refl eq_refl) as (L2 & _).
  destruct (decodeLoop_spec t _ 0%nat 0%nat [] eq_refl eq_refl) as (LT & _).
  cbv zeta in L1, L2, LT. cbn [length Nat.add] in L1, L2, LT.
  rewrite (rawValues_app s t Hend), length_app in L2.
  split; [|lia].
  apply list_eq. intros i. rewrite lookup_take.
  destruct (decide (i < length (decodeLoop s 0 0 []))%nat) as [Hi|Hi].
  - apply (decoded_prefix s (s ++ t)) with (n := S i); [|lia|lia].
    intros j r Hr. rewrite (rawValues_app s t Hend).
    apply lookup_app_l_Some. exact Hr.
  - symmetry. apply lookup_ge_None_2. lia.
Qed.

Lemma decoder_keeps_prefix_witness :
  exists out1 out2 outT,
    decodeCocoRleString "12" = Normal out1 /\
    decodeCocoRleString ("12" ++ "3Q0") = Normal out2 /\
    decodeCocoRleString "3Q0" = Normal outT /\
    firstn (length out1) out2 = out1 /\
    length out2 = (length out1 + length outT)%nat.
Proof. apply (decoder_keeps_prefix "12" "3Q0"). reflexivity. Defined.

(** ** The value of a run of units *)

Section UnitValues.

Lemma small_cases (P : Z -> Prop) :
  (forall i, (i < 32)%nat -> P (Z.of_nat i)) -> forall u, 0 <= u < 32 -> P u.
Proof.
  intros H u Hu. rewrite <- (Z2Nat.id u) by lia. apply H. lia.
Qed.

Lemma unit_facts more u :
  0 <= u < 32 ->
  let c := sub (Some (Z.of_N (N_of_ascii (unitChar more u)))) 48 in
  band c 0x1f = u /\
  band c 0x20 = (if more then 32 else 0) /\
  (band c 0x10 =? 0) = (u <? 16).
Proof.
  revert u. apply small_cases. intros i Hi.
  do 32 (destruct i as [|i]; [destruct more; vm_compute; repeat split|]).
  lia.
Qed.

Lemma toInt32_small z : - 2 ^ 31 <= z < 2 ^ 31 -> toInt32 z = z.
Proof.
  intros H. unfold toInt32. rewrite Z.mod_small; lia.
Qed.

Lemma lor_disjoint n x y :
  0 <= n -> 0 <= x < 2 ^ n -> Z.lor x (y * 2 ^ n) = x + y * 2 ^ n.
Proof.
  intros Hn Hx.
  assert (Z.land x (y * 2 ^ n) = 0) as Hland.
  { apply Z.bits_inj'. intros m Hm. rewrite Z.land_spec, Z.bits_0.
    destruct (Z.lt_ge_cases m n) as [Hlt|Hge].
    - rewrite Z.mul_pow2_bits_low by exact Hlt. apply andb_false_r.
    - destruct (Z.eq_dec x 0) as [->|Hx0]; [rewrite Z.bits_0; reflexivity|].
      rewrite (Z.bits_above_log2 x m); [reflexivity|lia|].
      apply Z.lt_le_trans with n; [|exact Hge].
      apply Z.log2_lt_pow2; lia. }
  rewrite Z.add_nocarry_lxor by exact Hland.
  symmetry. apply Z.lxor_lor. exact Hland.
Qed.

Lemma pow5_bounds k :
  0 <= k <= 5 ->
  1 <= 2 ^ (5 * k) <= 2 ^ 25 /\ 2 ^ (5 * (k + 1)) = 32 * 2 ^ (5 * k).
Proof.
  intros Hk. split.
  - split.
    + pose proof (Z.pow_pos_nonneg 2 (5 * k)). lia.
    + apply Z.pow_le_mono_r; lia.
  - replace (5 * (k + 1)) with (5 * k + 5) by lia.
    rewrite Z.pow_add_r by lia. change (2 ^ 5) with 32. lia.
Qed.

Lemma unitStep_unit more u s k x :
  0 <= u < 32 -> 0 <= k <= 5 -> 0 <= x < 2 ^ (5 * k) ->
  unitStep (String (unitChar more u) s) 0 k x =
  (x + u * 2 ^ (5 * k)
     - (if more then 0 else if 16 <=? u then 2 ^ (5 * (k + 1)) else 0),
   if more then 32 else 0).
Proof.
  intros Hu Hk Hx.
  destruct (unit_facts more u Hu) as (H1f & H20 & H10).
  destruct (pow5_bounds k Hk) as ((Hp1 & Hp2) & Hnext).
  change (2 ^ 25) with 33554432 in Hp2.
  unfold unitStep.
  change (charCodeAt (String (unitChar more u) s) 0)
    with (Some (Z.of_N (N_of_ascii (unitChar more u)))).
  cbv zeta. rewrite H1f, H20, H10.
  assert (bor x (shl u (5 * k)) = x + u * 2 ^ (5 * k)) as Hx1.
  { unfold bor, shl.
    rewrite (toInt32_small u) by (change (2 ^ 31) with 2147483648; lia).
    rewrite (Z.mod_small (5 * k)) by lia.
    rewrite Z.shiftl_mul_pow2 by lia.
    rewrite !(toInt32_small (u * 2 ^ (5 * k)))
      by (change (2 ^ 31) with 2147483648; nia).
    rewrite (toInt32_small x) by (change (2 ^ 31) with 2147483648; lia).
    apply lor_disjoint; lia. }
  rewrite Hx1.
  destruct more; cbn [Z.eqb andb].
  - f_equal. lia.
  - f_equal. destruct (Z.ltb_spec u 16) as [Hlt|Hge]; cbn [negb].
    + replace (16 <=? u) with false by (symmetry; apply Z.leb_gt; lia). lia.
    + replace (16 <=? u) with true by (symmetry; apply Z.leb_le; lia).
      unfold bor, shl.
      rewrite (toInt32_small (-1)) by (change (2 ^ 31) with 2147483648; lia).
      rewrite (Z.mod_small (5 * (k + 1))) by lia.
      rewrite Z.shiftl_mul_pow2 by lia. rewrite Hnext.
      rewrite !(toInt32_small (-1 * _))
        by (change (2 ^ 31) with 2147483648; lia).
      rewrite (toInt32_small (x + _))
        by (change (2 ^ 31) with 2147483648; nia).
      rewrite <- Hnext. rewrite lor_disjoint; [lia|lia|].
      rewrite Hnext. nia.
Qed.

Lemma continues_unit more u : 0 <= u < 32 -> continues (unitChar more u) = more.
Proof.
  intros Hu. destruct (unit_facts more u Hu) as (_ & H20 & _).
  unfold continues. rewrite H20. destruct more; reflexivity.
Qed.

Lemma signedValue_cons u r :
  r <> [] ->
  signedValue (u :: r) =
  u + 32 * payloadSum r -
  if 16 <=? List.last r 0 then 32 * 2 ^ (5 * Z.of_nat (length r)) else 0.
Proof.
  intros Hr. unfold signedValue. cbn [payloadSum length].
  replace (List.last (u :: r) 0) with (List.last r 0)
    by (destruct r; [contradiction|reflexivity]).
  replace (5 * Z.of_nat (S (length r))) with (5 * Z.of_nat (length r) + 5) by lia.
  rewrite Z.pow_add_r by lia. change (2 ^ 5) with 32.
  destruct (16 <=? List.last r 0); lia.
Qed.

Lemma valuesFrom_units us :
  forall k x,
    us <> [] -> Forall (fun u => 0 <= u < 32) us ->
    0 <= k -> k + Z.of_nat (length us) <= 6 -> 0 <= x < 2 ^ (5 * k) ->
    valuesFrom (unitChars us) k x = [x + 2 ^ (5 * k) * signedValue us].
Proof.
  induction us as [|u r IH]; intros k x Hne Hall Hk Hlen Hx; [contradiction|].
  apply List.Forall_cons_iff in Hall as [Hu Hall]. cbn [length] in Hlen.
  destruct (pow5_bounds k ltac:(lia)) as ((Hp1 & Hp2) & Hnext).
  cbn [unitChars]. rewrite valuesFrom_cons.
  destruct r as [|u' r'].
  - rewrite (continues_unit false u Hu).
    rewrite unitStep_unit by (try assumption; lia).
    cbn [fst unitChars]. rewrite rawValues_empty. f_equal.
    unfold signedValue. cbn [payloadSum length List.last].
    change (2 ^ (5 * Z.of_nat 1)) with 32. rewrite Hnext.
    destruct (16 <=? u); lia.
  - rewrite (continues_unit true u Hu).
    rewrite unitStep_unit by (try assumption; lia).
    cbn [fst]. rewrite IH; [|discriminate|exact Hall|lia|lia|rewrite Hnext; nia].
    f_equal. rewrite (signedValue_cons u (u' :: r')) by discriminate.
    unfold signedValue. destruct (16 <=? List.last (u' :: r') 0); lia.
Qed.

Lemma endsMidUnit_units us :
  Forall (fun u => 0 <= u < 32) us -> endsMidUnit (unitChars us) = false.
Proof.
  induction 1 as [|u r Hu Hr IH]; [reflexivity|].
  cbn [unitChars]. rewrite endsMidUnit_cons.
  destruct r as [|u' r']; [apply continues_unit; exact Hu|exact IH].
Qed.

End UnitValues.

(** X23: a value written on one to six units is read as the number that
    its 5-bit payloads spell in two's complement, least significant
    payload first, with bit 4 of the last payload as the sign; the units
    that follow are read as the next values. *)
Theorem decoder_reads_signed_units (us : list Z) (t : string) :
  us <> [] -> (length us <= 6)%nat -> Forall (fun u => 0 <= u < 32) us ->
  rawValues (unitChars us ++ t) 0 = signedValue us :: rawValues t 0 /\
  decodeCocoRleString (unitChars us) = Normal [signedValue us].
Proof.
  intros Hne Hlen Hall.
  assert (forall t', rawValues (unitChars us ++ t') 0 =
                     signedValue us :: rawValues t' 0) as Hraw.
  { intros t'.
    rewrite rawValues_app by (apply endsMidUnit_units; exact Hall).
    destruct us as [|u r]; [contradiction|].
    cbn [unitChars]. rewrite rawValues_cons.
    change (String ?a ?s) with (unitChars (u :: r)).
    rewrite (valuesFrom_units (u :: r) 0 0 Hne Hall); [|lia|lia|simpl; lia].
    change (2 ^ (5 * 0)) with 1. cbn [app]. f_equal. lia. }
  split; [apply Hraw|].
  unfold decodeCocoRleString. f_equal.
  destruct (decodeLoop_spec (unitChars us) _ 0%nat 0%nat [] eq_refl eq_refl)
    as (Hl & _ & Hv).
  cbv zeta in Hl, Hv. cbn [length Nat.add] in Hl, Hv.
  specialize (Hraw EmptyString).
  assert (forall s, (s ++ EmptyString)%string = s) as Happ
    by (induction s as [|a s IHs]; simpl; [|rewrite IHs]; reflexivity).
  rewrite Happ, rawValues_empty in Hraw. rewrite Hraw in Hl, Hv.
  specialize (Hv 0%nat _ eq_refl). cbn [Nat.ltb Nat.leb] in Hv.
  destruct (decodeLoop (unitChars us) 0 0 []) as [|v [|v' l]];
    try discriminate Hl.
  injection Hv as ->. reflexivity.
Qed.

Lemma decoder_reads_signed_units_witness :
  rawValues (unitChars [2; 17] ++ "30") 0 = signedValue [2; 17] :: rawValues "30" 0 /\
  decodeCocoRleString (unitChars [2; 17]) = Normal [signedValue [2; 17]].
Proof.
  apply (decoder_reads_signed_units [2; 17] "30").
  - discriminate.
  - simpl. lia.
  - repeat constructor; lia.
Defined.

(** ** The annotations shown after an upload *)

(** X24: after an image upload with a document loaded, the annotations of
    the upload tab are never those of an image matched before: when an
    image is matched the upload tab is shown with the annotations of that
    image, and when none is matched no file is kept and the upload tab has
    no annotations. *)
Theorem upload_shows_annotations_of_match
    (otherLiteralValue : string -> option Z)
    (st : AppState) (doc : COCOJson) (fileName : string) :
  cocoData st = Some doc ->
  match matchedImageId (handleImageUpload st fileName) with
  | Some i =>
      (exists img, In img (images doc) /\ id img = i) /\
      activeTab (handleImageUpload st fileName) = upload /\
      currentAnnotations otherLiteralValue (handleImageUpload st fileName) =
        List.filter (fun ann => looseEq otherLiteralValue (image_id ann) i)
                    (annotations doc)
  | None =>
      currentImageFile (handleImageUpload st fileName) = None /\
      error (handleImageUpload st fileName) <> None /\
      activeTab (handleImageUpload st fileName) = activeTab st /\
      (activeTab st = upload ->
       currentAnnotations otherLiteralValue (handleImageUpload st fileName) = [])
  end.
Proof.
  intros Hdoc. unfold handleImageUpload. rewrite Hdoc. cbv zeta.
  destruct (find _ (images doc)) as [img|] eqn:Hfind.
  - cbn [matchedImageId activeTab]. split; [|split; [reflexivity|]].
    + apply find_some in Hfind as [Hin _]. exists img. auto.
    + unfold currentAnnotations, targetId. reflexivity.
  - cbn [matchedImageId activeTab currentImageFile error].
    split; [reflexivity|]. split; [discriminate|]. split; [reflexivity|].
    intros Htab. unfold currentAnnotations, targetId.
    cbn [cocoData activeTab matchedImageId]. rewrite Htab. reflexivity.
Qed.

Lemma upload_shows_annotations_of_match_witness :
  match matchedImageId (handleImageUpload
                          (mkApp (Some doc5) None None structure None None)
                          "A.PNG") with
  | Some i =>
      (exists img, In img (images doc5) /\ id img = i) /\
      activeTab (handleImageUpload
                   (mkApp (Some doc5) None None structure None None) "A.PNG")
        = upload /\
      currentAnnotations (fun _ => None)
        (handleImageUpload (mkApp (Some doc5) None None structure None None)
                           "A.PNG") =
        List.filter (fun ann => looseEq (fun _ => None) (image_id ann) i)
                    (annotations doc5)
  | None =>
      currentImageFile
        (handleImageUpload (mkApp (Some doc5) None None structure None None)
                           "A.PNG") = None /\
      error (handleImageUpload
               (mkApp (Some doc5) None None structure None None) "A.PNG")
        <> None /\
      activeTab (handleImageUpload
                   (mkApp (Some doc5) None None structure None None) "A.PNG")
        = activeTab (mkApp (Some doc5) None None structure None None) /\
      (activeTab (mkApp (Some doc5) None None structure None None) = upload ->
       currentAnnotations (fun _ => None)
         (handleImageUpload (mkApp (Some doc5) None None structure None None)
                            "A.PNG") = [])
  end.
Proof.
  apply (upload_shows_annotations_of_match (fun _ => None)
           (mkApp (Some doc5) None None structure None None) doc5 "A.PNG").
  reflexivity.
Defined.

(** X25: reading a JSON file either loads it or changes nothing but the
    error: when the three arrays are there, the new document is loaded, the
    error is cleared and nothing is matched or selected, so no annotations
    are shown; otherwise the document, the matched image, the selection
    and the annotations shown stay as they were and an error that starts
    with ["Failed to parse JSON: "] is set. *)
Theorem json_upload_loads_or_keeps
    (otherLiteralValue : string -> option Z)
    (st : AppState) (parsed : completion ParsedJson) :
  match error (handleJsonUpload st parsed) with
  | None =>
      (exists json imgs anns,
         parsed = Normal json /\ parsedImages json = Some imgs /\
         parsedAnnotations json = Some anns /\ parsedCategories json <> None /\
         cocoData (handleJsonUpload st parsed) = Some (mkJson imgs anns)) /\
      currentImageFile (handleJsonUpload st parsed) = None /\
      matchedImageId (handleJsonUpload st parsed) = None /\
      selectedTreeImage (handleJsonUpload st parsed) = None /\
      currentAnnotations otherLiteralValue (handleJsonUpload st parsed) = []
  | Some message =>
      String.prefix "Failed to parse JSON: " message = true /\
      cocoData (handleJsonUpload st parsed) = cocoData st /\
      currentImageFile (handleJsonUpload st parsed) = currentImageFile st /\
      matchedImageId (handleJsonUpload st parsed) = matchedImageId st /\
      selectedTreeImage (handleJsonUpload st parsed) = selectedTreeImage st /\
      currentAnnotations otherLiteralValue (handleJsonUpload st parsed) =
        currentAnnotations otherLiteralValue st
  end /\
  activeTab (handleJsonUpload st parsed) = activeTab st.
Proof.
  assert (forall message,
            String.prefix "Failed to parse JSON: "
              ("Failed to parse JSON: " ++ message) = true) as Hpre
    by (intros message; simpl; destruct message; reflexivity).
  unfold handleJsonUpload.
  destruct parsed as [json|message].
  - destruct (parsedImages json) as [imgs|] eqn:E1;
      [destruct (parsedAnnotations json) as [anns|] eqn:E2;
       [destruct (parsedCategories json) as [cats|] eqn:E3|]|];
      cbn [error cocoData currentImageFile matchedImageId selectedTreeImage
           activeTab];
      try (split; [|reflexivity]; split; [apply Hpre|]; repeat split).
    split; [|reflexivity]. split.
    + exists json, imgs, anns. rewrite E3. repeat split; try assumption.
      discriminate.
    + repeat split. unfold currentAnnotations, targetId.
      cbn [cocoData activeTab matchedImageId selectedTreeImage].
      destruct (activeTab st); reflexivity.
  - cbn [error cocoData currentImageFile matchedImageId selectedTreeImage
         activeTab].
    split; [|reflexivity]. split; [apply Hpre|]. repeat split.
Qed.
